(** * ComfyUI_VNCCS character core: morph blending, vertex weights,
      bone pose matrices, linear blend skinning, CCD step, pose transfer.

    Shallow embedding of
      - CharacterData/mh_parser.py    (HumanSolver.calculate_factors, solve_mesh)
      - CharacterData/mh_skeleton.py  (VertexBoneWeights, Bone, Skeleton)
      - __init__.py                   (shared skinning of the preview endpoint)
      - nodes/pose_studio.py          (PoseStudio._apply_pose skinning)
      - nodes/ik_solver.py            (the rotation step of the CCD loop)
      - nodes/pose_transfer.py        (PoseTransfer.apply_pose)

    Number model.  Python floats and numpy float32 arrays are embedded as
    exact rationals [Q] (equality is [Qeq], written [==]); rounding is
    modelled where a statement depends on it: [MorphR] is the morph
    blending with its float64 and float32 roundings.  Rationals hold no
    infinity and no NaN: a statement about sliders or factors holds for
    the finite values it names.  Only the CCD step needs square roots and
    lives over [R].
    Vertex arrays are lists of 3-vectors, a numpy index array together with
    its parallel value array is a list of pairs, Python dicts are
    association lists in insertion order. *)

From Stdlib Require Import Reals.
From Stdlib Require Import QArith Qminmax Qabs Qpower Psatz Lia ZArith Ascii
  String List Bool Arith Permutation Sorted Setoid Morphisms.
Import ListNotations.
Open Scope Q_scope.

(** ** Python scalar helpers *)

Definition Qlt_bool (a b : Q) : bool := negb (Qle_bool b a).

(** Python's [max(a, b)] returns [a] unless [b > a]; [min(a, b)] returns [a]
    unless [b < a]. *)
Definition pymax (a b : Q) : Q := if Qlt_bool a b then b else a.
Definition pymin (a b : Q) : Q := if Qlt_bool b a then b else a.

(** ** Exceptions

    The exceptions the modelled code can raise: an index outside an array
    and [numpy.linalg.LinAlgError] of [la.inv] on a singular matrix. *)

Inductive exn : Type := IndexError | LinAlgError.

Inductive result (A : Type) : Type :=
| Ok (a : A)
| Raise (e : exn).
Arguments Ok {A} a.
Arguments Raise {A} e.

Definition bind {A B : Type} (r : result A) (k : A -> result B) : result B :=
  match r with
  | Ok a => k a
  | Raise e => Raise e
  end.

Notation "x <- r ;; k" := (bind r (fun x => k))
  (at level 61, r at next level, right associativity).

(** Runs [f] over a list, threading the accumulator, stopping at the first
    exception (a Python [for] loop whose body may raise). *)
Fixpoint for_each {A S : Type} (f : S -> A -> result S) (l : list A) (s : S)
  : result S :=
  match l with
  | [] => Ok s
  | a :: l' => s' <- f s a ;; for_each f l' s'
  end.

(** ** Python dict with string keys, in insertion order *)

Definition dict (V : Type) : Type := list (string * V).

Fixpoint dict_get {V : Type} (d : dict V) (k : string) : option V :=
  match d with
  | [] => None
  | (k', v) :: d' => if String.eqb k' k then Some v else dict_get d' k
  end.

(** [d[k] = v]: an existing key keeps its place, a new key goes last. *)
Fixpoint dict_set {V : Type} (d : dict V) (k : string) (v : V) : dict V :=
  match d with
  | [] => [(k, v)]
  | (k', v') :: d' =>
      if String.eqb k' k then (k', v) :: d' else (k', v') :: dict_set d' k v
  end.

(** [d.get(k, dflt)] *)
Definition dict_get_default {V : Type} (d : dict V) (k : string) (dflt : V) : V :=
  match dict_get d k with
  | Some v => v
  | None => dflt
  end.

(** [k in d] *)
Definition dict_mem {V : Type} (d : dict V) (k : string) : bool :=
  match dict_get d k with
  | Some _ => true
  | None => false
  end.

Definition dict_keys {V : Type} (d : dict V) : list string := map fst d.

(** ** Vectors and numpy arrays of vectors *)

Record V3 : Type := mkV3 { vx : Q; vy : Q; vz : Q }.

Definition vzero : V3 := mkV3 0 0 0.
Definition vadd (a b : V3) : V3 := mkV3 (vx a + vx b) (vy a + vy b) (vz a + vz b).
Definition vsub (a b : V3) : V3 := mkV3 (vx a - vx b) (vy a - vy b) (vz a - vz b).
Definition vscale (k : Q) (a : V3) : V3 := mkV3 (vx a * k) (vy a * k) (vz a * k).

(** Equality of vectors and of vertex arrays up to [Qeq]. *)
Definition veq (a b : V3) : Prop := vx a == vx b /\ vy a == vy b /\ vz a == vz b.

Definition verts_eq (a b : list V3) : Prop :=
  length a = length b /\ forall j, veq (nth j a vzero) (nth j b vzero).

(** Coordinates within [eps] of each other. *)
Definition vclose (eps : Q) (a b : V3) : Prop :=
  Qabs (vx a - vx b) <= eps /\ Qabs (vy a - vy b) <= eps /\ Qabs (vz a - vz b) <= eps.

Definition verts_close (eps : Q) (a b : list V3) : Prop :=
  length a = length b /\ forall j, vclose eps (nth j a vzero) (nth j b vzero).

(** The same relation on the outcome of a call that may raise. *)
Definition result_rel {A : Type} (R : A -> A -> Prop) (x y : result A) : Prop :=
  match x, y with
  | Ok a, Ok b => R a b
  | Raise e, Raise e' => e = e'
  | _, _ => False
  end.

(** [l[i] = v] on a list; callers check the range first. *)
Fixpoint list_set {A : Type} (l : list A) (i : nat) (v : A) : list A :=
  match l, i with
  | [], _ => []
  | _ :: t, O => v :: t
  | h :: t, S i' => h :: list_set t i' v
  end.

(** numpy's [a[idx] += vals] with an index array: it is [a[idx] = a[idx] + vals],
    so the old rows are gathered first and the sums are then stored one by
    one; where an index repeats, the last store wins.  An index outside the
    array raises IndexError before anything is stored. *)
Definition scatter_add (a : list V3) (upd : list (nat * V3)) : list V3 :=
  fold_left
    (fun acc p => list_set acc (fst p) (vadd (nth (fst p) a vzero) (snd p)))
    upd a.

Definition in_range (n : nat) {B : Type} (upd : list (nat * B)) : bool :=
  forallb (fun p => fst p <? n)%nat upd.

Definition fancy_iadd (a : list V3) (upd : list (nat * V3)) : result (list V3) :=
  if in_range (length a) upd then Ok (scatter_add a upd) else Raise IndexError.

(** The value an update list stores last at index [j], if it names [j]. *)
Definition last_upd {B : Type} (upd : list (nat * B)) (j : nat) : option B :=
  fold_left (fun o p => if (fst p =? j)%nat then Some (snd p) else o) upd None.

Definition delta_at (upd : list (nat * V3)) (j : nat) : V3 :=
  match last_upd upd j with
  | Some d => d
  | None => vzero
  end.

(** [a[i] += w] on an array of scalars. *)
Definition iadd_at (a : list Q) (p : nat * Q) : result (list Q) :=
  if (fst p <? length a)%nat
  then Ok (list_set a (fst p) (nth (fst p) a 0 + snd p))
  else Raise IndexError.

(** [np.add.at(a, idx, vals)]: unbuffered, every occurrence of an index
    adds; also the loop [for i, w in items: a[i] += w]. *)
Definition add_at (a : list Q) (upd : list (nat * Q)) : result (list Q) :=
  for_each iadd_at upd a.

(** numpy resolves a signed index [i] into an array of length [n]: a negative
    index counts from the end. *)
Definition np_index (n : nat) (i : Z) : result nat :=
  if ((0 <=? i) && (i <? Z.of_nat n))%Z then Ok (Z.to_nat i)
  else if ((i <? 0) && (- Z.of_nat n <=? i))%Z then Ok (Z.to_nat (i + Z.of_nat n))
  else Raise IndexError.

(** ** mh_parser.py: HumanSolver *)

Module Morph.

Definition Factors : Type := dict Q.

(** [factors[k]] for a key the table already holds (the default 0 is never
    reached by the reads below). *)
Definition factor (f : Factors) (k : string) : Q := dict_get_default f k 0.

Definition calculate_factors
    (age gender weight muscle height breast_size genital_size : Q) : Factors :=
  let factors : Factors := [] in
  (* Gender *)
  let factors := dict_set factors "male" gender in
  let factors := dict_set factors "female" (1 - gender) in
  (* Age *)
  let factors :=
    if Qlt_bool age 0.5 then
      let factors := dict_set factors "old" 0 in
      let factors := dict_set factors "baby" (pymax 0 (1 - age * 5.333)) in
      let factors := dict_set factors "young" (pymax 0 ((age - 0.1875) * 3.2)) in
      dict_set factors "child"
        (pymax 0 (pymin 1 (5.333 * age) - factor factors "young"))
    else
      let factors := dict_set factors "child" 0 in
      let factors := dict_set factors "baby" 0 in
      let factors := dict_set factors "old" (pymax 0 (age * 2 - 1)) in
      dict_set factors "young" (1 - factor factors "old") in
  (* Muscle *)
  let factors := dict_set factors "maxmuscle" (pymax 0 (muscle * 2 - 1)) in
  let factors := dict_set factors "minmuscle" (pymax 0 (1 - muscle * 2)) in
  let factors := dict_set factors "averagemuscle"
    (1 - (factor factors "maxmuscle"
          + factor factors "minmuscle")) in
  (* Weight *)
  let factors := dict_set factors "maxweight" (pymax 0 (weight * 2 - 1)) in
  let factors := dict_set factors "minweight" (pymax 0 (1 - weight * 2)) in
  let factors := dict_set factors "averageweight"
    (1 - (factor factors "maxweight"
          + factor factors "minweight")) in
  (* Height *)
  let factors := dict_set factors "maxheight" (pymax 0 (height * 2 - 1)) in
  let factors := dict_set factors "minheight" (pymax 0 (1 - height * 2)) in
  let factors := dict_set factors "averageheight"
    (1 - (factor factors "maxheight"
          + factor factors "minheight")) in
  (* Race (internal defaults) *)
  let factors := dict_set factors "african" 0.333 in
  let factors := dict_set factors "asian" 0.333 in
  let factors := dict_set factors "caucasian" 0.334 in
  (* Breast size (cup) *)
  let factors := dict_set factors "maxcup" (pymax 0 (breast_size * 2 - 1)) in
  let factors := dict_set factors "mincup" (pymax 0 (1 - breast_size * 2)) in
  let factors := dict_set factors "averagecup"
    (1 - (factor factors "maxcup"
          + factor factors "mincup")) in
  (* Firmness *)
  let factors := dict_set factors "maxfirmness" 0 in
  let factors := dict_set factors "minfirmness" 0 in
  let factors := dict_set factors "averagefirmness" 1 in
  (* Genitals *)
  let factors := dict_set factors "penis-length-incr"
    (pymax 0 (genital_size * 2 - 1)) in
  let factors := dict_set factors "penis-length-decr"
    (pymax 0 (1 - genital_size * 2)) in
  let factors := dict_set factors "penis-testicles-incr"
    (factor factors "penis-length-incr") in
  let factors := dict_set factors "penis-testicles-decr"
    (factor factors "penis-length-decr") in
  let factors := dict_set factors "penis-circ-incr" 0 in
  let factors := dict_set factors "penis-circ-decr" 0 in
  (* Universal *)
  dict_set factors "universal" 1.

(** A tag value of a morph target: a category value (a string looked up in
    the factor table) or the boolean [True] of the [universal] flag. *)
Inductive tag_value : Type :=
| TagTrue
| TagName (s : string).

(** A target entry of [TargetParser.scan_targets]: [tags] (category to
    value, in insertion order) and [data], [None] or the parallel arrays
    [(indices, deltas)] (int32 indices, one delta per index). *)
Record Target : Type := mkTarget {
  tags : dict tag_value;
  data : option (list (Z * V3))
}.

(** The factor a tag value reads. *)
Definition tag_factor (factors : Factors) (tv : tag_value) : Q :=
  match tv with
  | TagTrue => dict_get_default factors "universal" 1
  | TagName s => dict_get_default factors s 0
  end.

(** The inner loop of [solve_mesh] over [target['tags'].items()], started
    with [weight]: [Some w] when the loop ends with [relevant] still true,
    [None] when the running product fell below 0.001 and the loop broke. *)
Fixpoint tag_weight (factors : Factors) (tgs : dict tag_value) (weight : Q)
  : option Q :=
  match tgs with
  | [] => Some weight
  | (_, tag_val) :: rest =>
      let val := tag_factor factors tag_val in
      let weight := weight * val in
      if Qlt_bool weight 0.001 then None else tag_weight factors rest weight
  end.

(** The index array resolved against the vertex count, paired with the rows
    of [deltas * weight]. *)
Definition resolve (n : nat) (d : list (Z * V3)) (weight : Q)
  : result (list (nat * V3)) :=
  for_each
    (fun acc p => i <- np_index n (fst p) ;; Ok (acc ++ [(i, vscale weight (snd p))]))
    d [].

(** [new_verts[indices] += deltas * weight] *)
Definition apply_target (new_verts : list V3) (d : list (Z * V3)) (weight : Q)
  : result (list V3) :=
  upd <- resolve (length new_verts) d weight ;;
  fancy_iadd new_verts upd.

(** The body of the loop over [targets]. *)
Definition solve_step (factors : Factors) (new_verts : list V3) (target : Target)
  : result (list V3) :=
  match tag_weight factors (tags target) 1 with
  | Some weight =>
      match data target with
      | Some d => apply_target new_verts d weight
      | None => Ok new_verts
      end
  | None => Ok new_verts
  end.

Definition solve_mesh (base_mesh : list V3) (targets : list Target)
    (factors : Factors) : result (list V3) :=
  for_each (solve_step factors) targets base_mesh.

(** The full product weight of a target, over all its tags. *)
Definition full_weight (factors : Factors) (tgs : dict tag_value) : Q :=
  fold_left (fun w t => w * tag_factor factors (snd t)) tgs 1.

(** Blending as the specification words it for comparison: every target is
    applied with its full product weight, without the early skip. *)
Definition solve_step_full (factors : Factors) (new_verts : list V3)
    (target : Target) : result (list V3) :=
  match data target with
  | Some d => apply_target new_verts d (full_weight factors (tags target))
  | None => Ok new_verts
  end.

Definition solve_mesh_full (base_mesh : list V3) (targets : list Target)
    (factors : Factors) : result (list V3) :=
  for_each (solve_step_full factors) targets base_mesh.

(** Blending with the skip decided on the full product: a target is applied,
    with its full product weight, exactly when that product is not below
    0.001. *)
Definition solve_step_kept (factors : Factors) (new_verts : list V3)
    (target : Target) : result (list V3) :=
  if Qlt_bool (full_weight factors (tags target)) 0.001 then Ok new_verts
  else solve_step_full factors new_verts target.

Definition solve_mesh_kept (base_mesh : list V3) (targets : list Target)
    (factors : Factors) : result (list V3) :=
  for_each (solve_step_kept factors) targets base_mesh.

(** What a target adds to a mesh of [n] vertices: nothing when it is
    skipped or has no data. *)
Definition plan (factors : Factors) (n : nat) (target : Target)
  : result (list (nat * V3)) :=
  match tag_weight factors (tags target) 1 with
  | Some weight =>
      match data target with
      | Some d => resolve n d weight
      | None => Ok []
      end
  | None => Ok []
  end.

(** Every value of the factor table lies in [0,1]. *)
Definition factors_in_unit (factors : Factors) : Prop :=
  forall k v, In (k, v) factors -> 0 <= v <= 1.

End Morph.

(** ** 4x4 matrices (numpy arrays of shape (4,4), row major) *)

Record V4 : Type := mkV4 { c0 : Q; c1 : Q; c2 : Q; c3 : Q }.

Record M44 : Type := mkM44 { row0 : V4; row1 : V4; row2 : V4; row3 : V4 }.

Definition v4eq (a b : V4) : Prop :=
  c0 a == c0 b /\ c1 a == c1 b /\ c2 a == c2 b /\ c3 a == c3 b.

Definition meq (a b : M44) : Prop :=
  v4eq (row0 a) (row0 b) /\ v4eq (row1 a) (row1 b) /\
  v4eq (row2 a) (row2 b) /\ v4eq (row3 a) (row3 b).

Definition dot4 (a b : V4) : Q :=
  c0 a * c0 b + c1 a * c1 b + c2 a * c2 b + c3 a * c3 b.

(** Column [j] of a matrix, [j] one of the projections [c0] .. [c3]. *)
Definition col (j : V4 -> Q) (m : M44) : V4 :=
  mkV4 (j (row0 m)) (j (row1 m)) (j (row2 m)) (j (row3 m)).

(** [np.dot(v, m)] for a row vector [v]. *)
Definition vrow (v : V4) (m : M44) : V4 :=
  mkV4 (dot4 v (col c0 m)) (dot4 v (col c1 m)) (dot4 v (col c2 m)) (dot4 v (col c3 m)).

(** [np.dot(m, v)] for a column vector [v]. *)
Definition mvec (m : M44) (v : V4) : V4 :=
  mkV4 (dot4 (row0 m) v) (dot4 (row1 m) v) (dot4 (row2 m) v) (dot4 (row3 m) v).

(** [np.dot(a, b)] *)
Definition mmul (a b : M44) : M44 :=
  mkM44 (vrow (row0 a) b) (vrow (row1 a) b) (vrow (row2 a) b) (vrow (row3 a) b).

(** [m.T] *)
Definition transpose (m : M44) : M44 :=
  mkM44 (col c0 m) (col c1 m) (col c2 m) (col c3 m).

(** [np.identity(4)] *)
Definition identity4 : M44 :=
  mkM44 (mkV4 1 0 0 0) (mkV4 0 1 0 0) (mkV4 0 0 1 0) (mkV4 0 0 0 1).

Definition v4scale (k : Q) (v : V4) : V4 :=
  mkV4 (k * c0 v) (k * c1 v) (k * c2 v) (k * c3 v).

Definition mscale (k : Q) (m : M44) : M44 :=
  mkM44 (v4scale k (row0 m)) (v4scale k (row1 m)) (v4scale k (row2 m))
        (v4scale k (row3 m)).

(** Determinant and adjugate by the Laplace expansion on the 2x2 minors of
    the two upper rows ([s0] .. [s5]) and of the two lower rows ([k0] .. [k5]). *)
Section Laplace.
Variable m : M44.
Let a00 := c0 (row0 m).
Let a01 := c1 (row0 m).
Let a02 := c2 (row0 m).
Let a03 := c3 (row0 m).
Let a10 := c0 (row1 m).
Let a11 := c1 (row1 m).
Let a12 := c2 (row1 m).
Let a13 := c3 (row1 m).
Let a20 := c0 (row2 m).
Let a21 := c1 (row2 m).
Let a22 := c2 (row2 m).
Let a23 := c3 (row2 m).
Let a30 := c0 (row3 m).
Let a31 := c1 (row3 m).
Let a32 := c2 (row3 m).
Let a33 := c3 (row3 m).
Let s0 := a00 * a11 - a10 * a01.
Let s1 := a00 * a12 - a10 * a02.
Let s2 := a00 * a13 - a10 * a03.
Let s3 := a01 * a12 - a11 * a02.
Let s4 := a01 * a13 - a11 * a03.
Let s5 := a02 * a13 - a12 * a03.
Let k5 := a22 * a33 - a32 * a23.
Let k4 := a21 * a33 - a31 * a23.
Let k3 := a21 * a32 - a31 * a22.
Let k2 := a20 * a33 - a30 * a23.
Let k1 := a20 * a32 - a30 * a22.
Let k0 := a20 * a31 - a30 * a21.

Definition det4 : Q :=
  s0 * k5 - s1 * k4 + s2 * k3 + s3 * k2 - s4 * k1 + s5 * k0.

Definition adjugate : M44 :=
  mkM44
    (mkV4 (a11 * k5 - a12 * k4 + a13 * k3) (- a01 * k5 + a02 * k4 - a03 * k3)
          (a31 * s5 - a32 * s4 + a33 * s3) (- a21 * s5 + a22 * s4 - a23 * s3))
    (mkV4 (- a10 * k5 + a12 * k2 - a13 * k1) (a00 * k5 - a02 * k2 + a03 * k1)
          (- a30 * s5 + a32 * s2 - a33 * s1) (a20 * s5 - a22 * s2 + a23 * s1))
    (mkV4 (a10 * k4 - a11 * k2 + a13 * k0) (- a00 * k4 + a01 * k2 - a03 * k0)
          (a30 * s4 - a31 * s2 + a33 * s0) (- a20 * s4 + a21 * s2 - a23 * s0))
    (mkV4 (- a10 * k3 + a11 * k1 - a12 * k0) (a00 * k3 - a01 * k1 + a02 * k0)
          (- a30 * s3 + a31 * s1 - a32 * s0) (a20 * s3 - a21 * s1 + a22 * s0)).
End Laplace.

(** [numpy.linalg.inv] in exact arithmetic: LinAlgError on a matrix of
    determinant zero, the inverse otherwise.  numpy itself raises only when
    its floating-point LU factorisation meets an exactly zero pivot, which
    need not happen on every singular matrix: what depends on when the
    inversion fails is stated over [update_np] below, which takes the
    inversion as a parameter. *)
Definition la_inv (m : M44) : result M44 :=
  if Qeq_bool (det4 m) 0 then Raise LinAlgError
  else Ok (mscale (/ det4 m) (adjugate m)).

(** [np.dot(vs, mat.T)[:, :3]] for one homogeneous row [(x, y, z, 1)]. *)
Definition transform_point (mat : M44) (v : V3) : V3 :=
  let r := vrow (mkV4 (vx v) (vy v) (vz v) 1) (transpose mat) in
  mkV3 (c0 r) (c1 r) (c2 r).

(** ** mh_skeleton.py: Bone and Skeleton

    A [Bone] is the Python object after [Bone.build]: its four derived
    matrices hold arrays (they are [None] only between construction and the
    first [build]).  The bones of a skeleton are its [boneslist]; a bone's
    [parent] reference is the position of the parent object in that list. *)

Record Bone : Type := mkBone {
  name : string;
  parent : option nat;
  headPos : V3;
  tailPos : V3;
  reference_bones : list string;
  weight_reference_bones : option (list string);
  matRestGlobal : M44;
  matRestRelative : M44;
  matPose : M44;
  matPoseGlobal : M44;
  matPoseVerts : M44
}.

Definition set_matPose (b : Bone) (m : M44) : Bone :=
  mkBone (name b) (parent b) (headPos b) (tailPos b) (reference_bones b)
    (weight_reference_bones b) (matRestGlobal b) (matRestRelative b)
    m (matPoseGlobal b) (matPoseVerts b).

Definition set_pose_derived (b : Bone) (g pv : M44) : Bone :=
  mkBone (name b) (parent b) (headPos b) (tailPos b) (reference_bones b)
    (weight_reference_bones b) (matRestGlobal b) (matRestRelative b)
    (matPose b) g pv.

Definition set_rest (b : Bone) (head tail : V3) (g rel : M44) : Bone :=
  mkBone (name b) (parent b) head tail (reference_bones b)
    (weight_reference_bones b) g rel
    (matPose b) (matPoseGlobal b) (matPoseVerts b).

(** [skel.getBone(name)], as a position in [boneslist]: [skel.bones] is a
    dict, so of several bones added under one name the last one is found. *)
Fixpoint getBone_from (s : list Bone) (n : string) (i : nat) (found : option nat)
  : option nat :=
  match s with
  | [] => found
  | b :: s' =>
      getBone_from s' n (S i) (if String.eqb (name b) n then Some i else found)
  end.

Definition getBone (s : list Bone) (n : string) : option nat :=
  getBone_from s n 0%nat None.

(** [Skeleton.addBone] / [Bone.__init__]: the parent is looked up by name
    among the bones added so far; [proto] carries the remaining fields. *)
Definition addBone (s : list Bone) (proto : Bone) (parentName : option string)
  : list Bone :=
  let p := match parentName with
           | Some pn => getBone s pn
           | None => None
           end in
  s ++ [mkBone (name proto) p (headPos proto) (tailPos proto)
          (reference_bones proto) (weight_reference_bones proto)
          (matRestGlobal proto) (matRestRelative proto) identity4
          (matPoseGlobal proto) (matPoseVerts proto)].

(** The parent object of a bone. *)
Definition parent_bone (s : list Bone) (b : Bone) : option Bone :=
  match parent b with
  | Some p => nth_error s p
  | None => None
  end.

(** [Bone.update] of the bone at position [i]. *)
Definition update (s : list Bone) (i : nat) : result (list Bone) :=
  match nth_error s i with
  | None => Ok s
  | Some b =>
      let g :=
        match parent_bone s b with
        | Some pb => mmul (matPoseGlobal pb) (mmul (matRestRelative b) (matPose b))
        | None => mmul (matRestRelative b) (matPose b)
        end in
      (* try: ... except la.LinAlgError: identity *)
      match (invRest <- la_inv (matRestGlobal b) ;; Ok (mmul g invRest)) with
      | Ok pv => Ok (list_set s i (set_pose_derived b g pv))
      | Raise LinAlgError => Ok (list_set s i (set_pose_derived b g identity4))
      | Raise e => Raise e
      end
  end.

(** [Bone.update] with [numpy.linalg.inv] taken as it is, a library
    function [linalg_inv] of which nothing is assumed. *)
Definition update_np (linalg_inv : M44 -> result M44) (s : list Bone) (i : nat)
  : result (list Bone) :=
  match nth_error s i with
  | None => Ok s
  | Some b =>
      let g :=
        match parent_bone s b with
        | Some pb => mmul (matPoseGlobal pb) (mmul (matRestRelative b) (matPose b))
        | None => mmul (matRestRelative b) (matPose b)
        end in
      (* try: ... except la.LinAlgError: identity *)
      match (invRest <- linalg_inv (matRestGlobal b) ;; Ok (mmul g invRest)) with
      | Ok pv => Ok (list_set s i (set_pose_derived b g pv))
      | Raise LinAlgError => Ok (list_set s i (set_pose_derived b g identity4))
      | Raise e => Raise e
      end
  end.

(** What [Bone.update] leaves in the bone [b] of the skeleton [s]: the
    function [update] above always returns, with this bone stored. *)
Definition update_bone (s : list Bone) (b : Bone) : Bone :=
  let g :=
    match parent_bone s b with
    | Some pb => mmul (matPoseGlobal pb) (mmul (matRestRelative b) (matPose b))
    | None => mmul (matRestRelative b) (matPose b)
    end in
  set_pose_derived b g
    match la_inv (matRestGlobal b) with
    | Ok invRest => mmul g invRest
    | Raise _ => identity4
    end.

(** The fields of a bone that [update] reads and never writes. *)
Definition static (b : Bone) : string * option nat * M44 * M44 * M44 :=
  (name b, parent b, matRestGlobal b, matRestRelative b, matPose b).

(** The bone stands in its rest pose: the global pose equals the rest
    matrix and the skinning matrix is the identity. *)
Definition posed_at_rest (b : Bone) : Prop :=
  meq (matPoseGlobal b) (matRestGlobal b) /\ meq (matPoseVerts b) identity4.

(** The state of the sweep [update_all] of [s0] after its first [k] bones. *)
Definition swept (s0 : list Bone) (k : nat) (s : list Bone) : Prop :=
  length s = length s0 /\
  forall j b0, nth_error s0 j = Some b0 ->
    exists b, nth_error s j = Some b /\ static b = static b0 /\
              ((j < k)%nat -> posed_at_rest b).

(** [for b in skel.getBones(): b.update()] *)
Definition update_all (s : list Bone) : result (list Bone) :=
  for_each update (seq 0 (length s)) s.

(** [Bone.updateJointPositions] then [Bone.build] of the bone at position
    [i].  The joint positions [head], [tail] and the frame
    [rest = getMatrix(head, tail, normal)] are supplied: they derive from the
    mesh and are normalised with square roots.  [la.inv] of the parent's
    rest matrix is not guarded here. *)
Definition build (s : list Bone) (i : nat) (frame : V3 * V3 * M44)
  : result (list Bone) :=
  match nth_error s i with
  | None => Ok s
  | Some b =>
      let '(head, tail, rest) := frame in
      rel <- match parent_bone s b with
             | Some pb => ip <- la_inv (matRestGlobal pb) ;; Ok (mmul ip rest)
             | None => Ok rest
             end ;;
      update (list_set s i (set_rest b head tail rest rel)) i
  end.

(** [Skeleton.updateJointPositions]: every bone of [boneslist] in order;
    [frame_of i] is what the mesh gives for the bone at position [i]. *)
Definition updateJointPositions (s : list Bone) (frame_of : nat -> V3 * V3 * M44)
  : result (list Bone) :=
  for_each (fun s' i => build s' i (frame_of i)) (seq 0 (length s)) s.

(** Parents precede their children in [boneslist]: a parent reference is
    taken from the bones already added when the child is created. *)
Definition parents_first (s : list Bone) : Prop :=
  forall i b p, nth_error s i = Some b -> parent b = Some p -> (p < i)%nat.

(** [matRestRelative] as [build] leaves it: [inv(parent rest) . rest] over an
    invertible parent rest matrix, the rest matrix itself at a root. *)
Definition rest_consistent_at (s : list Bone) (b : Bone) : Prop :=
  match parent_bone s b with
  | Some pb =>
      exists ip, la_inv (matRestGlobal pb) = Ok ip /\
                 meq (matRestRelative b) (mmul ip (matRestGlobal b))
  | None => meq (matRestRelative b) (matRestGlobal b)
  end.

Definition rest_consistent (s : list Bone) : Prop :=
  forall i b, nth_error s i = Some b -> rest_consistent_at s b.

(** The first [k] bones of the skeleton have been built. *)
Definition built (k : nat) (s : list Bone) : Prop :=
  forall j b, (j < k)%nat -> nth_error s j = Some b -> rest_consistent_at s b.

(** ** mh_skeleton.py: VertexBoneWeights and weight retargeting *)

Module Weights.

(** The value stored for a bone: the parallel arrays [(verts, weights)],
    as the list of their pairs. *)
Definition Entry : Type := list (nat * Q).

(** The raw format read from a weights file: bone name to a list of
    [[vertexIndex, weight]] items.  Vertex indices are natural numbers: a
    negative index (which numpy would count from the end of the array of
    totals) and an array too large to allocate are outside the model. *)
Definition Raw : Type := dict (list (nat * Q)).

Definition WEIGHT_THRESHOLD : Q := 0.0001.

Definition vertex_count (d : Raw) (vertexCount : option nat) : nat :=
  match vertexCount with
  | Some n => n
  | None =>
      match concat (map (fun kv => map fst (snd kv)) d) with
      | [] => 0%nat
      | vals => (list_max vals + 1)%nat
      end
  end.

(** One item of a group: [if vn in v_lookup: weights[v_lookup[vn]] += x]
    else [v_lookup[vn] = len(verts); verts.append(vn); weights.append(x)]. *)
Fixpoint group_add (acc : Entry) (vn : nat) (x : Q) : Entry :=
  match acc with
  | [] => [(vn, x)]
  | (v, w) :: rest =>
      if (v =? vn)%nat then (v, w + x) :: rest
      else (v, w) :: group_add rest vn x
  end.

Definition normalize_group (wtot : list Q) (vgroup : list (nat * Q)) : Entry :=
  fold_left
    (fun acc item => group_add acc (fst item) (snd item / nth (fst item) wtot 0))
    vgroup [].

(** [i_s = np.argsort(verts); verts = verts[i_s]; weights = weights[i_s]] *)
Fixpoint insert_by_index (p : nat * Q) (l : Entry) : Entry :=
  match l with
  | [] => [p]
  | q :: l' =>
      if (fst p <=? fst q)%nat then p :: q :: l' else q :: insert_by_index p l'
  end.

Definition argsort_entry (l : Entry) : Entry := fold_right insert_by_index [] l.

(** [i_s = np.argwhere(weights > WEIGHT_THRESHOLD)[:,0]] and the two
    selections. *)
Definition above_threshold (l : Entry) : Entry :=
  filter (fun p => Qlt_bool WEIGHT_THRESHOLD (snd p)) l.

(** The body of [for bname, vgroup in vertexWeightsDict.items()]. *)
Definition bone_weights_step (wtot : list Q) (boneWeights : dict Entry)
    (kv : string * list (nat * Q)) : dict Entry :=
  match snd kv with
  | [] => boneWeights
  | vgroup =>
      dict_set boneWeights (fst kv)
        (above_threshold (argsort_entry (normalize_group wtot vgroup)))
  end.

Definition bone_weights_loop (wtot : list Q) (d : Raw) : dict Entry :=
  fold_left (bone_weights_step wtot) d [].

(** [np.argwhere(wtot == 0)[:,0]] *)
Definition zero_total_indices (wtot : list Q) : list nat :=
  filter (fun i => Qeq_bool (nth i wtot 0) 0) (seq 0 (length wtot)).

Definition assign_root (boneWeights : dict Entry) (wtot : list Q)
    (rootBone : string) : dict Entry :=
  let vs_ws := match dict_get boneWeights rootBone with
               | None => []
               | Some e => e
               end in
  let rw_i := zero_total_indices wtot in
  let vs_ws := vs_ws ++ map (fun i => (i, 1)) rw_i in
  match vs_ws with
  | [] => boneWeights
  | _ => dict_set boneWeights rootBone vs_ws
  end.

(** [VertexBoneWeights._build_vertex_weights_data] on the raw format (the
    early return is for a dict already holding tuples, which a parsed
    weights file never does). *)
Definition build_vertex_weights_data (vertexWeightsDict : Raw)
    (vertexCount : option nat) (rootBone : string) : result (dict Entry) :=
  let vcount := vertex_count vertexWeightsDict vertexCount in
  wtot <- add_at (repeat 0 vcount) (concat (map snd vertexWeightsDict)) ;;
  Ok (assign_root (bone_weights_loop wtot vertexWeightsDict) wtot rootBone).

(** The weight an entry gives a vertex (all its occurrences). *)
Definition weight_at (e : Entry) (v : nat) : Q :=
  fold_right (fun p acc => if (fst p =? v)%nat then snd p + acc else acc) 0 e.

(** The weights of a vertex summed across all bones of a table. *)
Definition total_at (d : dict Entry) (v : nat) : Q :=
  fold_right (fun kv acc => weight_at (snd kv) v + acc) 0 d.

(** The normalised share of a raw group in a vertex. *)
Definition share (d : Raw) (vgroup : list (nat * Q)) (v : nat) : Q :=
  weight_at vgroup v / total_at d v.

(** What the threshold filter leaves of a share. *)
Definition keep (x : Q) : Q := if Qlt_bool WEIGHT_THRESHOLD x then x else 0.

(** The shares of a vertex that survive the filter, summed over the bones. *)
Definition kept_total (d : Raw) (v : nat) : Q :=
  fold_right (fun kv acc => keep (share d (snd kv) v) + acc) 0 d.

Definition raw_nonneg (d : Raw) : Prop :=
  forall k g vn w, In (k, g) d -> In (vn, w) g -> 0 <= w.

(** The vertex occurs in the entry with the given weight. *)
Definition entry_has (e : Entry) (v : nat) (w : Q) : Prop :=
  exists w', In (v, w') e /\ w' == w.

(** *** Skeleton._retarget_weights *)

Definition effective_refs (b : Bone) : list string :=
  match weight_reference_bones b with
  | Some (r :: rs) => r :: rs
  | _ => reference_bones b
  end.

(** [if v not in combined: combined[v] = 0.0] then [combined[v] += w] *)
Fixpoint combined_add (combined : Entry) (v : nat) (w : Q) : Entry :=
  match combined with
  | [] => [(v, 0 + w)]
  | (v', x) :: rest =>
      if (v' =? v)%nat then (v', x + w) :: rest
      else (v', x) :: combined_add rest v w
  end.

Definition add_entry (combined : Entry) (e : Entry) : Entry :=
  fold_left (fun c p => combined_add c (fst p) (snd p)) e combined.

Definition collect_refs (data : dict Entry) (refs : list string) : Entry :=
  fold_left
    (fun combined ref_name =>
       match dict_get data ref_name with
       | Some e => add_entry combined e
       | None => combined
       end)
    refs [].

Definition retarget_bone (data : dict Entry) (st : dict Entry * bool)
    (bone : Bone) : dict Entry * bool :=
  match effective_refs bone with
  | _ :: _ =>
      let combined_verts := collect_refs data (effective_refs bone) in
      (match combined_verts with
       | [] => fst st
       | _ => dict_set (fst st) (name bone) (argsort_entry combined_verts)
       end, true)
  | [] =>
      match dict_get data (name bone) with
      | Some e => (dict_set (fst st) (name bone) e, snd st)
      | None => st
      end
  end.

Definition extra_mapping : list (string * list string) :=
  [ ("clavicle_l", ["scapula.L"; "trapezius.L"]);
    ("clavicle_r", ["scapula.R"; "trapezius.R"]);
    ("upperarm_l", ["deltoid.L"]);
    ("upperarm_r", ["deltoid.R"]);
    ("spine_03", ["latissimus.L"; "latissimus.R"; "pectoralis.L"; "pectoralis.R"]);
    ("pelvis", ["gluteus.L"; "gluteus.R"]);
    ("head", ["jaw"; "eye.L"; "eye.R";
              "tongue01"; "tongue02"; "tongue03"; "tongue04";
              "upperlid.L"; "upperlid.R"; "lowerlid.L"; "lowerlid.R"]) ]%string.

(** [combined[v] = w] *)
Fixpoint entry_set (combined : Entry) (v : nat) (w : Q) : Entry :=
  match combined with
  | [] => [(v, w)]
  | (v', x) :: rest =>
      if (v' =? v)%nat then (v', w) :: rest else (v', x) :: entry_set rest v w
  end.

(** [dict(zip(t_vs, t_ws))] *)
Definition dict_of_entry (e : Entry) : Entry :=
  fold_left (fun c p => entry_set c (fst p) (snd p)) e [].

Definition cleanup_step (data : dict Entry) (new_weights_data : dict Entry)
    (tm : string * list string) : dict Entry :=
  if dict_mem data (fst tm) then
    let combined := dict_of_entry (dict_get_default new_weights_data (fst tm) []) in
    let r :=
      fold_left
        (fun ca src =>
           match dict_get data src with
           | Some e => (add_entry (fst ca) e, true)
           | None => ca
           end)
        (snd tm) (combined, false) in
    if snd r then dict_set new_weights_data (fst tm) (argsort_entry (fst r))
    else new_weights_data
  else new_weights_data.

(** [Skeleton._retarget_weights]: the table [vertexWeights.data] afterwards. *)
Definition retarget_weights (boneslist : list Bone) (data : dict Entry)
  : dict Entry :=
  let st := fold_left (retarget_bone data) boneslist ([], false) in
  if snd st then fold_left (cleanup_step data) extra_mapping (fst st)
  else data.

(** The bone is a key of the supplementary table, is present in the source
    weights, and one of its helper bones is present too: the clean-up pass
    merges helper weights into it. *)
Definition absorbs_helpers (data : dict Entry) (n : string) : bool :=
  dict_mem data n &&
  existsb (fun tm => String.eqb (fst tm) n && existsb (dict_mem data) (snd tm))
    extra_mapping.

(** The helper bones that the supplementary table lists under a bone. *)
Definition helpers (n : string) : list string :=
  match find (fun tm : string * list string => String.eqb (fst tm) n)
          extra_mapping with
  | Some tm => snd tm
  | None => []
  end.

(** Sum over the referenced bones of their source weight at a vertex. *)
Definition refs_weight (data : dict Entry) (refs : list string) (v : nat) : Q :=
  fold_right
    (fun r acc => weight_at (dict_get_default data r []) v + acc) 0 refs.

Definition ascending (e : Entry) : Prop :=
  StronglySorted (fun p q => (fst p < fst q)%nat) e.

End Weights.

(** ** Linear blend skinning *)

Module Skin.
Import Weights.

(** [{b.name: b.matPoseVerts for b in skel.getBones()}] *)
Definition bone_matrices (bones : list Bone) : dict M44 :=
  fold_left (fun d b => dict_set d (name b) (matPoseVerts b)) bones [].

(** [verts_hom[indices]] *)
Definition gather (verts : list V3) (indices : list nat) : result (list V3) :=
  for_each
    (fun acc i =>
       match nth_error verts i with
       | Some v => Ok (acc ++ [v])
       | None => Raise IndexError
       end)
    indices [].

(** The rows [vs_trans[:, :3] * w_col], paired with their indices. *)
Definition weighted_rows (mat : M44) (vs : list V3) (e : Entry) : list (nat * V3) :=
  map (fun vp => (fst (snd vp), vscale (snd (snd vp)) (transform_point mat (fst vp))))
    (combine vs e).

(** __init__.py, the body of [for b_name, (indices, w_vals) in weights_data.items()]. *)
Definition lbs_step (bm : dict M44) (verts : list V3)
    (st : list V3 * list Q) (kv : string * Entry) : result (list V3 * list Q) :=
  match dict_get bm (fst kv) with
  | None => Ok st
  | Some mat =>
      vs <- gather verts (map fst (snd kv)) ;;
      deformed <- fancy_iadd (fst st) (weighted_rows mat vs (snd kv)) ;;
      total <- add_at (snd st) (snd kv) ;;
      Ok (deformed, total)
  end.

Definition lbs_accumulate (bones : list Bone) (weights_data : dict Entry)
    (new_verts : list V3) : result (list V3 * list Q) :=
  for_each (lbs_step (bone_matrices bones) new_verts) weights_data
    (map (fun _ => vzero) new_verts, map (fun _ => 0) new_verts).

(** [unskinned = (total_weight < 0.01).flatten();
     deformed_verts[unskinned] = new_verts[unskinned]] *)
Definition unskinned_fallback (deformed : list V3) (total_weight : list Q)
    (new_verts : list V3) : list V3 :=
  map (fun j => if Qlt_bool (nth j total_weight 0) 0.01
                then nth j new_verts vzero
                else nth j deformed vzero)
    (seq 0 (length deformed)).

(** __init__.py, "Shared Skinning Logic": the value of [new_verts]
    afterwards.  Any exception is caught and leaves [new_verts] as it was. *)
Definition skin_preview (bones : list Bone) (weights_data : dict Entry)
    (new_verts : list V3) : list V3 :=
  match lbs_accumulate bones weights_data new_verts with
  | Ok (deformed, total_weight) =>
      unskinned_fallback deformed total_weight new_verts
  | Raise _ => new_verts
  end.

(** pose_studio.py, [PoseStudio._apply_pose] step 6: [skinned_verts] after
    the loop over [skel.vertexWeights.data]. *)
Definition pose_studio_step (bones : list Bone) (verts : list V3)
    (skinned_verts : list V3) (kv : string * Entry) : result (list V3) :=
  match getBone bones (fst kv) with
  | None => Ok skinned_verts
  | Some i =>
      match nth_error bones i, snd kv with
      | None, _ => Ok skinned_verts
      | _, [] => Ok skinned_verts
      | Some bone, _ =>
          v_subset <- gather verts (map fst (snd kv)) ;;
          fancy_iadd skinned_verts
            (weighted_rows (matPoseVerts bone) v_subset (snd kv))
      end
  end.

Definition skin_pose_studio (bones : list Bone)
    (vertexWeights : option (dict Entry)) (verts : list V3) : result (list V3) :=
  match vertexWeights with
  | Some data =>
      for_each (pose_studio_step bones verts) data (map (fun _ => vzero) verts)
  | None => Ok verts
  end.

(** The weights of a vertex summed over the table's bones that the
    skeleton has: what the skinning loop can accumulate. *)
Definition skinned_weight (bones : list Bone) (weights_data : dict Entry)
    (v : nat) : Q :=
  fold_right
    (fun kv acc =>
       if dict_mem (bone_matrices bones) (fst kv)
       then weight_at (snd kv) v + acc else acc)
    0 weights_data.

(** The accumulators after some bones: the lengths are those of the mesh;
    [deformed[j]] is the total weight times the rest position (all skinning
    matrices being the identity) and [total_weight[j]] is [W j]. *)
Definition accumulated (verts : list V3) (W : nat -> Q) (st : list V3 * list Q)
  : Prop :=
  length (fst st) = length verts /\ length (snd st) = length verts /\
  forall j, (j < length verts)%nat ->
    veq (nth j (fst st) vzero) (vscale (nth j (snd st) 0) (nth j verts vzero)) /\
    nth j (snd st) 0 == W j.

End Skin.

(** ** pose_transfer.py: PoseTransfer.apply_pose *)

Module PoseTransfer.

Definition CHAINS : list (string * string * string) :=
  [ ("upperarm_l", "r_shoulder", "r_elbow");
    ("lowerarm_l", "r_elbow", "r_wrist");
    ("upperarm_r", "l_shoulder", "l_elbow");
    ("lowerarm_r", "l_elbow", "l_wrist");
    ("thigh_l", "r_hip", "r_knee");
    ("calf_l", "r_knee", "r_ankle");
    ("thigh_r", "l_hip", "l_knee");
    ("calf_r", "l_knee", "l_ankle") ]%string.

Definition dot3 (a b : V3) : Q := vx a * vx b + vy a * vy b + vz a * vz b.

Definition cross (a b : V3) : V3 :=
  mkV3 (vy a * vz b - vz a * vy b)
       (vz a * vx b - vx a * vz b)
       (vx a * vy b - vy a * vx b).

(** [np.dot(m, [x, y, z, 0])] flattened, first three entries. *)
Definition transform_dir (m : M44) (d : V3) : V3 :=
  let r := mvec m (mkV4 (vx d) (vy d) (vz d) 0) in
  mkV3 (c0 r) (c1 r) (c2 r).

Section ApplyPose.

(** Functions of [CharacterData/matrix.py] and of numpy that the module
    calls: [matrix.normalize], [matrix.rotx] and [matrix.rotate] (angles in
    degrees), [np.arccos], [np.degrees]. *)
Variable normalize : V3 -> V3.
Variable rotx : Q -> M44.
Variable rotate : Q -> V3 -> M44.
Variable arccos : Q -> Q.
Variable degrees : Q -> Q.

(** Step 0: [bone.matPose = identity; bone.update()] for every bone. *)
Definition reset_bone (s : list Bone) (i : nat) : result (list Bone) :=
  match nth_error s i with
  | Some bone => update (list_set s i (set_matPose bone identity4)) i
  | None => Ok s
  end.

Definition reset_pose (s : list Bone) : result (list Bone) :=
  for_each reset_bone (seq 0 (length s)) s.

(** Step 2, the body of [for bone_name, op_start, op_end in self.CHAINS]. *)
Definition align_bone (op_dict : dict V3) (s : list Bone)
    (chain : string * string * string) : result (list Bone) :=
  let '(bone_name, op_start, op_end) := chain in
  match dict_get op_dict op_start, dict_get op_dict op_end with
  | Some p_start, Some p_end =>
      match getBone s bone_name with
      | None => Ok s
      | Some i =>
          match nth_error s i with
          | None => Ok s
          | Some bone =>
              let v := vsub p_end p_start in
              let v_target_user := mkV3 (vx v) (- vy v) (vz v) in
              let target_dir := normalize v_target_user in
              let parent_mat :=
                match parent_bone s bone with
                | Some pb => matPoseGlobal pb
                | None => identity4
                end in
              let pre_pose_mat := mmul parent_mat (matRestRelative bone) in
              let rest_dir_global :=
                normalize (vsub (tailPos bone) (headPos bone)) in
              inv_pre_pose <- la_inv pre_pose_mat ;;
              let local_target := normalize (transform_dir inv_pre_pose target_dir) in
              let local_axis := normalize (transform_dir inv_pre_pose rest_dir_global) in
              let dot := dot3 local_axis local_target in
              let rot_mat :=
                if Qlt_bool 0.999 dot then identity4
                else if Qlt_bool dot (-0.999) then rotx 180
                else rotate (degrees (arccos dot))
                            (normalize (cross local_axis local_target)) in
              let scale_mat := identity4 in
              update (list_set s i (set_matPose bone (mmul rot_mat scale_mat))) i
          end
      end
  | _, _ => Ok s
  end.

(** [apply_pose]; [openpose_data] with each joint's [{x, y, z}] already an
    array (step 1). *)
Definition apply_pose (s : list Bone) (openpose_data : dict V3)
  : result (list Bone) :=
  s1 <- reset_pose s ;;
  for_each (align_bone openpose_data) CHAINS s1.

End ApplyPose.

(** Two skeleton states over the same rest configuration: the same bones,
    names, parents, joint positions and rest matrices; the pose matrices
    are unconstrained. *)
Definition same_rest_bone (a b : Bone) : Prop :=
  name a = name b /\ parent a = parent b /\
  headPos a = headPos b /\ tailPos a = tailPos b /\
  reference_bones a = reference_bones b /\
  weight_reference_bones a = weight_reference_bones b /\
  matRestGlobal a = matRestGlobal b /\ matRestRelative a = matRestRelative b.

Definition same_rest (s1 s2 : list Bone) : Prop := Forall2 same_rest_bone s1 s2.

End PoseTransfer.

(** ** ik_solver.py: the rotation step of the CCD loop (over the reals) *)

Module CCD.
Local Open Scope R_scope.

Record RV4 : Type := mkRV4 { e0 : R; e1 : R; e2 : R; e3 : R }.

Record RM44 : Type := mkRM44 { rw0 : RV4; rw1 : RV4; rw2 : RV4; rw3 : RV4 }.

Definition rdot4 (a b : RV4) : R :=
  e0 a * e0 b + e1 a * e1 b + e2 a * e2 b + e3 a * e3 b.

Definition rcol (j : RV4 -> R) (m : RM44) : RV4 :=
  mkRV4 (j (rw0 m)) (j (rw1 m)) (j (rw2 m)) (j (rw3 m)).

Definition rvrow (v : RV4) (m : RM44) : RV4 :=
  mkRV4 (rdot4 v (rcol e0 m)) (rdot4 v (rcol e1 m)) (rdot4 v (rcol e2 m))
        (rdot4 v (rcol e3 m)).

(** [np.dot(a, b)] *)
Definition rmmul (a b : RM44) : RM44 :=
  mkRM44 (rvrow (rw0 a) b) (rvrow (rw1 a) b) (rvrow (rw2 a) b) (rvrow (rw3 a) b).

(** [la.norm] of the three entries [m[:3, j]]. *)
Definition norm3 (x y z : R) : R := sqrt (x * x + y * y + z * z).

Definition col_norm (j : RV4 -> R) (m : RM44) : R :=
  norm3 (j (rw0 m)) (j (rw1 m)) (j (rw2 m)).

(** [m[:3, 3]], the translation column. *)
Definition translation (m : RM44) : R * R * R :=
  (e3 (rw0 m), e3 (rw1 m), e3 (rw2 m)).

(** [m[:3, 3] = pos] *)
Definition set_translation (m : RM44) (pos : R * R * R) : RM44 :=
  let '(x, y, z) := pos in
  mkRM44 (mkRV4 (e0 (rw0 m)) (e1 (rw0 m)) (e2 (rw0 m)) x)
         (mkRV4 (e0 (rw1 m)) (e1 (rw1 m)) (e2 (rw1 m)) y)
         (mkRV4 (e0 (rw2 m)) (e1 (rw2 m)) (e2 (rw2 m)) z)
         (rw3 m).

(** [m[:3, 0] /= la.norm(m[:3, 0])], and the same for columns 1 and 2. *)
Definition normalize_col0 (m : RM44) : RM44 :=
  let n := col_norm e0 m in
  mkRM44 (mkRV4 (e0 (rw0 m) / n) (e1 (rw0 m)) (e2 (rw0 m)) (e3 (rw0 m)))
         (mkRV4 (e0 (rw1 m) / n) (e1 (rw1 m)) (e2 (rw1 m)) (e3 (rw1 m)))
         (mkRV4 (e0 (rw2 m) / n) (e1 (rw2 m)) (e2 (rw2 m)) (e3 (rw2 m)))
         (rw3 m).

Definition normalize_col1 (m : RM44) : RM44 :=
  let n := col_norm e1 m in
  mkRM44 (mkRV4 (e0 (rw0 m)) (e1 (rw0 m) / n) (e2 (rw0 m)) (e3 (rw0 m)))
         (mkRV4 (e0 (rw1 m)) (e1 (rw1 m) / n) (e2 (rw1 m)) (e3 (rw1 m)))
         (mkRV4 (e0 (rw2 m)) (e1 (rw2 m) / n) (e2 (rw2 m)) (e3 (rw2 m)))
         (rw3 m).

Definition normalize_col2 (m : RM44) : RM44 :=
  let n := col_norm e2 m in
  mkRM44 (mkRV4 (e0 (rw0 m)) (e1 (rw0 m)) (e2 (rw0 m) / n) (e3 (rw0 m)))
         (mkRV4 (e0 (rw1 m)) (e1 (rw1 m)) (e2 (rw1 m) / n) (e3 (rw1 m)))
         (mkRV4 (e0 (rw2 m)) (e1 (rw2 m)) (e2 (rw2 m) / n) (e3 (rw2 m)))
         (rw3 m).

(** Lines 207-224 of [solve_ik]: the new [bone.matPose] from the old one and
    [rot_local = tm.rotation_matrix(angle, local_axis)]. *)
Definition ccd_rotate (matPose rot_local : RM44) : RM44 :=
  let orig_pos := translation matPose in
  let m := rmmul matPose rot_local in
  let m := set_translation m orig_pos in
  let m := normalize_col0 m in
  let m := normalize_col1 m in
  normalize_col2 m.

(** The column [m[:3, j]] is not the zero vector. *)
Definition col_nonzero (j : RV4 -> R) (m : RM44) : Prop :=
  j (rw0 m) <> 0 \/ j (rw1 m) <> 0 \/ j (rw2 m) <> 0.

(** Determinant of the linear part [m[:3, :3]]. *)
Definition det3 (m : RM44) : R :=
  e0 (rw0 m) * (e1 (rw1 m) * e2 (rw2 m) - e2 (rw1 m) * e1 (rw2 m))
  - e1 (rw0 m) * (e0 (rw1 m) * e2 (rw2 m) - e2 (rw1 m) * e0 (rw2 m))
  + e2 (rw0 m) * (e0 (rw1 m) * e1 (rw2 m) - e1 (rw1 m) * e0 (rw2 m)).

(** The last row of a rotation matrix built by [tm.rotation_matrix]
    starts with three zeros. *)
Definition last_row_affine (m : RM44) : Prop :=
  e0 (rw3 m) = 0 /\ e1 (rw3 m) = 0 /\ e2 (rw3 m) = 0.

(** A local pose matrix with translation (1, 2, 3) and a stretched x axis,
    and a quarter turn about z. *)
Definition stretched_pose : RM44 :=
  mkRM44 (mkRV4 2 0 0 1) (mkRV4 0 1 0 2) (mkRV4 0 0 1 3) (mkRV4 0 0 0 1).

Definition quarter_turn : RM44 :=
  mkRM44 (mkRV4 0 (-1) 0 0) (mkRV4 1 0 0 0) (mkRV4 0 0 1 0) (mkRV4 0 0 0 1).

End CCD.

(** ** Floating-point rounding

    numpy keeps the mesh in float32 and Python multiplies the factors in
    float64.  [round_nearest_even p emin] rounds a rational to the nearest
    number of the binary format with [p] significant bits and smallest
    normal exponent [emin], ties to even, as IEEE 754 does: below
    [2^emin] the numbers are the multiples of [2^(emin - p + 1)] (gradual
    underflow).  The format is taken without a largest number: overflow to
    infinity is not modelled, and the statements below say so where it
    matters. *)

(** Round a non-negative rational to the nearest integer, ties to even. *)
Definition rne (m : Q) : Z :=
  let n := Qnum m in
  let d := Z.pos (Qden m) in
  let fl := (n / d)%Z in
  let r := (n mod d)%Z in
  match (2 * r ?= d)%Z with
  | Lt => fl
  | Gt => (fl + 1)%Z
  | Eq => if Z.even fl then fl else (fl + 1)%Z
  end.

(** The exponent [e] with [2^e <= a < 2^(e+1)], for [a > 0]. *)
Definition binade (a : Q) : Z :=
  let e0 := (Z.log2 (Qnum a) - Z.log2 (Z.pos (Qden a)))%Z in
  if Qle_bool (2 ^ e0) a then e0 else (e0 - 1)%Z.

Definition round_nearest_even (p emin : Z) (y : Q) : Q :=
  if Qeq_bool y 0 then 0
  else
    let a := Qabs y in
    let q := 2 ^ (Z.max (binade a) emin - (p - 1)) in
    let r := inject_Z (rne (a / q)) * q in
    if Qlt_bool y 0 then - r else r.

(** binary32 and binary64 *)
Definition round32 : Q -> Q := round_nearest_even 24 (-126).
Definition round64 : Q -> Q := round_nearest_even 53 (-1022).

(** The unit roundoff of binary32, half the spacing of its subnormal
    numbers, and its largest finite number. *)
Definition u32 : Q := 1 # 16777216.
Definition eta32 : Q := 2 ^ (-150).
Definition flt_max32 : Q := 340282346638528859811704183484516925440.

(** ** mh_parser.py: HumanSolver.solve_mesh with its roundings *)

Module MorphR.
Import Morph.

Section Rounded.
(** The roundings of float64 and of float32. *)
Variables rnd64 rnd32 : Q -> Q.

Definition vrnd (v : V3) : V3 := mkV3 (rnd32 (vx v)) (rnd32 (vy v)) (rnd32 (vz v)).

(** The inner loop over the tags: [weight *= val] is a float64 product, and
    the literal [0.001] is the float64 nearest to it. *)
Fixpoint tag_weight (factors : Factors) (tgs : dict tag_value) (weight : Q)
  : option Q :=
  match tgs with
  | [] => Some weight
  | (_, tag_val) :: rest =>
      let val := tag_factor factors tag_val in
      let weight := rnd64 (weight * val) in
      if Qlt_bool weight (rnd64 0.001) then None
      else tag_weight factors rest weight
  end.

(** The index array resolved against the vertex count, paired with the rows
    of [deltas * weight]: a float32 array times a Python float, which
    numpy converts to float32 before it multiplies. *)
Definition resolve (n : nat) (d : list (Z * V3)) (weight : Q)
  : result (list (nat * V3)) :=
  for_each
    (fun acc p =>
       i <- np_index n (fst p) ;;
       Ok (acc ++ [(i, vrnd (vscale (rnd32 weight) (snd p)))]))
    d [].

(** [a[idx] += vals] on a float32 array: the old rows are gathered, the
    sums are rounded and stored one by one, the last store wins. *)
Definition scatter_add (a : list V3) (upd : list (nat * V3)) : list V3 :=
  fold_left
    (fun acc p => list_set acc (fst p) (vrnd (vadd (nth (fst p) a vzero) (snd p))))
    upd a.

Definition fancy_iadd (a : list V3) (upd : list (nat * V3)) : result (list V3) :=
  if in_range (length a) upd then Ok (scatter_add a upd) else Raise IndexError.

(** [new_verts[indices] += deltas * weight] *)
Definition apply_target (new_verts : list V3) (d : list (Z * V3)) (weight : Q)
  : result (list V3) :=
  upd <- resolve (length new_verts) d weight ;;
  fancy_iadd new_verts upd.

(** The body of the loop over [targets]. *)
Definition solve_step (factors : Factors) (new_verts : list V3) (target : Target)
  : result (list V3) :=
  match tag_weight factors (tags target) 1 with
  | Some weight =>
      match data target with
      | Some d => apply_target new_verts d weight
      | None => Ok new_verts
      end
  | None => Ok new_verts
  end.

Definition solve_mesh (base_mesh : list V3) (targets : list Target)
    (factors : Factors) : result (list V3) :=
  for_each (solve_step factors) targets base_mesh.

(** What a target adds to a mesh of [n] vertices: nothing when it is
    skipped or has no data. *)
Definition plan (factors : Factors) (n : nat) (target : Target)
  : result (list (nat * V3)) :=
  match tag_weight factors (tags target) 1 with
  | Some weight =>
      match data target with
      | Some d => resolve n d weight
      | None => Ok []
      end
  | None => Ok []
  end.

(** The rows that the targets add to vertex [j], in the order of the
    targets. *)
Definition moves (factors : Factors) (n : nat) (targets : list Target) (j : nat)
  : list V3 :=
  flat_map
    (fun t => match plan factors n t with
              | Ok upd => match last_upd upd j with
                          | Some d => [d]
                          | None => []
                          end
              | Raise _ => []
              end)
    targets.

End Rounded.
End MorphR.

(** A coordinate of a vertex. *)
Inductive axis : Type := X | Y | Z3.

Definition coord (ax : axis) (v : V3) : Q :=
  match ax with X => vx v | Y => vy v | Z3 => vz v end.

(** [(1 + u)^n] *)
Fixpoint growth (u : Q) (n : nat) : Q :=
  match n with
  | O => 1
  | S m => (1 + u) * growth u m
  end.

(** [(1 + u)^0 + ... + (1 + u)^(n-1)] *)
Fixpoint growth_sum (u : Q) (n : nat) : Q :=
  match n with
  | O => 0
  | S m => growth u m + growth_sum u m
  end.

(** The sum of the absolute values of a coordinate over some rows. *)
Definition abs_sum (ax : axis) (rows : list V3) : Q :=
  fold_right (fun d acc => Qabs (coord ax d) + acc) 0 rows.

(** The exact sum of a coordinate over some rows. *)
Definition coord_sum (ax : axis) (rows : list V3) : Q :=
  fold_right (fun d acc => coord ax d + acc) 0 rows.

(** How far the rounded running sum of [x] and the rows can be from their
    exact sum, and how large it can get, when every addition has a
    relative error of at most [u] or an absolute error of at most [eta]. *)
Definition sum_error (u eta : Q) (ax : axis) (x : Q) (rows : list V3) : Q :=
  (growth u (length rows) - 1) * (Qabs x + abs_sum ax rows)
  + eta * growth_sum u (length rows).

Definition sum_magnitude (u eta : Q) (ax : axis) (x : Q) (rows : list V3) : Q :=
  growth u (length rows) * (Qabs x + abs_sum ax rows)
  + eta * growth_sum u (length rows).

(** ** mh_parser.py: TargetParser *)

Module Parser.
Import Morph.

(** [self.categories], in insertion order. *)
Definition categories : list (string * list string) :=
  [ ("gender", ["male"; "female"]);
    ("age", ["baby"; "child"; "young"; "old"]);
    ("muscle", ["minmuscle"; "averagemuscle"; "maxmuscle"]);
    ("weight", ["minweight"; "averageweight"; "maxweight"]);
    ("height", ["minheight"; "averageheight"; "maxheight"]);
    ("race", ["african"; "asian"; "caucasian"]);
    ("cup", ["mincup"; "averagecup"; "maxcup"]);
    ("firmness", ["minfirmness"; "averagefirmness"; "maxfirmness"]);
    ("universal", ["universal"]);
    ("penis_len", ["penis-length-decr"; "penis-length-incr"]);
    ("penis_circ", ["penis-circ-decr"; "penis-circ-incr"]);
    ("penis_test", ["penis-testicles-decr"; "penis-testicles-incr"]) ]%string.

(** [str.lower] on ASCII letters (other bytes are kept). *)
Definition lower_char (c : ascii) : ascii :=
  let n := nat_of_ascii c in
  if ((65 <=? n) && (n <=? 90))%nat then ascii_of_nat (n + 32) else c.

Fixpoint lower (s : string) : string :=
  match s with
  | EmptyString => EmptyString
  | String c s' => String (lower_char c) (lower s')
  end.

(** [s.replace(old, new)] for a non-empty [old]: occurrences are replaced
    from the left, without overlap; [skip] counts the characters of a
    matched occurrence still to be dropped. *)
Fixpoint replace_from (old new : string) (skip : nat) (s : string) : string :=
  match s with
  | EmptyString => EmptyString
  | String c s' =>
      match skip with
      | S k => replace_from old new k s'
      | O =>
          if String.prefix old s
          then String.append new (replace_from old new (String.length old - 1) s')
          else String c (replace_from old new 0 s')
      end
  end.

Definition replace (old new s : string) : string := replace_from old new 0 s.

(** [s.split(sep)] for a one-character separator. *)
Fixpoint split (sep : ascii) (s : string) : list string :=
  match s with
  | EmptyString => [EmptyString]
  | String c s' =>
      if Ascii.eqb c sep then EmptyString :: split sep s'
      else match split sep s' with
           | p :: ps => String c p :: ps
           | [] => [String c EmptyString]
           end
  end.

(** [x in l] for a list of strings. *)
Definition contains (l : list string) (x : string) : bool :=
  existsb (String.eqb x) l.

(** The body of [for part in parts]: the loop over the categories. *)
Definition match_part (tags : dict tag_value) (part : string) : dict tag_value :=
  fold_left
    (fun tags (cv : string * list string) =>
       if contains (snd cv) part then dict_set tags (fst cv) (TagName part)
       else tags)
    categories tags.

(** [if word in parts:] with its two assignments to [tags[cat]]. *)
Definition composite (parts : list string) (tags : dict tag_value)
    (word cat decr incr : string) : dict tag_value :=
  if contains parts word then
    let tags := if contains parts "decr" then dict_set tags cat (TagName decr)
                else tags in
    if contains parts "incr" then dict_set tags cat (TagName incr) else tags
  else tags.

Definition parse_parts (parts : list string) : dict tag_value :=
  let tags := fold_left match_part parts [] in
  let tags :=
    if contains parts "penis" then
      let tags := composite parts tags "length" "penis_len"
                    "penis-length-decr" "penis-length-incr" in
      let tags := composite parts tags "circ" "penis_circ"
                    "penis-circ-decr" "penis-circ-incr" in
      composite parts tags "testicles" "penis_test"
        "penis-testicles-decr" "penis-testicles-incr"
    else tags in
  if contains parts "universal" then dict_set tags "universal" TagTrue else tags.

(** [TargetParser._parse_filename] *)
Definition parse_filename (filename : string) : dict tag_value :=
  let name := replace ".target" "" (lower filename) in
  let parts := split "-" (replace "_" "-" name) in
  parse_parts parts.

(** All category values. *)
Definition tag_names : list string := concat (map snd categories).

(** Every tag is the flag [True] under [universal] or a category value. *)
Definition tags_known (tags : dict tag_value) : Prop :=
  forall c tv, In (c, tv) tags ->
    match tv with
    | TagTrue => c = "universal"%string
    | TagName s => In s tag_names
    end.

End Parser.

(** ** mh_skeleton.py: the bone ordering of Skeleton.fromFile *)

Module BoneSort.

(** [skelData["bones"]] as far as the sort reads it: bone name to
    [bdef.get("parent", None)], in file order. *)
Definition BoneDefs : Type := dict (option string).

(** The parent a bone definition names; [None] when [not parent] holds
    (the key is absent, null or the empty string). *)
Definition parent_of (input_bones : BoneDefs) (bname : string) : option string :=
  match dict_get input_bones bname with
  | Some (Some p) => if String.eqb p "" then None else Some p
  | _ => None
  end.

(** [x in added] *)
Definition mem (x : string) (l : list string) : bool := existsb (String.eqb x) l.

(** [pending.remove(x)]: the first occurrence goes. *)
Fixpoint remove_first (x : string) (l : list string) : list string :=
  match l with
  | [] => []
  | y :: l' => if String.eqb y x then l' else y :: remove_first x l'
  end.

Record SortState : Type := mkSort {
  breadthfirst_bones : list string;
  added : list string;
  pending : list string;
  progress : bool
}.

(** The body of [for bname in pending[:]]. *)
Definition visit (input_bones : BoneDefs) (st : SortState) (bname : string)
  : SortState :=
  let ready :=
    match parent_of input_bones bname with
    | None => true
    | Some parent => mem parent (added st)
    end in
  if ready
  then mkSort (breadthfirst_bones st ++ [bname]) (bname :: added st)
              (remove_first bname (pending st)) true
  else st.

(** One pass of the [while] loop: [progress = False], then the [for] loop
    over a copy of [pending]. *)
Definition sweep (input_bones : BoneDefs) (st : SortState) : SortState :=
  fold_left (visit input_bones) (pending st)
    (mkSort (breadthfirst_bones st) (added st) (pending st) false).

(** [while pending: ...; if not progress and pending: break], with a bound
    on the number of passes. *)
Fixpoint sort_loop (fuel : nat) (input_bones : BoneDefs) (st : SortState)
  : option SortState :=
  match pending st with
  | [] => Some st
  | _ :: _ =>
      match fuel with
      | O => None
      | S fuel' =>
          let st' := sweep input_bones st in
          if negb (progress st') &&
             match pending st' with [] => false | _ :: _ => true end
          then Some st'
          else sort_loop fuel' input_bones st'
      end
  end.

(** [breadthfirst_bones] after the loop; one pass per bone is enough. *)
Definition breadthfirst (input_bones : BoneDefs) : option (list string) :=
  match sort_loop (length input_bones) input_bones
          (mkSort [] [] (dict_keys input_bones) false) with
  | Some st => Some (breadthfirst_bones st)
  | None => None
  end.

(** In [order], every bone stands after the parent its definition names. *)
Definition parents_before (input_bones : BoneDefs) (order : list string) : Prop :=
  forall i b p,
    nth_error order i = Some b -> parent_of input_bones b = Some p ->
    exists j, (j < i)%nat /\ nth_error order j = Some p.

(** What the loop keeps true. *)
Definition sort_inv (input_bones : BoneDefs) (st : SortState) : Prop :=
  (forall x, In x (added st) <-> In x (breadthfirst_bones st)) /\
  Permutation (breadthfirst_bones st ++ pending st) (dict_keys input_bones) /\
  parents_before input_bones (breadthfirst_bones st).

(** A bone that no pass can move: its parent has not been added. *)
Definition stuck (input_bones : BoneDefs) (st : SortState) (b : string) : Prop :=
  exists p, parent_of input_bones b = Some p /\ ~ In p (added st).

End BoneSort.

(** ** Forward kinematics over the whole skeleton *)

(** The derived matrices of a bone are what [Bone.update] computes from the
    current state of the skeleton: the global pose is the parent's global
    pose times the rest-relative matrix times the local pose, the skinning
    matrix is the global pose times the inverse rest matrix (the identity
    when the rest matrix is singular). *)
Definition fk_consistent_at (s : list Bone) (b : Bone) : Prop :=
  matPoseGlobal b =
    match parent_bone s b with
    | Some pb => mmul (matPoseGlobal pb) (mmul (matRestRelative b) (matPose b))
    | None => mmul (matRestRelative b) (matPose b)
    end /\
  matPoseVerts b =
    match la_inv (matRestGlobal b) with
    | Ok invRest => mmul (matPoseGlobal b) invRest
    | Raise _ => identity4
    end.

Definition fk_consistent (s : list Bone) : Prop :=
  forall i b, nth_error s i = Some b -> fk_consistent_at s b.

(** ** What posing leaves alone *)

(** The fields of a bone that neither [Bone.update] nor an assignment to
    [matPose] writes. *)
Definition rest_fields (b : Bone)
  : string * option nat * V3 * V3 * list string * option (list string) * M44 * M44 :=
  (name b, parent b, headPos b, tailPos b, reference_bones b,
   weight_reference_bones b, matRestGlobal b, matRestRelative b).

(** The bones that [PoseTransfer.CHAINS] names. *)
Definition chain_bones : list string :=
  map (fun c : string * string * string => fst (fst c)) PoseTransfer.CHAINS.

(** ** The linear blend of one vertex *)

(** The sum, over the bones of the weight table that the matrix table
    knows, of the vertex's weight in the bone times the bone's skinning
    matrix applied to the rest position [v]. *)
Definition blend (bm : dict M44) (weights_data : dict Weights.Entry)
    (v : V3) (j : nat) : V3 :=
  fold_right
    (fun (kv : string * Weights.Entry) acc =>
       match dict_get bm (fst kv) with
       | Some mat =>
           vadd (vscale (Weights.weight_at (snd kv) j) (transform_point mat v)) acc
       | None => acc
       end)
    vzero weights_data.

(** ** mh_skeleton.py: the bones that Skeleton.fromFile adds *)

Definition with_name (b : Bone) (n : string) : Bone :=
  mkBone n (parent b) (headPos b) (tailPos b) (reference_bones b)
    (weight_reference_bones b) (matRestGlobal b) (matRestRelative b)
    (matPose b) (matPoseGlobal b) (matPoseVerts b).

(** [for bone_name in breadthfirst_bones: self.addBone(bone_name,
    bone_defs.get("parent", None), ...)].  [Bone.__init__] looks the parent
    up only [if parentName]; [fields] gives the fields of the new bone that
    are read from its definition. *)
Definition add_bones (input_bones : BoneSort.BoneDefs) (fields : string -> Bone)
    (order : list string) (s : list Bone) : list Bone :=
  fold_left
    (fun s bone_name =>
       addBone s (with_name (fields bone_name) bone_name)
         (BoneSort.parent_of input_bones bone_name))
    order s.

(** [boneslist] after the sort and the loop of [addBone] calls. *)
Definition fromFile_bones (input_bones : BoneSort.BoneDefs)
    (fields : string -> Bone) : option (list Bone) :=
  match BoneSort.breadthfirst input_bones with
  | Some order => Some (add_bones input_bones fields order [])
  | None => None
  end.

(** Every bone's parent object is an earlier bone that carries the name
    its definition gives as parent; a bone without one is a root. *)
Definition parent_links (input_bones : BoneSort.BoneDefs) (s : list Bone) : Prop :=
  forall i b, nth_error s i = Some b ->
    match BoneSort.parent_of input_bones (name b) with
    | Some pn =>
        exists p pb, parent b = Some p /\ (p < i)%nat /\
                     nth_error s p = Some pb /\ name pb = pn
    | None => parent b = None
    end.

(** ** ik_solver.py: the bone chain of solve_ik *)

(** [for _ in range(chain_length): chain.append(current);
     if not current.parent: break; current = current.parent],
    the bones being named by their positions in [boneslist]. *)
Fixpoint chain_loop (s : list Bone) (n : nat) (current : nat) (chain : list nat)
  : list nat :=
  match n with
  | O => chain
  | S n' =>
      let chain := chain ++ [current] in
      match nth_error s current with
      | Some b =>
          match parent b with
          | Some p => chain_loop s n' p chain
          | None => chain
          end
      | None => chain
      end
  end.

(** Step 1 of [IKSolver.solve_ik]; [None] where the function returns the
    empty dict for an unknown bone name. *)
Definition build_chain (s : list Bone) (bone_name : string) (chain_length : Z)
  : option (list nat) :=
  match getBone s bone_name with
  | None => None
  | Some current => Some (chain_loop s (Z.to_nat chain_length) current [])
  end.

(** The bone at position [c] has the bone at position [d] as parent. *)
Definition parent_at (s : list Bone) (c d : nat) : Prop :=
  exists b, nth_error s c = Some b /\ parent b = Some d.

(** The bone at position [c] has no parent. *)
Definition root_at (s : list Bone) (c : nat) : Prop :=
  exists b, nth_error s c = Some b /\ parent b = None.

(** ** __init__.py: the faces sent by the preview endpoint *)

Module Faces.

Definition valid_prefixes : list string :=
  [ "body"; "helper-r-eye"; "helper-l-eye"; "helper-upper-teeth";
    "helper-lower-teeth"; "helper-tongue"; "helper-genital" ]%string.

(** The four assignments to [is_valid] for a stripped group name. *)
Definition face_valid (gender : Q) (g_clean : string) : bool :=
  let is_valid := Parser.contains valid_prefixes g_clean in
  let is_valid := if String.prefix "joint-" g_clean then false else is_valid in
  let is_valid :=
    if Parser.contains ["helper-skirt"; "helper-tights"; "helper-hair"]%string g_clean
    then false else is_valid in
  let is_valid :=
    if String.eqb g_clean "helper-genital" && Qlt_bool gender 0.99
    then false else is_valid in
  is_valid.

(** An item of a face: a vertex index, or a list or tuple that starts
    with one. *)
Inductive FaceItem : Type :=
| Int (v : Z)
| Tuple (items : list Z).

Definition Face : Type := list FaceItem.

Section Filter.
(** [str.strip] *)
Variable strip : string -> string.

(** [for i, group in enumerate(base_mesh.face_groups)], under
    [if base_mesh.face_groups]. *)
Definition filter_faces (gender : Q) (face_groups : option (list string))
    (faces : list Face) : result (list Face) :=
  match face_groups with
  | None => Ok []
  | Some groups =>
      for_each
        (fun valid_faces (ig : nat * string) =>
           if face_valid gender (strip (snd ig))
           then match nth_error faces (fst ig) with
                | Some face => Ok (valid_faces ++ [face])
                | None => Raise IndexError
                end
           else Ok valid_faces)
        (combine (seq 0 (length groups)) groups) []
  end.
End Filter.

(** [item[0]] for a list or tuple, the item itself otherwise. *)
Definition vertex_index (item : FaceItem) : result Z :=
  match item with
  | Int v => Ok v
  | Tuple (v :: _) => Ok v
  | Tuple [] => Raise IndexError
  end.

(** [for item in face: v_indices.append(...)] *)
Definition face_indices (face : Face) : result (list Z) :=
  for_each (fun v_indices item => v <- vertex_index item ;; Ok (v_indices ++ [v]))
    face [].

(** What one face adds to [tri_indices]. *)
Definition triangles (v_indices : list Z) : list Z :=
  match v_indices with
  | [a; b; c] => [a; b; c]
  | [a; b; c; d] => [a; b; c; a; c; d]
  | _ => []
  end.

(** [for face in valid_faces] *)
Definition tri_indices (valid_faces : list Face) : result (list Z) :=
  for_each
    (fun tri face => v_indices <- face_indices face ;; Ok (tri ++ triangles v_indices))
    valid_faces [].

(** [tri_indices] of the response, from the mesh's groups and faces. *)
Definition preview_indices (strip : string -> string) (gender : Q)
    (face_groups : option (list string)) (faces : list Face) : result (list Z) :=
  valid_faces <- filter_faces strip gender face_groups faces ;;
  tri_indices valid_faces.

(** The number of faces with [n] items. *)
Definition count_sized (n : nat) (faces : list Face) : nat :=
  length (filter (fun face => Nat.eqb (length face) n) faces).

End Faces.

(** ** Concrete inputs used by the witnesses and counterexamples *)

Module Examples.
Import Morph.

(** A three-vertex mesh. *)
Definition mesh3 : list V3 := [mkV3 0 0 0; mkV3 1 2 3; mkV3 4 5 6].

(** A male target moving vertices 0 and 2, a young universal target moving
    vertex 2 and (by a negative index) the last vertex. *)
Definition target_male : Target :=
  mkTarget [("gender", TagName "male")]%string
           (Some [(0%Z, mkV3 1 0 0); (2%Z, mkV3 0 1 0)]).

Definition target_young : Target :=
  mkTarget [("universal", TagTrue); ("age", TagName "young")]%string
           (Some [(2%Z, mkV3 0 0 1); ((-1)%Z, mkV3 2 0 0)]).

(** The factor table of a nearly female, middle-aged character:
    [male = 0.0005]. *)
Definition factors_faint_male : Factors :=
  calculate_factors 0.5 0.0005 0.5 0.5 0.5 0.5 0.5.

Definition factors_even : Factors :=
  calculate_factors 0.5 0.5 0.5 0.5 0.5 0.5 0.5.

(** Raw weights over four vertices: vertex 1 is shared 0.99995 : 0.00005,
    vertex 2 is shared 3 : 1, vertex 3 is referenced by no bone. *)
Definition raw_weights : Weights.Raw :=
  [ ("root", [(0%nat, 1)]);
    ("arm", [(1%nat, 0.99995); (2%nat, 3)]);
    ("hand", [(1%nat, 0.00005); (2%nat, 1)]) ]%string.

(** A bone that only declares its name and references (pose data at rest). *)
Definition bone_decl (n : string) (p : option nat) (refs : list string)
    (wrefs : option (list string)) : Bone :=
  mkBone n p vzero vzero refs wrefs identity4 identity4 identity4 identity4
    identity4.

(** A two-bone rig mapped onto richer source weights: [head] refers to the
    source bone of the same name, [neck_01] to two source bones. *)
Definition bone_neck : Bone :=
  bone_decl "neck_01" (Some 0%nat) ["neck01"; "neck02"]%string None.

Definition bone_head : Bone :=
  bone_decl "head" (Some 1%nat) ["head"]%string None.

Definition bone_spine : Bone := bone_decl "spine_01" None [] None.

Definition rig : list Bone := [bone_spine; bone_neck; bone_head].

Definition source_weights : dict Weights.Entry :=
  [ ("neck01", [(2%nat, 0.5); (0%nat, 0.25)]);
    ("neck02", [(0%nat, 0.25); (1%nat, 1)]);
    ("head", [(2%nat, 0.25)]);
    ("jaw", [(2%nat, 0.25); (3%nat, 1)]);
    ("spine_01", [(4%nat, 1)]) ]%string.

(** A root bone lifted by one unit and a child whose rest matrix is
    singular (a collapsed axis). *)
Definition translate4 (x y z : Q) : M44 :=
  mkM44 (mkV4 1 0 0 x) (mkV4 0 1 0 y) (mkV4 0 0 1 z) (mkV4 0 0 0 1).

Definition flat4 : M44 :=
  mkM44 (mkV4 1 0 0 0) (mkV4 0 0 0 0) (mkV4 0 0 1 0) (mkV4 0 0 0 1).

Definition bone_root : Bone :=
  mkBone "root" None vzero (mkV3 0 1 0) [] None
    (translate4 0 1 0) (translate4 0 1 0) (translate4 2 0 0) identity4 identity4.

Definition bone_flat : Bone :=
  mkBone "flat" (Some 0%nat) (mkV3 0 1 0) (mkV3 0 1 0) [] None
    flat4 flat4 identity4 identity4 identity4.

Definition posed_rig : list Bone := [bone_root; bone_flat].

(** A mesh skinned by the two bones of [posed_rig] and by a bone [jaw]
    that the skeleton does not have; vertex 1 is weighted to [jaw] alone. *)
Definition skin_weights : dict Weights.Entry :=
  [ ("root", [(0%nat, 0.75); (2%nat, 1)]);
    ("flat", [(0%nat, 0.25)]);
    ("jaw", [(1%nat, 1)]) ]%string.

(** [posed_rig] with every local pose matrix reset to the identity and the
    rest-relative matrices as [build] computes them. *)
Definition rest_rig : list Bone :=
  [ mkBone "root" None vzero (mkV3 0 1 0) [] None
      (translate4 0 1 0) (translate4 0 1 0) identity4 identity4 identity4;
    mkBone "flat" (Some 0%nat) (mkV3 0 1 0) (mkV3 0 1 0) [] None
      flat4 (mmul (translate4 0 (-1) 0) flat4) identity4 identity4 identity4 ].

(** Two states of one arm: same bones and rest matrices, different pose
    matrices left by earlier calls. *)
Definition arm_bone (n : string) (p : option nat) (head tail : V3)
    (rest rel pose g pv : M44) : Bone :=
  mkBone n p head tail [] None rest rel pose g pv.

Definition arm_a : list Bone :=
  [ arm_bone "clavicle_l" None vzero (mkV3 1 0 0)
      identity4 identity4 identity4 identity4 identity4;
    arm_bone "upperarm_l" (Some 0%nat) (mkV3 1 0 0) (mkV3 3 0 0)
      (translate4 1 0 0) (translate4 1 0 0) identity4 (translate4 1 0 0) identity4;
    arm_bone "lowerarm_l" (Some 1%nat) (mkV3 3 0 0) (mkV3 5 0 0)
      (translate4 3 0 0) (translate4 2 0 0) identity4 (translate4 3 0 0) identity4 ].

Definition arm_b : list Bone :=
  [ arm_bone "clavicle_l" None vzero (mkV3 1 0 0)
      identity4 identity4 (translate4 0 7 0) (translate4 0 7 0) (translate4 0 7 0);
    arm_bone "upperarm_l" (Some 0%nat) (mkV3 1 0 0) (mkV3 3 0 0)
      (translate4 1 0 0) (translate4 1 0 0) flat4 flat4 (translate4 5 5 5);
    arm_bone "lowerarm_l" (Some 1%nat) (mkV3 3 0 0) (mkV3 5 0 0)
      (translate4 3 0 0) (translate4 2 0 0) (translate4 0 0 9) flat4 flat4 ].

Definition landmarks : dict V3 :=
  [ ("r_shoulder", mkV3 0 0 0); ("r_elbow", mkV3 0 2 0);
    ("r_wrist", mkV3 2 2 0) ]%string.

(** Stand-ins with rational values for the functions of [matrix.py] and
    numpy that [apply_pose] calls: vectors are left unnormalised, half
    turns and quarter turns about z replace the general rotations. *)
Definition half_turn_x (angle : Q) : M44 :=
  mkM44 (mkV4 1 0 0 0) (mkV4 0 (-1) 0 0) (mkV4 0 0 (-1) 0) (mkV4 0 0 0 1).

Definition quarter_turn_z (angle : Q) (axis : V3) : M44 :=
  mkM44 (mkV4 0 (-1) 0 0) (mkV4 1 0 0 0) (mkV4 0 0 1 0) (mkV4 0 0 0 1).

Definition keep_vector (v : V3) : V3 := v.

Definition keep_angle (x : Q) : Q := x.

(** A skeleton grown by [addBone] and the frames a mesh gives its bones. *)
Definition grown_rig : list Bone :=
  addBone (addBone [] bone_root None) bone_flat (Some "root"%string).

Definition grown_frames (i : nat) : V3 * V3 * M44 :=
  match i with
  | O => (vzero, mkV3 0 1 0, translate4 0 1 0)
  | _ => (mkV3 0 1 0, mkV3 0 3 0, translate4 0 3 0)
  end.

(** A target tagged [old] whose only index lies outside [mesh3], and a
    target of the extreme firmness. *)
Definition target_old : Target :=
  mkTarget [("age", TagName "old")]%string (Some [(7%Z, mkV3 1 1 1)]).

Definition target_firm : Target :=
  mkTarget [("cup", TagName "maxcup"); ("firmness", TagName "maxfirmness")]%string
           (Some [(1%Z, mkV3 0 0 1)]).

(** A target file name with mixed case and an underscore. *)
Definition file_universal_male_young : string := "Universal-male_young.target".

(** Bone definitions listed children first, and the same with a cycle. *)
Definition arm_defs : BoneSort.BoneDefs :=
  [ ("hand", Some "arm"); ("arm", Some "root"); ("root", None) ]%string.

Definition loop_defs : BoneSort.BoneDefs :=
  [ ("a", Some "b"); ("b", Some "a"); ("root", Some "") ]%string.

(** A triangle, a quad given with texture and normal indices, a pentagon
    and their group names as read from an OBJ file. *)
Definition mesh_faces : list Faces.Face :=
  [ [Faces.Int 0; Faces.Int 1; Faces.Int 2];
    [Faces.Tuple [3; 9; 9]; Faces.Tuple [4; 9; 9]; Faces.Tuple [5; 9; 9];
     Faces.Tuple [6; 9; 9]];
    [Faces.Int 0; Faces.Int 1; Faces.Int 2; Faces.Int 3; Faces.Int 4];
    [Faces.Int 7; Faces.Int 8; Faces.Int 9] ]%Z.

Definition mesh_groups : list string :=
  [ "body"; "helper-genital"; "body"; "joint-head" ]%string.

(** Weights for the arm of [arm_a]: vertex 0 is shared by its three bones,
    vertex 2 is held half by a bone [jaw] that the arm does not have. *)
Definition arm_weights : dict Weights.Entry :=
  [ ("clavicle_l", [(0%nat, 0.5); (2%nat, 0.5)]);
    ("upperarm_l", [(0%nat, 0.25)]);
    ("lowerarm_l", [(0%nat, 0.25); (1%nat, 1)]);
    ("jaw", [(2%nat, 0.5)]) ]%string.

(** A root bone at rest whose rest matrix is exactly singular (its first
    row minus twice the second plus the third is zero) without a zero row
    or column. *)
Definition singular_rest : M44 :=
  mkM44 (mkV4 1 2 3 0) (mkV4 4 5 6 0) (mkV4 7 8 9 0) (mkV4 0 0 0 1).

Definition bone_singular : Bone :=
  mkBone "root" None vzero (mkV3 0 1 0) [] None
    singular_rest singular_rest identity4 identity4 identity4.

(** A one-vertex mesh at x = 16, a target that nudges it by 2^-20 and one
    that drops it by 8.5; all these numbers are float32 values. *)
Definition mesh_far : list V3 := [mkV3 16 0 0].

Definition factors_universal : Morph.Factors := [("universal"%string, 1)].

Definition target_nudge : Morph.Target :=
  Morph.mkTarget [("universal"%string, Morph.TagTrue)]
    (Some [(0%Z, mkV3 (1 # 1048576) 0 0)]).

Definition target_drop : Morph.Target :=
  Morph.mkTarget [("universal"%string, Morph.TagTrue)]
    (Some [(0%Z, mkV3 (- (17 # 2)) 0 0)]).

End Examples.

(* ================================================================== *)
(** * Properties *)

(** ** Scalars *)

Lemma Qlt_bool_iff a b : Qlt_bool a b = true <-> a < b.
Proof.
  unfold Qlt_bool. rewrite negb_true_iff. split; intro H.
  - apply Qnot_le_lt. intro Hle. apply Qle_bool_iff in Hle. congruence.
  - destruct (Qle_bool b a) eqn:E; auto. apply Qle_bool_iff in E.
    exfalso. apply (Qlt_not_le _ _ H E).
Qed.

Lemma Qlt_bool_false a b : Qlt_bool a b = false <-> b <= a.
Proof.
  unfold Qlt_bool. rewrite negb_false_iff. apply Qle_bool_iff.
Qed.

#[global] Instance Qlt_bool_proper : Proper (Qeq ==> Qeq ==> eq) Qlt_bool.
Proof.
  intros a a' Ha b b' Hb.
  destruct (Qlt_bool a b) eqn:E1, (Qlt_bool a' b') eqn:E2; auto.
  - apply Qlt_bool_iff in E1. apply Qlt_bool_false in E2. lra.
  - apply Qlt_bool_iff in E2. apply Qlt_bool_false in E1. lra.
Qed.

Lemma pymax_cases a b : (a < b /\ pymax a b = b) \/ (b <= a /\ pymax a b = a).
Proof.
  unfold pymax. destruct (Qlt_bool a b) eqn:E.
  - left. split; auto. now apply Qlt_bool_iff.
  - right. split; auto. now apply Qlt_bool_false.
Qed.

Lemma pymin_cases a b : (b < a /\ pymin a b = b) \/ (a <= b /\ pymin a b = a).
Proof.
  unfold pymin. destruct (Qlt_bool b a) eqn:E.
  - left. split; auto. now apply Qlt_bool_iff.
  - right. split; auto. now apply Qlt_bool_false.
Qed.

(** Case split on every [pymax]/[pymin] of the goal, then linear arithmetic. *)
Ltac py_cases :=
  repeat match goal with
         | |- context [pymax ?a ?b] =>
             let H := fresh "H" in
             let E := fresh "E" in
             destruct (pymax_cases a b) as [[H E]|[H E]]; rewrite E in *; clear E
         | |- context [pymin ?a ?b] =>
             let H := fresh "H" in
             let E := fresh "E" in
             destruct (pymin_cases a b) as [[H E]|[H E]]; rewrite E in *; clear E
         | H0 : context [pymin ?a ?b] |- _ =>
             let H := fresh "H" in
             let E := fresh "E" in
             destruct (pymin_cases a b) as [[H E]|[H E]]; rewrite E in *; clear E
         | H0 : context [pymax ?a ?b] |- _ =>
             let H := fresh "H" in
             let E := fresh "E" in
             destruct (pymax_cases a b) as [[H E]|[H E]]; rewrite E in *; clear E
         end.

(** ** Shape factors *)

Section FactorSums.
Import Morph.

Lemma age_buckets_low age :
  0 <= age -> age < 0.5 ->
  pymax 0 (1 - age * 5.333)
  + pymax 0 (pymin 1 (5.333 * age) - pymax 0 ((age - 0.1875) * 3.2))
  + pymax 0 ((age - 0.1875) * 3.2) + 0 == 1.
Proof.
  intros H0 H1. py_cases; lra.
Qed.

Lemma age_buckets_high age :
  0 + 0 + (1 - pymax 0 (age * 2 - 1)) + pymax 0 (age * 2 - 1) == 1.
Proof. ring. Qed.

(** C1.  For sliders in [0,1] the factor table of [calculate_factors] has
    every bipolar triple (muscle, weight, height, cup) summing to 1,
    [male + female = 1], and [baby + child + young + old = 1] (hence within
    1e-6 of 1) over the whole age domain. *)
Theorem calculate_factors_partition
    (age gender weight muscle height breast_size genital_size : Q) :
  0 <= age <= 1 -> 0 <= gender <= 1 -> 0 <= weight <= 1 ->
  0 <= muscle <= 1 -> 0 <= height <= 1 -> 0 <= breast_size <= 1 ->
  0 <= genital_size <= 1 ->
  let f := calculate_factors age gender weight muscle height breast_size
             genital_size in
  factor f "maxmuscle" + factor f "minmuscle" + factor f "averagemuscle" == 1 /\
  factor f "maxweight" + factor f "minweight" + factor f "averageweight" == 1 /\
  factor f "maxheight" + factor f "minheight" + factor f "averageheight" == 1 /\
  factor f "maxcup" + factor f "mincup" + factor f "averagecup" == 1 /\
  factor f "male" + factor f "female" == 1 /\
  factor f "baby" + factor f "child" + factor f "young" + factor f "old" == 1 /\
  Qabs (factor f "baby" + factor f "child" + factor f "young" + factor f "old" - 1)
    <= 0.000001.
Proof.
  intros Hage _ _ _ _ _ _ f.
  assert (Ef : f = calculate_factors age gender weight muscle height breast_size
                     genital_size) by reflexivity.
  clearbody f. unfold calculate_factors in Ef.
  pose proof (Qlt_bool_iff age 0.5) as Hlow. revert Hlow Ef.
  case (Qlt_bool age 0.5); intros Hlow Ef;
    lazy [factor dict_set dict_get dict_get_default String.eqb Ascii.eqb Bool.eqb]
      in Ef;
    subst f;
    cbv [factor dict_get dict_get_default String.eqb Ascii.eqb Bool.eqb].
  - pose proof (age_buckets_low age (proj1 Hage) (proj1 Hlow eq_refl)) as Hsum.
    repeat split; try ring; try exact Hsum.
    rewrite Hsum. discriminate.
  - pose proof (age_buckets_high age) as Hsum.
    repeat split; try ring; try exact Hsum.
    rewrite Hsum. discriminate.
Qed.

Lemma calculate_factors_partition_witness :
  let f := calculate_factors 0.25 0.5 0.75 0.1 1 0 0.5 in
  factor f "maxmuscle" + factor f "minmuscle" + factor f "averagemuscle" == 1 /\
  factor f "maxweight" + factor f "minweight" + factor f "averageweight" == 1 /\
  factor f "maxheight" + factor f "minheight" + factor f "averageheight" == 1 /\
  factor f "maxcup" + factor f "mincup" + factor f "averagecup" == 1 /\
  factor f "male" + factor f "female" == 1 /\
  factor f "baby" + factor f "child" + factor f "young" + factor f "old" == 1 /\
  Qabs (factor f "baby" + factor f "child" + factor f "young" + factor f "old" - 1)
    <= 0.000001.
Proof.
  apply (calculate_factors_partition 0.25 0.5 0.75 0.1 1 0 0.5);
    split; vm_compute; discriminate.
Defined.

End FactorSums.

(** ** Lists, arrays and the exception monad *)

Section ListFacts.
Context {A : Type}.

Lemma list_set_length (l : list A) i v : length (list_set l i v) = length l.
Proof.
  revert i. induction l as [|h t IH]; intros [|i]; simpl; auto.
Qed.

Lemma nth_list_set (l : list A) i v j d :
  (i < length l)%nat ->
  nth j (list_set l i v) d = if (i =? j)%nat then v else nth j l d.
Proof.
  revert i j. induction l as [|h t IH]; intros i j Hi; simpl in Hi; [lia|].
  destruct i as [|i], j as [|j]; simpl; auto.
  apply IH. lia.
Qed.

Lemma nth_list_set_eq (l : list A) i v d :
  (i < length l)%nat -> nth i (list_set l i v) d = v.
Proof.
  intro H. rewrite nth_list_set by assumption. now rewrite Nat.eqb_refl.
Qed.

Lemma nth_list_set_neq (l : list A) i v j d :
  i <> j -> nth j (list_set l i v) d = nth j l d.
Proof.
  revert i j. induction l as [|h t IH]; intros i j Hne; simpl.
  - destruct i; reflexivity.
  - destruct i as [|i], j as [|j]; simpl; auto; try congruence.
Qed.

Lemma list_set_out_of_range (l : list A) i v :
  (length l <= i)%nat -> list_set l i v = l.
Proof.
  revert i. induction l as [|h t IH]; intros i Hi; simpl in *.
  - destruct i; reflexivity.
  - destruct i as [|i]; [lia|]. f_equal. apply IH. lia.
Qed.

End ListFacts.

Lemma bind_ok {A B : Type} (r : result A) (k : A -> result B) b :
  bind r k = Ok b -> exists a, r = Ok a /\ k a = Ok b.
Proof.
  destruct r as [a|e]; simpl; intro H; [eauto | discriminate].
Qed.

Lemma for_each_app {A S : Type} (f : S -> A -> result S) l1 l2 s :
  for_each f (l1 ++ l2) s = (s' <- for_each f l1 s ;; for_each f l2 s').
Proof.
  revert s. induction l1 as [|a l1 IH]; intro s; simpl; auto.
  destruct (f s a); simpl; auto.
Qed.

Lemma for_each_ext {A S : Type} (f g : S -> A -> result S) l s :
  (forall s' a, f s' a = g s' a) -> for_each f l s = for_each g l s.
Proof.
  intro H. revert s. induction l as [|a l IH]; intro s; simpl; auto.
  rewrite H. destruct (g s a); simpl; auto.
Qed.

(** Vertex equality is an equivalence compatible with the operations. *)

Lemma veq_refl a : veq a a.
Proof. repeat split; reflexivity. Qed.

Lemma veq_sym a b : veq a b -> veq b a.
Proof. intros (H1 & H2 & H3). repeat split; now symmetry. Qed.

Lemma veq_trans a b c : veq a b -> veq b c -> veq a c.
Proof.
  intros (H1 & H2 & H3) (K1 & K2 & K3).
  repeat split; etransitivity; eassumption.
Qed.

#[global] Instance veq_equiv : Equivalence veq.
Proof.
  split; [exact veq_refl | exact veq_sym | exact veq_trans].
Qed.

#[global] Instance vadd_proper : Proper (veq ==> veq ==> veq) vadd.
Proof.
  intros a a' (H1 & H2 & H3) b b' (K1 & K2 & K3).
  unfold vadd; repeat split; simpl; [rewrite H1, K1|rewrite H2, K2|rewrite H3, K3];
    reflexivity.
Qed.

#[global] Instance vscale_proper : Proper (Qeq ==> veq ==> veq) vscale.
Proof.
  intros k k' Hk a a' (H1 & H2 & H3).
  unfold vscale; repeat split; simpl; [rewrite H1|rewrite H2|rewrite H3];
    rewrite Hk; reflexivity.
Qed.

Lemma vadd_zero_r a : veq (vadd a vzero) a.
Proof. unfold veq, vadd; simpl. repeat split; ring. Qed.

Lemma vadd_swap a x y : veq (vadd (vadd a x) y) (vadd (vadd a y) x).
Proof. unfold veq, vadd; simpl. repeat split; ring. Qed.

Lemma verts_eq_refl a : verts_eq a a.
Proof. split; auto. intro j. reflexivity. Qed.

Lemma verts_eq_sym a b : verts_eq a b -> verts_eq b a.
Proof. intros [H1 H2]. split; auto. intro j. symmetry. apply H2. Qed.

Lemma verts_eq_trans a b c : verts_eq a b -> verts_eq b c -> verts_eq a c.
Proof.
  intros [H1 H2] [K1 K2]. split; [congruence|].
  intro j. etransitivity; [apply H2 | apply K2].
Qed.

#[global] Instance verts_eq_equiv : Equivalence verts_eq.
Proof.
  split; [exact verts_eq_refl | exact verts_eq_sym | exact verts_eq_trans].
Qed.

Lemma veq_vclose eps a b : 0 <= eps -> veq a b -> vclose eps a b.
Proof.
  intros He (H1 & H2 & H3). unfold vclose.
  assert (Hz : forall x y, x == y -> Qabs (x - y) <= eps).
  { intros x y Hxy. setoid_replace (x - y) with 0 by (rewrite Hxy; ring).
    exact He. }
  auto.
Qed.

Lemma verts_eq_close eps a b : 0 <= eps -> verts_eq a b -> verts_close eps a b.
Proof.
  intros He [H1 H2]. split; auto. intro j. apply veq_vclose; auto.
Qed.

Lemma result_rel_refl {A : Type} (R : A -> A -> Prop) x :
  (forall a, R a a) -> result_rel R x x.
Proof. intro H. destruct x; simpl; auto. Qed.

Lemma result_rel_trans {A : Type} (R : A -> A -> Prop) x y z :
  (forall a b c, R a b -> R b c -> R a c) ->
  result_rel R x y -> result_rel R y z -> result_rel R x z.
Proof.
  intro H. destruct x, y, z; simpl; try tauto; try congruence. apply H.
Qed.

Lemma result_rel_impl {A : Type} (R R' : A -> A -> Prop) x y :
  (forall a b, R a b -> R' a b) -> result_rel R x y -> result_rel R' x y.
Proof. intro H. destruct x, y; simpl; auto. Qed.

(** ** Index-array updates *)

Lemma scatter_add_snoc a upd p :
  scatter_add a (upd ++ [p]) =
  list_set (scatter_add a upd) (fst p) (vadd (nth (fst p) a vzero) (snd p)).
Proof. unfold scatter_add. now rewrite fold_left_app. Qed.

Lemma scatter_add_length a upd : length (scatter_add a upd) = length a.
Proof.
  induction upd as [|p upd IH] using rev_ind; auto.
  rewrite scatter_add_snoc, list_set_length. exact IH.
Qed.

Lemma last_upd_snoc {B : Type} (upd : list (nat * B)) p j :
  last_upd (upd ++ [p]) j =
  if (fst p =? j)%nat then Some (snd p) else last_upd upd j.
Proof. unfold last_upd. now rewrite fold_left_app. Qed.

Lemma in_range_app {B : Type} n (u1 u2 : list (nat * B)) :
  in_range n (u1 ++ u2) = in_range n u1 && in_range n u2.
Proof. unfold in_range. apply forallb_app. Qed.

Lemma nth_scatter_add a upd j :
  in_range (length a) upd = true ->
  nth j (scatter_add a upd) vzero =
  match last_upd upd j with
  | Some d => vadd (nth j a vzero) d
  | None => nth j a vzero
  end.
Proof.
  induction upd as [|p upd IH] using rev_ind; intro Hr; auto.
  rewrite in_range_app in Hr. apply andb_true_iff in Hr as [Hr Hp].
  simpl in Hp. rewrite andb_true_r in Hp. apply Nat.ltb_lt in Hp.
  rewrite scatter_add_snoc, last_upd_snoc.
  rewrite nth_list_set by (now rewrite scatter_add_length).
  destruct (fst p =? j)%nat eqn:E; auto.
  apply Nat.eqb_eq in E. now subst j.
Qed.

Lemma nth_scatter_add_delta a upd j :
  in_range (length a) upd = true ->
  veq (nth j (scatter_add a upd) vzero) (vadd (nth j a vzero) (delta_at upd j)).
Proof.
  intro Hr. rewrite nth_scatter_add by assumption. unfold delta_at.
  destruct (last_upd upd j); [reflexivity | symmetry; apply vadd_zero_r].
Qed.

Lemma scatter_add_proper a a' upd :
  in_range (length a) upd = true ->
  verts_eq a a' -> verts_eq (scatter_add a upd) (scatter_add a' upd).
Proof.
  intros Hr [Hl Hv]. split.
  - now rewrite !scatter_add_length.
  - intro j. rewrite !nth_scatter_add_delta by (rewrite <- ?Hl; assumption).
    now rewrite Hv.
Qed.

Lemma scatter_add_swap a u1 u2 :
  in_range (length a) u1 = true -> in_range (length a) u2 = true ->
  verts_eq (scatter_add (scatter_add a u1) u2) (scatter_add (scatter_add a u2) u1).
Proof.
  intros H1 H2. split.
  - now rewrite !scatter_add_length.
  - intro j.
    rewrite !nth_scatter_add_delta by (rewrite ?scatter_add_length; assumption).
    apply vadd_swap.
Qed.

(** ** Morph blending *)

Section MorphFacts.
Import Morph.

Lemma np_index_lt n i k : np_index n i = Ok k -> (k < n)%nat.
Proof.
  unfold np_index.
  destruct ((0 <=? i) && (i <? Z.of_nat n))%Z eqn:E1.
  - intro H. injection H as <-. apply andb_true_iff in E1 as [H1 H2]. lia.
  - destruct ((i <? 0) && (- Z.of_nat n <=? i))%Z eqn:E2; [|discriminate].
    intro H. injection H as <-. apply andb_true_iff in E2 as [H1 H2]. lia.
Qed.

Lemma np_index_raise n i e : np_index n i = Raise e -> e = IndexError.
Proof.
  unfold np_index.
  destruct ((0 <=? i) && (i <? Z.of_nat n))%Z; [discriminate|].
  destruct ((i <? 0) && (- Z.of_nat n <=? i))%Z; [discriminate|].
  congruence.
Qed.

Lemma resolve_loop_in_range n weight d acc upd :
  for_each
    (fun acc p => i <- np_index n (fst p) ;; Ok (acc ++ [(i, vscale weight (snd p))]))
    d acc = Ok upd ->
  in_range n acc = true -> in_range n upd = true.
Proof.
  revert acc. induction d as [|p d IH]; intros acc H Hacc; simpl in H.
  - now injection H as <-.
  - destruct (np_index n (fst p)) as [k|e] eqn:E; simpl in H; [|discriminate].
    apply (IH _ H). rewrite in_range_app, Hacc. simpl.
    apply np_index_lt in E. apply Nat.ltb_lt in E. now rewrite E.
Qed.

Lemma resolve_loop_raise n weight d acc e :
  for_each
    (fun acc p => i <- np_index n (fst p) ;; Ok (acc ++ [(i, vscale weight (snd p))]))
    d acc = Raise e ->
  e = IndexError.
Proof.
  revert acc. induction d as [|p d IH]; intros acc H; simpl in H; [discriminate|].
  destruct (np_index n (fst p)) as [k|e'] eqn:E; simpl in H.
  - exact (IH _ H).
  - injection H as <-. exact (np_index_raise _ _ _ E).
Qed.

Lemma plan_in_range f n t upd : plan f n t = Ok upd -> in_range n upd = true.
Proof.
  unfold plan. destruct (tag_weight f (tags t) 1) as [w|].
  - destruct (data t) as [d|].
    + intro H. exact (resolve_loop_in_range _ _ _ _ _ H eq_refl).
    + intro H. now injection H as <-.
  - intro H. now injection H as <-.
Qed.

Lemma plan_raise f n t e : plan f n t = Raise e -> e = IndexError.
Proof.
  unfold plan. destruct (tag_weight f (tags t) 1) as [w|]; [|discriminate].
  destruct (data t) as [d|]; [|discriminate].
  apply resolve_loop_raise.
Qed.

(** One step of the loop is the scattered addition of the target's plan. *)
Lemma solve_step_plan f acc t :
  solve_step f acc t =
  (upd <- plan f (length acc) t ;; Ok (scatter_add acc upd)).
Proof.
  unfold solve_step, plan, apply_target.
  destruct (tag_weight f (tags t) 1) as [w|]; [|reflexivity].
  destruct (data t) as [d|]; [|reflexivity].
  destruct (resolve (length acc) d w) as [upd|e] eqn:E; simpl; [|reflexivity].
  unfold fancy_iadd.
  now rewrite (resolve_loop_in_range _ _ _ _ _ E eq_refl).
Qed.

Lemma solve_step_length f acc t r :
  solve_step f acc t = Ok r -> length r = length acc.
Proof.
  rewrite solve_step_plan. destruct (plan f (length acc) t); simpl; [|discriminate].
  intro H. injection H as <-. apply scatter_add_length.
Qed.

(** A step respects equality of the input mesh. *)
Lemma solve_step_proper f a a' t :
  verts_eq a a' ->
  result_rel verts_eq (solve_step f a t) (solve_step f a' t).
Proof.
  intros Heq. rewrite !solve_step_plan. destruct Heq as [Hl Hv].
  rewrite <- Hl. destruct (plan f (length a) t) as [upd|e] eqn:E; simpl; auto.
  apply scatter_add_proper; [exact (plan_in_range _ _ _ _ E) | now split].
Qed.

Lemma solve_loop_proper f ts a a' :
  verts_eq a a' ->
  result_rel verts_eq (for_each (solve_step f) ts a) (for_each (solve_step f) ts a').
Proof.
  revert a a'. induction ts as [|t ts IH]; intros a a' Heq; simpl; auto.
  pose proof (solve_step_proper f a a' t Heq) as Hs.
  destruct (solve_step f a t), (solve_step f a' t); simpl in *; auto; tauto.
Qed.

(** Two consecutive steps commute. *)
Lemma solve_step_swap f a x y :
  result_rel verts_eq
    (a1 <- solve_step f a x ;; solve_step f a1 y)
    (a1 <- solve_step f a y ;; solve_step f a1 x).
Proof.
  rewrite (solve_step_plan f a x), (solve_step_plan f a y).
  destruct (plan f (length a) x) as [ux|ex] eqn:Ex;
    destruct (plan f (length a) y) as [uy|ey] eqn:Ey; simpl;
    rewrite ?solve_step_plan, ?scatter_add_length, ?Ex, ?Ey; simpl.
  - apply scatter_add_swap; eapply plan_in_range; eassumption.
  - reflexivity.
  - reflexivity.
  - apply plan_raise in Ex, Ey. congruence.
Qed.

(** In exact arithmetic the order of the targets does not matter; what
    depends on it is the rounding of the sums (see [MorphR]). *)
Lemma solve_loop_permutation f ts ts' :
  Permutation ts ts' ->
  forall a, result_rel verts_eq (for_each (solve_step f) ts a)
                                (for_each (solve_step f) ts' a).
Proof.
  induction 1 as [|t l l' Hp IH|x y l|l l' l'' H1 IH1 H2 IH2]; intro a.
  - simpl. apply verts_eq_refl.
  - simpl. destruct (solve_step f a t); simpl; auto.
  - pose proof (solve_step_swap f a y x) as Hs. simpl.
    destruct (solve_step f a y) as [a1|e1]; simpl in *.
    + destruct (solve_step f a x) as [a2|e2]; simpl in *.
      * destruct (solve_step f a1 x) as [b1|e1'], (solve_step f a2 y) as [b2|e2'];
          simpl in *; auto; try tauto.
        now apply solve_loop_proper.
      * destruct (solve_step f a1 x); simpl in *; auto; tauto.
    + destruct (solve_step f a x) as [a2|e2]; simpl in *; auto.
      destruct (solve_step f a2 y); simpl in *; auto; tauto.
  - eapply result_rel_trans; [exact verts_eq_trans | apply IH1 | apply IH2].
Qed.

Lemma dict_get_In {V : Type} (d : dict V) k v :
  dict_get d k = Some v -> In (k, v) d.
Proof.
  induction d as [|[k' v'] d IH]; simpl; [discriminate|].
  destruct (String.eqb k' k) eqn:E.
  - intro H. injection H as <-. apply String.eqb_eq in E. subst. now left.
  - intro H. right. auto.
Qed.

Lemma tag_factor_unit f tv : factors_in_unit f -> 0 <= tag_factor f tv <= 1.
Proof.
  intro Hf. unfold tag_factor, dict_get_default.
  destruct tv as [|s].
  - destruct (dict_get f "universal") eqn:E.
    + exact (Hf _ _ (dict_get_In _ _ _ E)).
    + split; discriminate.
  - destruct (dict_get f s) eqn:E.
    + exact (Hf _ _ (dict_get_In _ _ _ E)).
    + split; discriminate.
Qed.

Lemma full_product_le f tgs w :
  factors_in_unit f -> 0 <= w ->
  0 <= fold_left (fun w (t : string * tag_value) => w * tag_factor f (snd t)) tgs w <= w.
Proof.
  intro Hf. revert w. induction tgs as [|[c tv] tgs IH]; intros w Hw; simpl.
  - split; [assumption | apply Qle_refl].
  - pose proof (tag_factor_unit f tv Hf) as [H0 H1].
    assert (Hw' : 0 <= w * tag_factor f tv) by (apply Qmult_le_0_compat; assumption).
    destruct (IH _ Hw') as [K0 K1]. split; [assumption|].
    eapply Qle_trans; [exact K1|]. nra.
Qed.

(** Under factors in [0,1] the early break fires exactly when the full
    product is below the cut-off. *)
Lemma tag_weight_full f tgs w :
  factors_in_unit f -> Qlt_bool w 0.001 = false ->
  tag_weight f tgs w =
  let p := fold_left (fun w (t : string * tag_value) => w * tag_factor f (snd t)) tgs w in
  if Qlt_bool p 0.001 then None else Some p.
Proof.
  intro Hf. revert w. induction tgs as [|[c tv] tgs IH]; intros w Hw; simpl.
  - now rewrite Hw.
  - destruct (Qlt_bool (w * tag_factor f tv) 0.001) eqn:E.
    + apply Qlt_bool_iff in E. apply Qlt_bool_false in Hw.
      pose proof (tag_factor_unit f tv Hf) as [H0 H1].
      assert (Hw' : 0 <= w * tag_factor f tv) by nra.
      destruct (full_product_le f tgs _ Hf Hw') as [_ K].
      assert (Hlt : fold_left (fun w (t : string * tag_value) => w * tag_factor f (snd t)) tgs
                      (w * tag_factor f tv) < 0.001) by lra.
      apply Qlt_bool_iff in Hlt. now rewrite Hlt.
    + now apply IH.
Qed.

Lemma solve_step_is_kept f a t :
  factors_in_unit f -> solve_step f a t = solve_step_kept f a t.
Proof.
  intro Hf. unfold solve_step, solve_step_kept, solve_step_full, full_weight.
  rewrite (tag_weight_full f (tags t) 1 Hf eq_refl). cbv zeta.
  destruct (Qlt_bool _ 0.001); reflexivity.
Qed.

(** C4 (amended).  For factors in [0,1], [solve_mesh] returns what blending
    returns when exactly the targets whose full product weight is at least
    1e-3 are applied, each with its full product weight: the early break
    decides as the full product would, and a skipped target adds nothing. *)
Theorem solve_mesh_skips_below_cutoff base_mesh targets factors :
  factors_in_unit factors ->
  solve_mesh base_mesh targets factors = solve_mesh_kept base_mesh targets factors.
Proof.
  intro Hf. unfold solve_mesh, solve_mesh_kept.
  apply for_each_ext. intros a t. now apply solve_step_is_kept.
Qed.

Lemma factors_in_unit_faint_male : factors_in_unit Examples.factors_faint_male.
Proof.
  intros k v H. vm_compute in H.
  repeat (destruct H as [H|H];
          [injection H as <- <-; split; discriminate|]).
  contradiction.
Qed.

Lemma solve_mesh_skips_below_cutoff_witness :
  solve_mesh Examples.mesh3 [Examples.target_male; Examples.target_young]
    Examples.factors_faint_male
  = solve_mesh_kept Examples.mesh3 [Examples.target_male; Examples.target_young]
      Examples.factors_faint_male.
Proof.
  apply solve_mesh_skips_below_cutoff. exact factors_in_unit_faint_male.
Defined.

(** C4, as stated, fails: with [male = 0.0005] the male target is skipped,
    while its full product weight would move vertex 0 by 0.0005. *)
Lemma solve_mesh_skip_changes_result :
  factors_in_unit Examples.factors_faint_male /\
  solve_mesh Examples.mesh3 [Examples.target_male] Examples.factors_faint_male
    = Ok Examples.mesh3 /\
  ~ result_rel verts_eq
      (solve_mesh Examples.mesh3 [Examples.target_male] Examples.factors_faint_male)
      (solve_mesh_full Examples.mesh3 [Examples.target_male]
         Examples.factors_faint_male).
Proof.
  split; [exact factors_in_unit_faint_male|].
  split; [reflexivity|].
  vm_compute. intros [_ H]. specialize (H 0%nat). destruct H as [H _].
  vm_compute in H. discriminate.
Qed.

End MorphFacts.

(** ** Vertex weights *)

Section WeightFacts.
Import Weights.

Lemma weight_at_app e1 e2 v :
  weight_at (e1 ++ e2) v == weight_at e1 v + weight_at e2 v.
Proof.
  induction e1 as [|p e1 IH]; simpl; [ring|].
  destruct (fst p =? v)%nat; rewrite IH; ring.
Qed.

Lemma weight_at_perm e e' v :
  Permutation e e' -> weight_at e v == weight_at e' v.
Proof.
  induction 1 as [|p l l' Hp IH|p q l|l l' l'' H1 IH1 H2 IH2]; simpl.
  - reflexivity.
  - destruct (fst p =? v)%nat; rewrite IH; reflexivity.
  - destruct (fst p =? v)%nat, (fst q =? v)%nat; ring.
  - now rewrite IH1.
Qed.

Lemma weight_at_notin e v : ~ In v (map fst e) -> weight_at e v = 0.
Proof.
  induction e as [|p e IH]; simpl; auto.
  intro H. destruct (fst p =? v)%nat eqn:E.
  - apply Nat.eqb_eq in E. tauto.
  - apply IH. tauto.
Qed.

Lemma weight_at_head_unique p e v :
  NoDup (map fst (p :: e)) -> fst p = v -> weight_at (p :: e) v = snd p + 0.
Proof.
  intros Hnd <-. simpl. rewrite Nat.eqb_refl.
  inversion Hnd; subst. now rewrite weight_at_notin.
Qed.

Lemma weight_at_unique e v w :
  NoDup (map fst e) -> In (v, w) e -> weight_at e v == w.
Proof.
  induction e as [|p e IH]; simpl; [tauto|].
  intros Hnd [->|Hin].
  - simpl. rewrite Nat.eqb_refl. inversion Hnd; subst.
    rewrite weight_at_notin by assumption. ring.
  - inversion Hnd as [|? ? Hni Hnd']; subst.
    destruct (fst p =? v)%nat eqn:E.
    + apply Nat.eqb_eq in E. exfalso. apply Hni. rewrite E.
      change v with (fst (v, w)). now apply in_map.
    + now apply IH.
Qed.

(** *** The per-group loop *)

Lemma group_add_keys acc vn x :
  map fst (group_add acc vn x) =
  if in_dec Nat.eq_dec vn (map fst acc) then map fst acc else map fst acc ++ [vn].
Proof.
  induction acc as [|[v w] acc IH]; simpl; auto.
  destruct (v =? vn)%nat eqn:E.
  - apply Nat.eqb_eq in E. subst. simpl.
    destruct (Nat.eq_dec vn vn); [reflexivity | congruence].
  - apply Nat.eqb_neq in E. simpl. rewrite IH.
    destruct (Nat.eq_dec v vn); [congruence|].
    destruct (in_dec Nat.eq_dec vn (map fst acc)); reflexivity.
Qed.

Lemma group_add_nodup acc vn x :
  NoDup (map fst acc) -> NoDup (map fst (group_add acc vn x)).
Proof.
  intro H. rewrite group_add_keys.
  destruct (in_dec Nat.eq_dec vn (map fst acc)); auto.
  apply NoDup_app; auto.
  - constructor; [intros []| constructor].
  - intros a Ha [<-|[]]. contradiction.
Qed.

Lemma weight_at_group_add acc vn x v :
  weight_at (group_add acc vn x) v ==
  weight_at acc v + (if (vn =? v)%nat then x else 0).
Proof.
  induction acc as [|[u w] acc IH]; simpl.
  - destruct (vn =? v)%nat; ring.
  - destruct (u =? vn)%nat eqn:E; simpl.
    + apply Nat.eqb_eq in E. subst u.
      destruct (vn =? v)%nat; ring.
    + destruct (u =? v)%nat; rewrite IH; ring.
Qed.

Lemma normalize_loop_weight wtot g acc v :
  weight_at
    (fold_left
       (fun acc item => group_add acc (fst item) (snd item / nth (fst item) wtot 0))
       g acc) v
  == weight_at acc v + weight_at g v / nth v wtot 0.
Proof.
  revert acc. induction g as [|[vn w] g IH]; intro acc; simpl.
  - unfold Qdiv. ring.
  - rewrite IH, weight_at_group_add. simpl.
    destruct (vn =? v)%nat eqn:E.
    + apply Nat.eqb_eq in E. subst vn. unfold Qdiv. ring.
    + ring.
Qed.

Lemma normalize_group_weight wtot g v :
  weight_at (normalize_group wtot g) v == weight_at g v / nth v wtot 0.
Proof.
  unfold normalize_group. rewrite normalize_loop_weight. simpl. ring.
Qed.

Lemma normalize_group_nodup wtot g : NoDup (map fst (normalize_group wtot g)).
Proof.
  unfold normalize_group.
  assert (H : forall acc, NoDup (map fst acc) ->
            NoDup (map fst (fold_left
              (fun acc item =>
                 group_add acc (fst item) (snd item / nth (fst item) wtot 0)) g acc))).
  { induction g as [|p g IH]; intros acc Hacc; simpl; auto.
    apply IH. now apply group_add_nodup. }
  apply H. constructor.
Qed.

(** *** Sorting by vertex index *)

Lemma insert_by_index_perm p l : Permutation (insert_by_index p l) (p :: l).
Proof.
  induction l as [|q l IH]; simpl; auto.
  destruct (fst p <=? fst q)%nat; auto.
  rewrite IH. apply perm_swap.
Qed.

Lemma argsort_entry_perm l : Permutation (argsort_entry l) l.
Proof.
  induction l as [|p l IH]; simpl; auto.
  rewrite insert_by_index_perm. now constructor.
Qed.

Lemma argsort_entry_keys_perm l :
  Permutation (map fst (argsort_entry l)) (map fst l).
Proof. apply Permutation_map, argsort_entry_perm. Qed.

Lemma argsort_entry_nodup l :
  NoDup (map fst l) -> NoDup (map fst (argsort_entry l)).
Proof.
  intro H. eapply Permutation_NoDup; [|exact H].
  symmetry. apply argsort_entry_keys_perm.
Qed.

Lemma insert_by_index_ascending p l :
  ascending l -> ~ In (fst p) (map fst l) -> ascending (insert_by_index p l).
Proof.
  unfold ascending. induction l as [|q l IH]; intros Hs Hni; simpl.
  - repeat constructor.
  - inversion Hs as [|? ? Hs' Hall]; subst. simpl in Hni.
    destruct (fst p <=? fst q)%nat eqn:E.
    + apply Nat.leb_le in E.
      assert (Hlt : (fst p < fst q)%nat) by (assert (fst q <> fst p) by tauto; lia).
      constructor; [assumption|]. constructor; [assumption|].
      eapply Forall_impl; [|exact Hall]. simpl. intros; lia.
    + apply Nat.leb_gt in E. constructor.
      * apply IH; tauto.
      * eapply Permutation_Forall; [symmetry; apply insert_by_index_perm|].
        constructor; assumption.
Qed.

Lemma argsort_entry_ascending l :
  NoDup (map fst l) -> ascending (argsort_entry l).
Proof.
  induction l as [|p l IH]; simpl; intro H.
  - constructor.
  - inversion H; subst. apply insert_by_index_ascending; auto.
    intro Hin. eapply Permutation_in in Hin; [|apply argsort_entry_keys_perm].
    contradiction.
Qed.

(** *** The threshold filter *)

#[global] Instance keep_proper : Proper (Qeq ==> Qeq) keep.
Proof.
  intros x y H. unfold keep. rewrite H.
  destruct (Qlt_bool WEIGHT_THRESHOLD y); [exact H | reflexivity].
Qed.

Lemma above_threshold_keys_incl l v :
  In v (map fst (above_threshold l)) -> In v (map fst l).
Proof.
  unfold above_threshold. intro H. apply in_map_iff in H as (p & <- & Hp).
  apply filter_In in Hp as [Hp _]. now apply in_map.
Qed.

Lemma above_threshold_nodup l :
  NoDup (map fst l) -> NoDup (map fst (above_threshold l)).
Proof.
  induction l as [|p l IH]; simpl; auto.
  intro H. inversion H; subst.
  destruct (Qlt_bool WEIGHT_THRESHOLD (snd p)); simpl; auto.
  constructor; auto. intro Hin. now apply above_threshold_keys_incl in Hin.
Qed.

Lemma above_threshold_weight l v :
  NoDup (map fst l) -> weight_at (above_threshold l) v == keep (weight_at l v).
Proof.
  induction l as [|p l IH]; intro Hnd.
  - reflexivity.
  - inversion Hnd as [|? ? Hni Hnd']; subst.
    destruct (Nat.eq_dec (fst p) v) as [E|E].
    + rewrite (weight_at_head_unique p l v Hnd E).
      assert (Hz : weight_at (above_threshold l) v = 0).
      { apply weight_at_notin. intro Hin.
        apply above_threshold_keys_incl in Hin. congruence. }
      setoid_replace (snd p + 0) with (snd p) by ring.
      unfold keep. simpl.
      destruct (Qlt_bool WEIGHT_THRESHOLD (snd p)); simpl.
      * apply Nat.eqb_eq in E. rewrite E, Hz. ring.
      * now rewrite Hz.
    + assert (E' : (fst p =? v)%nat = false) by now apply Nat.eqb_neq.
      simpl. rewrite E'.
      destruct (Qlt_bool WEIGHT_THRESHOLD (snd p)); simpl; rewrite ?E'; auto.
Qed.

(** What one bone stores for a vertex. *)
Lemma stored_weight wtot g v :
  weight_at (above_threshold (argsort_entry (normalize_group wtot g))) v
  == keep (weight_at g v / nth v wtot 0).
Proof.
  rewrite above_threshold_weight
    by apply argsort_entry_nodup, normalize_group_nodup.
  apply keep_proper.
  rewrite (weight_at_perm _ _ v (argsort_entry_perm _)).
  apply normalize_group_weight.
Qed.

(** *** The table of all bones *)

Lemma dict_get_notin {V : Type} (d : dict V) k :
  ~ In k (dict_keys d) -> dict_get d k = None.
Proof.
  induction d as [|[k' v] d IH]; simpl; auto.
  intro H. destruct (String.eqb k' k) eqn:E.
  - apply String.eqb_eq in E. tauto.
  - apply IH. tauto.
Qed.

Lemma dict_set_keys {V : Type} (d : dict V) k x k' :
  In k' (dict_keys (dict_set d k x)) -> k' = k \/ In k' (dict_keys d).
Proof.
  induction d as [|[k0 v] d IH]; simpl.
  - intros [<-|[]]. now left.
  - destruct (String.eqb k0 k); simpl.
    + intros [<-|H]; auto.
    + intros [<-|H]; auto. destruct (IH H); auto.
Qed.

Lemma total_at_dict_set (d : dict Entry) k x v :
  total_at (dict_set d k x) v + weight_at (dict_get_default d k []) v
  == total_at d v + weight_at x v.
Proof.
  unfold dict_get_default.
  induction d as [|[k' e] d IH]; simpl.
  - ring.
  - destruct (String.eqb k' k); simpl.
    + ring.
    + rewrite <- Qplus_assoc, IH. ring.
Qed.

Lemma total_at_dict_set_fresh (d : dict Entry) k x v :
  ~ In k (dict_keys d) ->
  total_at (dict_set d k x) v == total_at d v + weight_at x v.
Proof.
  intro H. pose proof (total_at_dict_set d k x v) as E.
  unfold dict_get_default in E. rewrite (dict_get_notin d k H) in E.
  simpl in E. rewrite <- E. ring.
Qed.

(** The sum over the raw groups of what each bone stores. *)
Lemma bone_weights_loop_total wtot (d : Raw) v :
  NoDup (dict_keys d) ->
  total_at (bone_weights_loop wtot d) v
  == fold_right
       (fun kv acc => keep (weight_at (snd kv) v / nth v wtot 0) + acc) 0 d.
Proof.
  unfold bone_weights_loop.
  assert (H : forall acc,
    NoDup (dict_keys d) ->
    (forall k, In k (dict_keys d) -> ~ In k (dict_keys acc)) ->
    total_at (fold_left (bone_weights_step wtot) d acc) v
    == total_at acc v
       + fold_right
           (fun kv acc => keep (weight_at (snd kv) v / nth v wtot 0) + acc) 0 d).
  { induction d as [|[k g] d IH]; intros acc Hnd Hfresh; simpl.
    - ring.
    - inversion Hnd as [|? ? Hkd Hnd']; subst.
      assert (Hk : ~ In k (dict_keys acc)) by (apply Hfresh; now left).
      unfold bone_weights_step at 2. simpl.
      destruct g as [|it g].
      + etransitivity.
        * apply IH; auto. intros k' Hk'. apply Hfresh. now right.
        * simpl. unfold keep, Qdiv.
          setoid_replace (0 * / nth v wtot 0) with 0 by ring.
          simpl. ring.
      + etransitivity.
        * apply IH; auto.
          intros k' Hk' Hin. apply dict_set_keys in Hin.
          destruct Hin as [->|Hin]; [contradiction|].
          apply (Hfresh k'); [now right | assumption].
        * rewrite total_at_dict_set_fresh by assumption.
          rewrite stored_weight. simpl. ring. }
  intro Hnd. etransitivity; [apply H; auto|]. simpl. ring.
Qed.

Lemma dict_get_set_same {V : Type} (d : dict V) k v :
  dict_get (dict_set d k v) k = Some v.
Proof.
  induction d as [|[k' v'] d IH]; simpl.
  - now rewrite String.eqb_refl.
  - destruct (String.eqb k' k) eqn:E; simpl; rewrite E; auto.
Qed.

Lemma dict_get_set_other {V : Type} (d : dict V) k k' v :
  k <> k' -> dict_get (dict_set d k v) k' = dict_get d k'.
Proof.
  intro Hne. induction d as [|[k0 v0] d IH]; simpl.
  - destruct (String.eqb k k') eqn:E; auto.
    apply String.eqb_eq in E. contradiction.
  - destruct (String.eqb k0 k) eqn:E; simpl.
    + apply String.eqb_eq in E. subst k0.
      destruct (String.eqb k k') eqn:E'; auto.
      apply String.eqb_eq in E'. contradiction.
    + destruct (String.eqb k0 k'); auto.
Qed.

(** *** The totals [wtot] *)

Lemma add_at_spec items : forall a r,
  add_at a items = Ok r ->
  length r = length a /\
  forall v, (v < length a)%nat -> nth v r 0 == nth v a 0 + weight_at items v.
Proof.
  unfold add_at.
  induction items as [|[i w] items IH]; intros a r H; simpl in H.
  - injection H as <-. split; auto. intros v _. simpl. ring.
  - unfold iadd_at in H at 1. simpl in H.
    destruct (i <? length a)%nat eqn:E; simpl in H; [|discriminate].
    apply Nat.ltb_lt in E.
    destruct (IH _ _ H) as [Hl Hv]. rewrite list_set_length in Hl, Hv.
    split; auto. intros v Hlt. rewrite (Hv v Hlt).
    rewrite nth_list_set by assumption. simpl.
    destruct (i =? v)%nat eqn:E'.
    + apply Nat.eqb_eq in E'. subst i. ring.
    + ring.
Qed.

Lemma weight_at_concat (d : Raw) v :
  weight_at (concat (map snd d)) v == total_at d v.
Proof.
  induction d as [|[k g] d IH]; simpl; [reflexivity|].
  now rewrite weight_at_app, IH.
Qed.

Lemma wtot_spec (d : Raw) n wtot v :
  add_at (repeat 0 n) (concat (map snd d)) = Ok wtot ->
  (v < n)%nat ->
  length wtot = n /\ nth v wtot 0 == total_at d v.
Proof.
  intros H Hv. apply add_at_spec in H as [Hl Hn].
  rewrite repeat_length in Hl, Hn. split; auto.
  rewrite (Hn v Hv), nth_repeat, weight_at_concat. ring.
Qed.

(** *** Vertices without weight go to the root bone *)

Lemma weight_at_ones_in l v :
  NoDup l -> In v l -> weight_at (map (fun i => (i, 1)) l) v == 1.
Proof.
  intros Hnd Hin. apply weight_at_unique.
  - rewrite map_map. simpl. now rewrite map_id.
  - apply in_map_iff. now exists v.
Qed.

Lemma weight_at_ones_notin l v :
  ~ In v l -> weight_at (map (fun i => (i, 1)) l) v == 0.
Proof.
  intro H. rewrite weight_at_notin; [reflexivity|].
  rewrite map_map. simpl. now rewrite map_id.
Qed.

Lemma zero_total_indices_In wtot v :
  In v (zero_total_indices wtot) <->
  (v < length wtot)%nat /\ nth v wtot 0 == 0.
Proof.
  unfold zero_total_indices. rewrite filter_In, in_seq, Qeq_bool_iff.
  split; intros [H1 H2]; split; auto; lia.
Qed.

Lemma zero_total_indices_nodup wtot : NoDup (zero_total_indices wtot).
Proof. apply NoDup_filter, seq_NoDup. Qed.

Lemma assign_root_total L wtot rootBone v :
  total_at (assign_root L wtot rootBone) v
  == total_at L v + weight_at (map (fun i => (i, 1)) (zero_total_indices wtot)) v.
Proof.
  unfold assign_root.
  set (e := match dict_get L rootBone with None => [] | Some e => e end).
  set (z := map (fun i => (i, 1)) (zero_total_indices wtot)).
  pose proof (total_at_dict_set L rootBone (e ++ z) v) as E.
  unfold dict_get_default in E. fold e in E. rewrite weight_at_app in E.
  destruct (e ++ z) eqn:Eapp.
  - apply app_eq_nil in Eapp as [_ ->]. simpl. ring.
  - lra.
Qed.

Lemma assign_root_has L wtot rootBone v :
  (v < length wtot)%nat -> nth v wtot 0 == 0 ->
  entry_has (dict_get_default (assign_root L wtot rootBone) rootBone []) v 1.
Proof.
  intros Hv Hz. unfold assign_root.
  set (e := match dict_get L rootBone with None => [] | Some e => e end).
  set (z := map (fun i => (i, 1)) (zero_total_indices wtot)).
  assert (Hin : In (v, 1) (e ++ z)).
  { apply in_or_app. right. apply in_map_iff. exists v. split; auto.
    apply zero_total_indices_In. auto. }
  destruct (e ++ z) eqn:Eapp; [destruct Hin|].
  unfold dict_get_default. rewrite dict_get_set_same.
  exists 1. split; [exact Hin | reflexivity].
Qed.

(** *** Shares *)

Lemma kept_sum_ext (l : Raw) v t t' :
  t == t' ->
  fold_right (fun kv acc => keep (weight_at (snd kv) v / t) + acc) 0 l
  == fold_right (fun kv acc => keep (weight_at (snd kv) v / t') + acc) 0 l.
Proof.
  intro H. induction l as [|kv l IH]; simpl; [reflexivity|].
  rewrite IH. apply Qplus_comp; [|reflexivity].
  apply keep_proper. now rewrite H.
Qed.

Lemma share_sum (l : Raw) v t :
  fold_right (fun kv acc => weight_at (snd kv) v / t + acc) 0 l
  == total_at l v / t.
Proof.
  induction l as [|kv l IH]; simpl.
  - unfold Qdiv. ring.
  - rewrite IH. unfold Qdiv. ring.
Qed.

Lemma kept_sum_full (l : Raw) v t :
  (forall k g, In (k, g) l ->
     weight_at g v / t == 0 \/ WEIGHT_THRESHOLD < weight_at g v / t) ->
  fold_right (fun kv acc => keep (weight_at (snd kv) v / t) + acc) 0 l
  == total_at l v / t.
Proof.
  intro H. rewrite <- share_sum.
  induction l as [|[k g] l IH]; simpl; [reflexivity|].
  rewrite IH by (intros k' g' Hin; apply (H k' g'); now right).
  apply Qplus_comp; [|reflexivity].
  destruct (H k g (or_introl eq_refl)) as [Hz|Hgt].
  - rewrite Hz. reflexivity.
  - unfold keep. apply Qlt_bool_iff in Hgt. now rewrite Hgt.
Qed.

Lemma kept_sum_zero (l : Raw) v t :
  t == 0 ->
  fold_right (fun kv acc => keep (weight_at (snd kv) v / t) + acc) 0 l == 0.
Proof.
  intro H. induction l as [|kv l IH]; simpl; [reflexivity|].
  rewrite IH. unfold Qdiv. rewrite H.
  change (/ 0) with 0.
  setoid_replace (weight_at (snd kv) v * 0) with 0 by ring.
  reflexivity.
Qed.

(** *** What one bone stores *)

Lemma bone_weights_loop_other wtot (d : Raw) k : forall acc,
  ~ In k (dict_keys d) ->
  dict_get (fold_left (bone_weights_step wtot) d acc) k = dict_get acc k.
Proof.
  induction d as [|[k0 g0] d IH]; intros acc Hk; simpl; [reflexivity|].
  simpl in Hk. rewrite IH by tauto.
  unfold bone_weights_step. simpl. destruct g0; [reflexivity|].
  apply dict_get_set_other. tauto.
Qed.

Lemma bone_weights_loop_get wtot (d : Raw) k g :
  NoDup (dict_keys d) -> In (k, g) d ->
  dict_get_default (bone_weights_loop wtot d) k [] =
  match g with
  | [] => []
  | _ => above_threshold (argsort_entry (normalize_group wtot g))
  end.
Proof.
  unfold bone_weights_loop.
  assert (H : forall acc,
    NoDup (dict_keys d) -> In (k, g) d -> dict_get acc k = None ->
    dict_get_default (fold_left (bone_weights_step wtot) d acc) k [] =
    match g with
    | [] => []
    | _ => above_threshold (argsort_entry (normalize_group wtot g))
    end).
  { induction d as [|[k0 g0] d IH]; intros acc Hnd Hin Hacc; [destruct Hin|].
    inversion Hnd as [|? ? Hk0 Hnd']; subst. simpl.
    destruct Hin as [Heq|Hin].
    - injection Heq as -> ->. unfold dict_get_default.
      rewrite bone_weights_loop_other by exact Hk0.
      unfold bone_weights_step. simpl. destruct g as [|it g].
      + now rewrite Hacc.
      + now rewrite dict_get_set_same.
    - apply IH; auto.
      assert (Hne : k0 <> k).
      { intros ->. apply Hk0. change k with (fst (k, g)). now apply in_map. }
      unfold bone_weights_step. simpl. destruct g0; [exact Hacc|].
      now rewrite dict_get_set_other. }
  intros Hnd Hin. now apply H.
Qed.

Lemma assign_root_get L wtot rootBone k v :
  weight_at (dict_get_default (assign_root L wtot rootBone) k []) v
  == weight_at (dict_get_default L k []) v
     + (if String.eqb k rootBone
        then weight_at (map (fun i => (i, 1)) (zero_total_indices wtot)) v
        else 0).
Proof.
  unfold assign_root, dict_get_default.
  set (z := map (fun i => (i, 1)) (zero_total_indices wtot)).
  destruct (String.eqb k rootBone) eqn:E.
  - apply String.eqb_eq in E. subst k.
    destruct (dict_get L rootBone) as [e|] eqn:Ee.
    + destruct (e ++ z) eqn:Eapp.
      * apply app_eq_nil in Eapp as [-> ->]. rewrite Ee. simpl. ring.
      * rewrite dict_get_set_same, <- Eapp. apply weight_at_app.
    + simpl. destruct z eqn:Ez.
      * rewrite Ee. simpl. ring.
      * rewrite dict_get_set_same. simpl. ring.
  - apply String.eqb_neq in E.
    match goal with
    | |- context [match ?l with [] => L | _ => _ end] => destruct l
    end.
    + ring.
    + rewrite dict_get_set_other by congruence. ring.
Qed.

(** C5 (amended).  After construction from a raw mapping with non-negative
    weights, every bone stores for a vertex its share (raw weight over the
    vertex's raw total) unless the share is not above 1e-4, in which case
    it stores nothing; the root bone stores weight 1 besides for a vertex of
    zero raw total.  So the stored weights of a vertex sum to the kept
    shares, plus 1 from the root bone when the raw total is zero; a vertex
    of zero raw total appears in the root bone's entry with weight 1 and
    its stored weights sum to 1; a vertex of positive raw total has stored
    weights summing to 1 when none of its shares lies in (0, 1e-4]. *)
Theorem build_vertex_weights_normalised
    (d : Raw) (vertexCount : option nat) (rootBone : string)
    (res : dict Entry) (v : nat) :
  NoDup (dict_keys d) ->
  raw_nonneg d ->
  build_vertex_weights_data d vertexCount rootBone = Ok res ->
  (v < vertex_count d vertexCount)%nat ->
  (forall k g, In (k, g) d ->
     weight_at (dict_get_default res k []) v
     == keep (share d g v)
        + (if String.eqb k rootBone && Qeq_bool (total_at d v) 0
           then 1 else 0)) /\
  total_at res v
    == kept_total d v + (if Qeq_bool (total_at d v) 0 then 1 else 0) /\
  (total_at d v == 0 ->
     entry_has (dict_get_default res rootBone []) v 1 /\ total_at res v == 1) /\
  (0 < total_at d v ->
     (forall k g, In (k, g) d ->
        share d g v == 0 \/ WEIGHT_THRESHOLD < share d g v) ->
     total_at res v == 1).
Proof.
  intros Hnd _ Hb Hv. unfold build_vertex_weights_data in Hb.
  apply bind_ok in Hb as (wtot & Hw & Hres). injection Hres as <-.
  destruct (wtot_spec d _ wtot v Hw Hv) as [Hlen Htot].
  assert (Hones : weight_at (map (fun i => (i, 1)) (zero_total_indices wtot)) v
                  == (if Qeq_bool (total_at d v) 0 then 1 else 0)).
  { destruct (Qeq_bool (total_at d v) 0) eqn:E.
    - apply Qeq_bool_iff in E. apply weight_at_ones_in.
      + apply zero_total_indices_nodup.
      + apply zero_total_indices_In. rewrite Hlen, Htot. auto.
    - apply weight_at_ones_notin. intro Hin.
      apply zero_total_indices_In in Hin as [_ Hz].
      rewrite Htot in Hz. apply Qeq_bool_iff in Hz. congruence. }
  assert (Hsum : total_at
            (assign_root (bone_weights_loop wtot d) wtot rootBone) v
          == kept_total d v + (if Qeq_bool (total_at d v) 0 then 1 else 0)).
  { rewrite assign_root_total, bone_weights_loop_total by assumption.
    apply Qplus_comp; [|exact Hones].
    unfold kept_total, share. now apply kept_sum_ext. }
  split.
  { intros k g Hin. rewrite assign_root_get.
    rewrite (bone_weights_loop_get wtot d k g Hnd Hin).
    apply Qplus_comp.
    - unfold share. destruct g as [|it g].
      + simpl. unfold keep, Qdiv.
        setoid_replace (0 * / total_at d v) with 0 by ring. reflexivity.
      + rewrite stored_weight. apply keep_proper. now rewrite Htot.
    - destruct (String.eqb k rootBone); simpl; [exact Hones|reflexivity]. }
  split; [exact Hsum|]. split.
  - intro Hz. split.
    + apply assign_root_has; [lia | now rewrite Htot].
    + rewrite Hsum. unfold kept_total, share.
      rewrite kept_sum_zero by assumption.
      apply Qeq_bool_iff in Hz. rewrite Hz. ring.
  - intros Hpos Hshares. rewrite Hsum. unfold kept_total.
    unfold share in *. rewrite kept_sum_full by assumption.
    destruct (Qeq_bool (total_at d v) 0) eqn:E.
    + apply Qeq_bool_iff in E. lra.
    + field. lra.
Qed.

Lemma raw_weights_nonneg : raw_nonneg Examples.raw_weights.
Proof.
  intros k g vn w Hd Hg. unfold Examples.raw_weights in Hd.
  repeat (destruct Hd as [Hd|Hd];
          [injection Hd as <- <-;
           repeat (destruct Hg as [Hg|Hg]; [injection Hg as <- <-; discriminate|]);
           destruct Hg|]).
  destruct Hd.
Qed.

Lemma raw_weights_keys : NoDup (dict_keys Examples.raw_weights).
Proof.
  repeat constructor; simpl; intuition discriminate.
Qed.

Lemma build_vertex_weights_normalised_witness :
  exists res,
    build_vertex_weights_data Examples.raw_weights (Some 4%nat) "root" = Ok res /\
    weight_at (dict_get_default res "arm" []) 2
      == keep (share Examples.raw_weights [(1%nat, 0.99995); (2%nat, 3)] 2) + 0 /\
    total_at res 2 == 1 /\
    entry_has (dict_get_default res "root" []) 3 1 /\ total_at res 3 == 1.
Proof.
  eexists. split; [vm_compute; reflexivity|]. split.
  { refine (proj1
      (build_vertex_weights_normalised Examples.raw_weights (Some 4%nat) "root"
         _ 2%nat raw_weights_keys raw_weights_nonneg _ _) "arm"%string _ _).
    - vm_compute; reflexivity.
    - simpl. lia.
    - simpl. auto. }
  split.
  - refine (proj2 (proj2 (proj2
      (build_vertex_weights_normalised Examples.raw_weights (Some 4%nat) "root"
         _ 2%nat raw_weights_keys raw_weights_nonneg _ _))) _ _).
    + vm_compute; reflexivity.
    + simpl. lia.
    + vm_compute; reflexivity.
    + intros k g Hin. unfold Examples.raw_weights in Hin.
      repeat (destruct Hin as [Hin|Hin];
              [injection Hin as <- <-;
               first [left; vm_compute; reflexivity
                     | right; vm_compute; reflexivity]|]).
      destruct Hin.
  - refine (proj1 (proj2 (proj2
      (build_vertex_weights_normalised Examples.raw_weights (Some 4%nat) "root"
         _ 3%nat raw_weights_keys raw_weights_nonneg _ _))) _).
    + vm_compute; reflexivity.
    + simpl. lia.
    + vm_compute; reflexivity.
Defined.

(** C5, as stated, fails: vertex 1 is referenced by two bones with
    non-negative weights, the smaller share 0.00005 is filtered out, and the
    stored weights of the vertex sum to 0.99995. *)
Lemma build_vertex_weights_drops_small_share :
  raw_nonneg Examples.raw_weights /\
  exists res,
    build_vertex_weights_data Examples.raw_weights (Some 4%nat) "root" = Ok res /\
    In 1%nat (map fst (dict_get_default Examples.raw_weights "arm" [])) /\
    total_at res 1 == 0.99995 /\
    ~ total_at res 1 == 1.
Proof.
  split; [exact raw_weights_nonneg|].
  eexists. split; [vm_compute; reflexivity|].
  split; [simpl; auto|].
  split; vm_compute; [reflexivity | discriminate].
Qed.

End WeightFacts.

(** ** Weight retargeting *)

Section RetargetFacts.
Import Weights.

Lemma combined_add_keys c v w :
  map fst (combined_add c v w) =
  if in_dec Nat.eq_dec v (map fst c) then map fst c else map fst c ++ [v].
Proof.
  induction c as [|[u x] c IH]; simpl; auto.
  destruct (u =? v)%nat eqn:E.
  - apply Nat.eqb_eq in E. subst. simpl.
    destruct (Nat.eq_dec v v); [reflexivity | congruence].
  - apply Nat.eqb_neq in E. simpl. rewrite IH.
    destruct (Nat.eq_dec u v); [congruence|].
    destruct (in_dec Nat.eq_dec v (map fst c)); reflexivity.
Qed.

Lemma combined_add_nodup c v w :
  NoDup (map fst c) -> NoDup (map fst (combined_add c v w)).
Proof.
  intro H. rewrite combined_add_keys.
  destruct (in_dec Nat.eq_dec v (map fst c)); auto.
  apply NoDup_app; auto.
  - constructor; [intros []| constructor].
  - intros a Ha [<-|[]]. contradiction.
Qed.

Lemma combined_add_nonempty c v w : combined_add c v w <> [].
Proof.
  destruct c as [|[u x] c]; simpl; [discriminate|].
  destruct (u =? v)%nat; discriminate.
Qed.

Lemma weight_at_combined_add c u w v :
  weight_at (combined_add c u w) v ==
  weight_at c v + (if (u =? v)%nat then w else 0).
Proof.
  induction c as [|[u' x] c IH]; simpl.
  - destruct (u =? v)%nat; ring.
  - destruct (u' =? u)%nat eqn:E; simpl.
    + apply Nat.eqb_eq in E. subst u'.
      destruct (u =? v)%nat; ring.
    + destruct (u' =? v)%nat; rewrite IH; ring.
Qed.

Lemma add_entry_nodup e : forall c,
  NoDup (map fst c) -> NoDup (map fst (add_entry c e)).
Proof.
  unfold add_entry. induction e as [|p e IH]; intros c H; simpl; auto.
  apply IH. now apply combined_add_nodup.
Qed.

Lemma add_entry_weight e v : forall c,
  weight_at (add_entry c e) v == weight_at c v + weight_at e v.
Proof.
  unfold add_entry. induction e as [|p e IH]; intro c; simpl.
  - ring.
  - rewrite IH, weight_at_combined_add.
    destruct (fst p =? v)%nat; ring.
Qed.

Lemma add_entry_nonempty e : forall c,
  c <> [] \/ e <> [] -> add_entry c e <> [].
Proof.
  unfold add_entry. induction e as [|p e IH]; intros c H; simpl.
  - destruct H; congruence.
  - apply IH. left. apply combined_add_nonempty.
Qed.

(** The loop over [refs], from any starting dict. *)
Lemma collect_loop_spec data refs v : forall c,
  NoDup (map fst c) ->
  let r := fold_left
             (fun combined ref_name =>
                match dict_get data ref_name with
                | Some e => add_entry combined e
                | None => combined
                end) refs c in
  NoDup (map fst r) /\
  weight_at r v == weight_at c v + refs_weight data refs v /\
  (c <> [] -> r <> []).
Proof.
  induction refs as [|ref refs IH]; intros c Hc; simpl.
  - repeat split; auto. ring.
  - unfold dict_get_default. destruct (dict_get data ref) as [e|] eqn:E.
    + destruct (IH (add_entry c e) (add_entry_nodup e c Hc)) as (H1 & H2 & H3).
      repeat split; auto.
      * rewrite H2, add_entry_weight. ring.
      * intro Hne. apply H3. apply add_entry_nonempty. now left.
    + destruct (IH c Hc) as (H1 & H2 & H3).
      repeat split; auto. rewrite H2. simpl. ring.
Qed.

Lemma collect_refs_nodup data refs : NoDup (map fst (collect_refs data refs)).
Proof.
  exact (proj1 (collect_loop_spec data refs 0%nat [] (NoDup_nil _))).
Qed.

Lemma collect_refs_weight data refs v :
  weight_at (collect_refs data refs) v == refs_weight data refs v.
Proof.
  destruct (collect_loop_spec data refs v [] (NoDup_nil _)) as (_ & H & _).
  unfold collect_refs. rewrite H. simpl. ring.
Qed.

Lemma collect_loop_nonempty data refs r e : forall c,
  NoDup (map fst c) ->
  In r refs -> dict_get data r = Some e -> e <> [] ->
  fold_left
    (fun combined ref_name =>
       match dict_get data ref_name with
       | Some e => add_entry combined e
       | None => combined
       end) refs c <> [].
Proof.
  induction refs as [|ref refs IH]; intros c Hc Hin Hr He; [destruct Hin|].
  simpl. destruct Hin as [Heq|Hin].
  - subst ref. rewrite Hr.
    apply (proj2 (proj2 (collect_loop_spec data refs 0%nat (add_entry c e)
                           (add_entry_nodup e c Hc)))).
    apply add_entry_nonempty. now right.
  - destruct (dict_get data ref) as [e'|]; apply IH; auto.
    now apply add_entry_nodup.
Qed.

Lemma collect_refs_nonempty data refs r e :
  In r refs -> dict_get data r = Some e -> e <> [] ->
  collect_refs data refs <> [].
Proof.
  apply collect_loop_nonempty. constructor.
Qed.

(** *** The loop over the bones *)

Lemma retarget_bone_other data st b n :
  name b <> n ->
  dict_get (fst (retarget_bone data st b)) n = dict_get (fst st) n.
Proof.
  intro Hne. unfold retarget_bone.
  destruct (effective_refs b) as [|r rs].
  - destruct (dict_get data (name b)); simpl; auto.
    now apply dict_get_set_other.
  - simpl. destruct (collect_refs data (r :: rs)); auto.
    now apply dict_get_set_other.
Qed.

Lemma retarget_loop_other data n l : forall st,
  ~ In n (map name l) ->
  dict_get (fst (fold_left (retarget_bone data) l st)) n = dict_get (fst st) n.
Proof.
  induction l as [|b l IH]; intros st Hni; simpl; auto.
  simpl in Hni. rewrite IH by tauto.
  apply retarget_bone_other. tauto.
Qed.

Lemma retarget_loop_flag data l : forall st,
  snd st = true -> snd (fold_left (retarget_bone data) l st) = true.
Proof.
  induction l as [|b l IH]; intros st H; simpl; auto.
  apply IH. unfold retarget_bone.
  destruct (effective_refs b); simpl; auto.
  destruct (dict_get data (name b)); auto.
Qed.

(** After the loop, a bone's key holds what the bone's own step stored. *)
Lemma retarget_loop_at data l bone :
  NoDup (map name l) -> In bone l ->
  exists st,
    dict_get (fst (fold_left (retarget_bone data) l ([], false))) (name bone)
    = dict_get (fst (retarget_bone data st bone)) (name bone) /\
    (effective_refs bone <> [] ->
     snd (fold_left (retarget_bone data) l ([], false)) = true).
Proof.
  intros Hnd Hin. apply in_split in Hin as (l1 & l2 & ->).
  rewrite map_app in Hnd. simpl in Hnd.
  apply NoDup_remove_2 in Hnd.
  exists (fold_left (retarget_bone data) l1 ([], false)).
  rewrite fold_left_app. simpl. split.
  - apply retarget_loop_other. intro H. apply Hnd. apply in_or_app. now right.
  - intro Hrefs. apply retarget_loop_flag. unfold retarget_bone.
    destruct (effective_refs bone); [congruence | reflexivity].
Qed.

(** *** The clean-up pass *)

Lemma cleanup_sources_absent data sources : forall ca,
  existsb (dict_mem data) sources = false ->
  fold_left
    (fun ca src =>
       match dict_get data src with
       | Some e => (add_entry (fst ca) e, true)
       | None => ca
       end) sources ca = ca.
Proof.
  induction sources as [|src sources IH]; intros ca H; simpl in *; auto.
  apply orb_false_iff in H as [H1 H2]. unfold dict_mem in H1.
  destruct (dict_get data src); [discriminate|]. now apply IH.
Qed.

Lemma cleanup_step_untouched data new tm n :
  dict_mem data n && (String.eqb (fst tm) n && existsb (dict_mem data) (snd tm))
    = false ->
  dict_get (cleanup_step data new tm) n = dict_get new n.
Proof.
  intro H. unfold cleanup_step.
  destruct (String.eqb (fst tm) n) eqn:E.
  - apply String.eqb_eq in E. subst n.
    destruct (dict_mem data (fst tm)); auto. simpl in H.
    rewrite cleanup_sources_absent by assumption. reflexivity.
  - destruct (dict_mem data (fst tm)); auto.
    destruct (snd (fold_left _ (snd tm) _)); auto.
    apply dict_get_set_other. intro Heq. rewrite Heq, String.eqb_refl in E.
    discriminate.
Qed.

Lemma cleanup_untouched data m n : forall new,
  dict_mem data n &&
  existsb (fun tm => String.eqb (fst tm) n && existsb (dict_mem data) (snd tm)) m
    = false ->
  dict_get (fold_left (cleanup_step data) m new) n = dict_get new n.
Proof.
  induction m as [|tm m IH]; intros new H; simpl; auto.
  simpl in H. rewrite andb_orb_distrib_r in H.
  apply orb_false_iff in H as [H1 H2].
  rewrite IH by assumption. now apply cleanup_step_untouched.
Qed.

Lemma cleanup_step_other (data : dict Entry) new tm n :
  fst tm <> n -> dict_get (cleanup_step data new tm) n = dict_get new n.
Proof.
  intro Hne. unfold cleanup_step.
  destruct (dict_mem data (fst tm)); auto.
  destruct (snd (fold_left _ (snd tm) _)); auto.
  now apply dict_get_set_other.
Qed.

Lemma cleanup_loop_other (data : dict Entry) n m : forall new,
  ~ In n (map fst m) ->
  dict_get (fold_left (cleanup_step data) m new) n = dict_get new n.
Proof.
  induction m as [|tm m IH]; intros new H; simpl; auto.
  simpl in H. rewrite IH by tauto. apply cleanup_step_other. tauto.
Qed.

Lemma cleanup_step_at (data : dict Entry) new new' tm :
  dict_get new (fst tm) = dict_get new' (fst tm) ->
  dict_get (cleanup_step data new tm) (fst tm)
  = dict_get (cleanup_step data new' tm) (fst tm).
Proof.
  intro H. unfold cleanup_step, dict_get_default. rewrite H.
  destruct (dict_mem data (fst tm)); auto.
  destruct (snd (fold_left _ (snd tm) _)); auto.
  now rewrite !dict_get_set_same.
Qed.

(** After the clean-up pass, a key of the table holds what its own step
    stored. *)
Lemma cleanup_loop_at (data : dict Entry) m n srcs new :
  NoDup (map fst m) -> In (n, srcs) m ->
  dict_get (fold_left (cleanup_step data) m new) n
  = dict_get (cleanup_step data new (n, srcs)) n.
Proof.
  intros Hnd Hin. apply in_split in Hin as (m1 & m2 & ->).
  rewrite map_app in Hnd. simpl in Hnd.
  pose proof (NoDup_remove_2 _ _ _ Hnd) as Hni.
  rewrite fold_left_app. simpl.
  rewrite cleanup_loop_other
    by (intro H; apply Hni; apply in_or_app; now right).
  apply (cleanup_step_at data _ new (n, srcs)). apply cleanup_loop_other.
  intro H. apply Hni. apply in_or_app. now left.
Qed.

Lemma cleanup_sources_spec (data : dict Entry) sources v : forall ca : Entry * bool,
  NoDup (map fst (fst ca)) ->
  let r := fold_left
             (fun (ca : Entry * bool) src =>
                match dict_get data src with
                | Some e => (add_entry (fst ca) e, true)
                | None => ca
                end) sources ca in
  NoDup (map fst (fst r)) /\
  weight_at (fst r) v == weight_at (fst ca) v + refs_weight data sources v /\
  snd r = snd ca || existsb (dict_mem data) sources.
Proof.
  induction sources as [|src sources IH]; intros ca Hc; simpl.
  - split; [exact Hc|]. split; [ring|]. now rewrite orb_false_r.
  - unfold dict_get_default, dict_mem.
    destruct (dict_get data src) as [e|] eqn:E.
    + destruct (IH ((add_entry (fst ca) e, true) : Entry * bool)
                  (add_entry_nodup e (fst ca) Hc)) as (H1 & H2 & H3).
      split; [exact H1|]. split.
      * rewrite H2. simpl. rewrite add_entry_weight. ring.
      * rewrite H3. simpl. now rewrite orb_true_r.
    + destruct (IH ca Hc) as (H1 & H2 & H3).
      split; [exact H1|]. split; [|exact H3]. rewrite H2. simpl. ring.
Qed.

Lemma entry_set_fresh c v w :
  ~ In v (map fst c) -> entry_set c v w = c ++ [(v, w)].
Proof.
  induction c as [|[u x] c IH]; simpl; intro H; [reflexivity|].
  destruct (u =? v)%nat eqn:E.
  - apply Nat.eqb_eq in E. tauto.
  - rewrite IH by tauto. reflexivity.
Qed.

Lemma dict_of_entry_nodup e : NoDup (map fst e) -> dict_of_entry e = e.
Proof.
  unfold dict_of_entry.
  assert (H : forall c, NoDup (map fst (c ++ e)) ->
            fold_left (fun c p => entry_set c (fst p) (snd p)) e c = c ++ e).
  { induction e as [|[v w] e IH]; intros c Hnd; simpl.
    - now rewrite app_nil_r.
    - rewrite entry_set_fresh.
      + rewrite IH; rewrite <- app_assoc; [reflexivity | exact Hnd].
      + rewrite map_app in Hnd. simpl in Hnd.
        apply NoDup_remove_2 in Hnd. intro Hin. apply Hnd.
        apply in_or_app. now left. }
  intro Hnd. exact (H [] Hnd).
Qed.

Lemma find_unique_key (m : list (string * list string)) tm :
  NoDup (map fst m) -> In tm m ->
  find (fun t : string * list string => String.eqb (fst t) (fst tm)) m = Some tm.
Proof.
  induction m as [|t m IH]; intros Hnd Hin; [destruct Hin|].
  inversion Hnd as [|? ? Hni Hnd']; subst. simpl.
  destruct Hin as [->|Hin].
  - now rewrite String.eqb_refl.
  - destruct (String.eqb (fst t) (fst tm)) eqn:E; [|now apply IH].
    apply String.eqb_eq in E. exfalso. apply Hni. rewrite E.
    now apply in_map.
Qed.

Lemma extra_mapping_keys : NoDup (map fst extra_mapping).
Proof. repeat constructor; simpl; intuition discriminate. Qed.

Lemma absorbs_helpers_entry (data : dict Entry) n :
  absorbs_helpers data n = true ->
  dict_mem data n = true /\
  In (n, helpers n) extra_mapping /\
  existsb (dict_mem data) (helpers n) = true.
Proof.
  unfold absorbs_helpers. intro H.
  apply andb_true_iff in H as [Hm H]. split; [exact Hm|].
  apply existsb_exists in H as ([k srcs] & Hin & H). simpl in H.
  apply andb_true_iff in H as [Hk Hs]. apply String.eqb_eq in Hk. subst k.
  assert (Hh : helpers n = srcs).
  { unfold helpers.
    pose proof (find_unique_key extra_mapping (n, srcs) extra_mapping_keys Hin)
      as Hf.
    cbn [fst] in Hf. now rewrite Hf. }
  rewrite Hh. auto.
Qed.

Lemma retarget_loop_flag_in (data : dict Entry) l b :
  In b l -> effective_refs b <> [] ->
  snd (fold_left (retarget_bone data) l ([], false)) = true.
Proof.
  intros Hin Hrefs. apply in_split in Hin as (l1 & l2 & ->).
  rewrite fold_left_app. simpl. apply retarget_loop_flag.
  unfold retarget_bone. destruct (effective_refs b); [congruence | reflexivity].
Qed.

Lemma retarget_loop_at_fresh (data : dict Entry) l bone :
  NoDup (map name l) -> In bone l ->
  exists st,
    dict_get (fst st) (name bone) = None /\
    dict_get (fst (fold_left (retarget_bone data) l ([], false))) (name bone)
    = dict_get (fst (retarget_bone data st bone)) (name bone).
Proof.
  intros Hnd Hin. apply in_split in Hin as (l1 & l2 & ->).
  rewrite map_app in Hnd. simpl in Hnd.
  pose proof (NoDup_remove_2 _ _ _ Hnd) as Hni.
  exists (fold_left (retarget_bone data) l1 ([], false)). split.
  - rewrite retarget_loop_other; [reflexivity|].
    intro H. apply Hni. apply in_or_app. now left.
  - rewrite fold_left_app. simpl.
    apply retarget_loop_other. intro H. apply Hni. apply in_or_app. now right.
Qed.

(** What the first pass leaves under the name of a bone that is a key of
    the source table. *)
Lemma retarget_bone_entry (data : dict Entry) st bone :
  dict_get (fst st) (name bone) = None ->
  dict_mem data (name bone) = true ->
  (effective_refs bone = [] ->
   forall e, dict_get data (name bone) = Some e -> NoDup (map fst e)) ->
  let e1 := dict_get_default (fst (retarget_bone data st bone)) (name bone) [] in
  NoDup (map fst e1) /\
  forall v,
    weight_at e1 v ==
    match effective_refs bone with
    | [] => weight_at (dict_get_default data (name bone) []) v
    | r :: rs => refs_weight data (r :: rs) v
    end.
Proof.
  intros Hst Hmem Hdirect. cbv zeta. unfold retarget_bone, dict_get_default.
  destruct (effective_refs bone) as [|r rs] eqn:E.
  - unfold dict_mem in Hmem.
    destruct (dict_get data (name bone)) as [e|] eqn:Ee; [|discriminate].
    simpl. rewrite dict_get_set_same. split; [|reflexivity].
    exact (Hdirect eq_refl e eq_refl).
  - pose proof (collect_refs_weight data (r :: rs)) as Hcw.
    pose proof (collect_refs_nodup data (r :: rs)) as Hcn.
    destruct (collect_refs data (r :: rs)) as [|p c]; cbn [fst].
    + rewrite Hst. split; [constructor|]. exact Hcw.
    + rewrite dict_get_set_same. split.
      * now apply argsort_entry_nodup.
      * intro v. rewrite (weight_at_perm _ _ v (argsort_entry_perm _)).
        apply Hcw.
Qed.

(** C6 (amended).  For a bone of a skeleton with distinct bone names.
    When the clean-up pass merges no helper bone into it: if it declares
    reference bones of which at least one has a non-empty weight list in
    the source, retargeting stores for it a list sorted by ascending vertex
    index, without a repeated index, whose weight at every vertex is the
    sum of the referenced source bones' weights there; if it declares no
    reference and its name is in the source, it keeps its direct weights.
    When the clean-up pass does merge helper bones into it (some bone of
    the skeleton declaring references): the stored list is sorted, without
    a repeated index, and its weight at every vertex is that sum (the
    direct weight for a bone without references) plus the source weights of
    its helper bones. *)
Theorem retarget_weights_sums_references
    (boneslist : list Bone) (data : dict Entry) (bone : Bone) :
  NoDup (map name boneslist) ->
  In bone boneslist ->
  (absorbs_helpers data (name bone) = false ->
   ((exists r e, In r (effective_refs bone) /\ dict_get data r = Some e /\ e <> []) ->
    exists e,
      dict_get (retarget_weights boneslist data) (name bone) = Some e /\
      ascending e /\ NoDup (map fst e) /\
      forall v, weight_at e v == refs_weight data (effective_refs bone) v) /\
   (effective_refs bone = [] ->
    forall e, dict_get data (name bone) = Some e ->
      dict_get (retarget_weights boneslist data) (name bone) = Some e)) /\
  (absorbs_helpers data (name bone) = true ->
   (exists b, In b boneslist /\ effective_refs b <> []) ->
   (effective_refs bone = [] ->
    forall e, dict_get data (name bone) = Some e -> NoDup (map fst e)) ->
   exists e,
     dict_get (retarget_weights boneslist data) (name bone) = Some e /\
     ascending e /\ NoDup (map fst e) /\
     forall v,
       weight_at e v ==
       match effective_refs bone with
       | [] => weight_at (dict_get_default data (name bone) []) v
       | r :: rs => refs_weight data (r :: rs) v
       end + refs_weight data (helpers (name bone)) v).
Proof.
  intros Hnd Hin. split.
  - intro Habs.
    destruct (retarget_loop_at data boneslist bone Hnd Hin) as (st & Hat & Hflag).
    unfold retarget_weights. split.
    + intros (r & e0 & Hr & Hget & Hne).
      assert (Hrefs : effective_refs bone <> []).
      { intro E. rewrite E in Hr. destruct Hr. }
      rewrite (Hflag Hrefs).
      rewrite cleanup_untouched by exact Habs. rewrite Hat.
      pose proof (collect_refs_nonempty data _ r e0 Hr Hget Hne) as Hc.
      unfold retarget_bone.
      destruct (effective_refs bone) as [|r0 rs] eqn:E; [congruence|].
      destruct (collect_refs data (r0 :: rs)) as [|p c] eqn:Ec; [congruence|].
      cbn [fst snd]. rewrite dict_get_set_same.
      exists (argsort_entry (p :: c)). rewrite <- Ec.
      split; [reflexivity|]. split; [|split].
      * apply argsort_entry_ascending, collect_refs_nodup.
      * apply argsort_entry_nodup, collect_refs_nodup.
      * intro v. rewrite (weight_at_perm _ _ v (argsort_entry_perm _)).
        apply collect_refs_weight.
    + intros Hrefs e Hget.
      destruct (snd (fold_left (retarget_bone data) boneslist ([], false))); auto.
      rewrite cleanup_untouched by exact Habs. rewrite Hat.
      unfold retarget_bone. rewrite Hrefs, Hget. simpl.
      apply dict_get_set_same.
  - intros Habs (b & Hb & Hbrefs) Hdirect.
    destruct (absorbs_helpers_entry data (name bone) Habs) as (Hmem & Hmap & Hex).
    destruct (retarget_loop_at_fresh data boneslist bone Hnd Hin)
      as (st & Hst & Hat).
    destruct (retarget_bone_entry data st bone Hst Hmem Hdirect) as [Hnd1 Hw1].
    unfold retarget_weights.
    rewrite (retarget_loop_flag_in data boneslist b Hb Hbrefs).
    rewrite (cleanup_loop_at data extra_mapping (name bone) (helpers (name bone))
               _ extra_mapping_keys Hmap).
    unfold cleanup_step. cbn [fst snd]. rewrite Hmem.
    unfold dict_get_default in *. rewrite Hat.
    set (e1 := match dict_get (fst (retarget_bone data st bone)) (name bone) with
               | Some v => v
               | None => []
               end) in *.
    rewrite (dict_of_entry_nodup e1 Hnd1).
    destruct (cleanup_sources_spec data (helpers (name bone)) 0%nat (e1, false) Hnd1)
      as (Hn & _ & Hs).
    cbn [fst snd] in Hn, Hs. rewrite Hs, Hex. simpl.
    rewrite dict_get_set_same. eexists. split; [reflexivity|].
    split; [now apply argsort_entry_ascending|].
    split; [now apply argsort_entry_nodup|].
    intro v. rewrite (weight_at_perm _ _ v (argsort_entry_perm _)).
    destruct (cleanup_sources_spec data (helpers (name bone)) v (e1, false) Hnd1)
      as (_ & Hwv & _).
    cbn [fst snd] in Hwv. rewrite Hwv, Hw1. reflexivity.
Qed.

Lemma rig_names : NoDup (map name Examples.rig).
Proof. repeat constructor; simpl; intuition discriminate. Qed.

Lemma retarget_weights_sums_references_witness :
  (exists e,
     dict_get (retarget_weights Examples.rig Examples.source_weights) "neck_01"
       = Some e /\
     ascending e /\ NoDup (map fst e) /\
     forall v, weight_at e v
               == refs_weight Examples.source_weights ["neck01"; "neck02"]%string v) /\
  dict_get (retarget_weights Examples.rig Examples.source_weights) "spine_01"
    = Some [(4%nat, 1)] /\
  (exists e,
     dict_get (retarget_weights Examples.rig Examples.source_weights) "head"
       = Some e /\
     ascending e /\ NoDup (map fst e) /\
     forall v, weight_at e v
               == refs_weight Examples.source_weights ["head"]%string v
                  + refs_weight Examples.source_weights (helpers "head") v).
Proof.
  split.
  - refine (proj1 (proj1 (retarget_weights_sums_references Examples.rig
                     Examples.source_weights Examples.bone_neck rig_names _) _) _).
    + simpl. auto.
    + reflexivity.
    + exists "neck01"%string, [(2%nat, 0.5); (0%nat, 0.25)].
      split; [simpl; auto|]. split; [reflexivity | discriminate].
  - split.
    + refine (proj2 (proj1 (retarget_weights_sums_references Examples.rig
                       Examples.source_weights Examples.bone_spine rig_names _) _)
                _ _ _).
      * simpl. auto.
      * reflexivity.
      * reflexivity.
      * reflexivity.
    + refine (proj2 (retarget_weights_sums_references Examples.rig
                       Examples.source_weights Examples.bone_head rig_names _)
                _ _ _).
      * simpl. auto.
      * reflexivity.
      * exists Examples.bone_head. split; [simpl; auto | discriminate].
      * discriminate.
Defined.

(** C6, as stated, fails: [head] declares the single reference [head], whose
    source weight at vertex 2 is 0.25, but the clean-up pass merges the
    helper bone [jaw] into it and the stored weight is 0.5. *)
Lemma retarget_weights_merges_helpers :
  In Examples.bone_head Examples.rig /\
  effective_refs Examples.bone_head = ["head"%string] /\
  exists e,
    dict_get (retarget_weights Examples.rig Examples.source_weights) "head"
      = Some e /\
    weight_at e 2 == 0.5 /\
    refs_weight Examples.source_weights (effective_refs Examples.bone_head) 2
      == 0.25 /\
    ~ weight_at e 2
      == refs_weight Examples.source_weights (effective_refs Examples.bone_head) 2.
Proof.
  split; [simpl; auto|]. split; [reflexivity|].
  eexists. split; [vm_compute; reflexivity|].
  split; [vm_compute; reflexivity|].
  split; [vm_compute; reflexivity|].
  vm_compute. discriminate.
Qed.

End RetargetFacts.

(** ** Matrices *)

Lemma v4eq_refl a : v4eq a a.
Proof. repeat split; reflexivity. Qed.

Lemma meq_refl a : meq a a.
Proof. repeat split; reflexivity. Qed.

Lemma meq_sym a b : meq a b -> meq b a.
Proof.
  unfold meq, v4eq. intros H.
  repeat match goal with H : _ /\ _ |- _ => destruct H end.
  repeat split; symmetry; assumption.
Qed.

Lemma meq_trans a b c : meq a b -> meq b c -> meq a c.
Proof.
  unfold meq, v4eq. intros H K.
  repeat match goal with H : _ /\ _ |- _ => destruct H end.
  repeat split; etransitivity; eassumption.
Qed.

#[global] Instance meq_equiv : Equivalence meq.
Proof. split; [exact meq_refl | exact meq_sym | exact meq_trans]. Qed.

(** Unfolds matrix expressions down to their sixteen entries. *)
Ltac mat_unfold :=
  cbv beta iota zeta delta
    [meq v4eq mmul vrow mvec col dot4 transpose identity4 mscale v4scale
     adjugate det4 row0 row1 row2 row3 c0 c1 c2 c3] in *.

#[global] Instance mmul_proper : Proper (meq ==> meq ==> meq) mmul.
Proof.
  intros a a' Ha b b' Hb. mat_unfold.
  repeat match goal with H : _ /\ _ |- _ => destruct H end.
  repeat split;
    repeat match goal with H : _ == _ |- _ => rewrite H; clear H end;
    reflexivity.
Qed.

Lemma mmul_assoc a b c : meq (mmul (mmul a b) c) (mmul a (mmul b c)).
Proof. mat_unfold. repeat split; ring. Qed.

Lemma mmul_identity_r a : meq (mmul a identity4) a.
Proof. mat_unfold. repeat split; ring. Qed.

Lemma mmul_identity_l a : meq (mmul identity4 a) a.
Proof. mat_unfold. repeat split; ring. Qed.

Lemma adjugate_right m : meq (mmul m (adjugate m)) (mscale (det4 m) identity4).
Proof.
  destruct m as [[a00 a01 a02 a03] [a10 a11 a12 a13]
                 [a20 a21 a22 a23] [a30 a31 a32 a33]].
  mat_unfold. repeat split; ring.
Qed.

Lemma adjugate_left m : meq (mmul (adjugate m) m) (mscale (det4 m) identity4).
Proof.
  destruct m as [[a00 a01 a02 a03] [a10 a11 a12 a13]
                 [a20 a21 a22 a23] [a30 a31 a32 a33]].
  mat_unfold. repeat split; ring.
Qed.

Lemma mmul_mscale_r k a b : meq (mmul a (mscale k b)) (mscale k (mmul a b)).
Proof. mat_unfold. repeat split; ring. Qed.

Lemma mmul_mscale_l k a b : meq (mmul (mscale k a) b) (mscale k (mmul a b)).
Proof. mat_unfold. repeat split; ring. Qed.

#[global] Instance mscale_proper : Proper (Qeq ==> meq ==> meq) mscale.
Proof.
  intros k k' Hk a a' Ha. mat_unfold.
  repeat match goal with H : _ /\ _ |- _ => destruct H end.
  repeat split;
    repeat match goal with H : _ == _ |- _ => rewrite H; clear H end;
    reflexivity.
Qed.

Lemma mscale_inverse k d :
  k * d == 1 -> meq (mscale k (mscale d identity4)) identity4.
Proof.
  intro H. mat_unfold.
  repeat split; try ring; (transitivity (k * d); [ring | exact H]).
Qed.

(** [la.inv] returns a two-sided inverse, and raises only LinAlgError, on
    a matrix of determinant zero. *)
Lemma la_inv_ok m i :
  la_inv m = Ok i ->
  ~ det4 m == 0 /\ meq (mmul m i) identity4 /\ meq (mmul i m) identity4.
Proof.
  unfold la_inv. destruct (Qeq_bool (det4 m) 0) eqn:E; [discriminate|].
  intro H. injection H as <-.
  assert (Hd : ~ det4 m == 0).
  { intro Hz. apply Qeq_bool_iff in Hz. congruence. }
  assert (Hk : / det4 m * det4 m == 1) by (field; exact Hd).
  split; [exact Hd|]. split.
  - rewrite mmul_mscale_r, adjugate_right. now apply mscale_inverse.
  - rewrite mmul_mscale_l, adjugate_left. now apply mscale_inverse.
Qed.

Lemma la_inv_raise m e :
  la_inv m = Raise e -> e = LinAlgError /\ det4 m == 0.
Proof.
  unfold la_inv. destruct (Qeq_bool (det4 m) 0) eqn:E; [|discriminate].
  intro H. injection H as <-. split; auto. now apply Qeq_bool_iff.
Qed.

Lemma la_inv_nonsingular m :
  ~ det4 m == 0 -> exists i, la_inv m = Ok i.
Proof.
  intro H. unfold la_inv. destruct (Qeq_bool (det4 m) 0) eqn:E; eauto.
  apply Qeq_bool_iff in E. contradiction.
Qed.

(** ** Bone.update *)

Lemma update_is_update_bone s i :
  update s i =
  Ok match nth_error s i with
     | Some b => list_set s i (update_bone s b)
     | None => s
     end.
Proof.
  unfold update, update_bone.
  destruct (nth_error s i) as [b|]; [|reflexivity].
  destruct (la_inv (matRestGlobal b)) as [inv|e] eqn:E; simpl; [reflexivity|].
  apply la_inv_raise in E as [-> _]. reflexivity.
Qed.

Lemma nth_error_list_set_eq {A : Type} (l : list A) i v :
  (i < length l)%nat -> nth_error (list_set l i v) i = Some v.
Proof.
  revert i. induction l as [|h t IH]; intros i Hi; simpl in Hi; [lia|].
  destruct i as [|i]; simpl; auto. apply IH. lia.
Qed.

Lemma nth_error_list_set_neq {A : Type} (l : list A) i j v :
  i <> j -> nth_error (list_set l i v) j = nth_error l j.
Proof.
  revert i j. induction l as [|h t IH]; intros i j Hne; simpl.
  - destruct i; reflexivity.
  - destruct i as [|i], j as [|j]; simpl; auto; try congruence.
Qed.

Lemma det4_mmul a b : det4 (mmul a b) == det4 a * det4 b.
Proof.
  destruct a as [[a00 a01 a02 a03] [a10 a11 a12 a13]
                 [a20 a21 a22 a23] [a30 a31 a32 a33]].
  destruct b as [[b00 b01 b02 b03] [b10 b11 b12 b13]
                 [b20 b21 b22 b23] [b30 b31 b32 b33]].
  unfold det4, mmul, vrow, dot4, col. cbn [row0 row1 row2 row3 c0 c1 c2 c3].
  ring.
Qed.

Lemma det4_meq a b : meq a b -> det4 a == det4 b.
Proof.
  destruct a as [[a00 a01 a02 a03] [a10 a11 a12 a13]
                 [a20 a21 a22 a23] [a30 a31 a32 a33]].
  destruct b as [[b00 b01 b02 b03] [b10 b11 b12 b13]
                 [b20 b21 b22 b23] [b30 b31 b32 b33]].
  unfold meq, v4eq. cbn [row0 row1 row2 row3 c0 c1 c2 c3].
  intros ((H00 & H01 & H02 & H03) & (H10 & H11 & H12 & H13)
          & (H20 & H21 & H22 & H23) & (H30 & H31 & H32 & H33)).
  unfold det4. cbn [row0 row1 row2 row3 c0 c1 c2 c3].
  rewrite H00, H01, H02, H03, H10, H11, H12, H13,
          H20, H21, H22, H23, H30, H31, H32, H33.
  reflexivity.
Qed.

(** No product with a singular matrix on the left is the identity. *)
Lemma singular_product_not_identity a b :
  det4 a == 0 -> ~ meq (mmul a b) identity4.
Proof.
  intros Ha H. apply det4_meq in H. rewrite det4_mmul, Ha in H.
  vm_compute in H. discriminate.
Qed.



(** [update] is [update_np] over the exact inversion. *)
Lemma update_np_exact s i : update_np la_inv s i = update s i.
Proof. reflexivity. Qed.

(** ** The pose sweep over a skeleton at rest *)

Lemma update_bone_static s b : static (update_bone s b) = static b.
Proof. reflexivity. Qed.

Lemma update_bone_at_rest s b :
  meq (matPose b) identity4 ->
  match parent_bone s b with
  | Some pb =>
      meq (matPoseGlobal pb) (matRestGlobal pb) /\
      exists ip, la_inv (matRestGlobal pb) = Ok ip /\
                 meq (matRestRelative b) (mmul ip (matRestGlobal b))
  | None => meq (matRestRelative b) (matRestGlobal b)
  end ->
  posed_at_rest (update_bone s b).
Proof.
  intros Hpose Hpar.
  assert (Hg : meq (matPoseGlobal (update_bone s b)) (matRestGlobal b)).
  { unfold update_bone. simpl.
    destruct (parent_bone s b) as [pb|].
    - destruct Hpar as (Hpg & ip & Hip & Hrel).
      destruct (la_inv_ok _ _ Hip) as (_ & Hr & _).
      rewrite Hpg, Hrel, Hpose, mmul_identity_r, <- mmul_assoc, Hr.
      apply mmul_identity_l.
    - rewrite Hpar, Hpose. apply mmul_identity_r. }
  split; [exact Hg|].
  unfold update_bone in *. simpl in *.
  destruct (la_inv (matRestGlobal b)) as [inv|e] eqn:E; [|reflexivity].
  destruct (la_inv_ok _ _ E) as (_ & Hr & _).
  now rewrite Hg.
Qed.

Lemma swept_step s0 k s :
  parents_first s0 -> rest_consistent s0 ->
  (forall b, In b s0 -> meq (matPose b) identity4) ->
  (k < length s0)%nat ->
  swept s0 k s ->
  exists s', update s k = Ok s' /\ swept s0 (S k) s'.
Proof.
  intros Hpf Hrc Hid Hk [Hlen Hinv].
  rewrite update_is_update_bone.
  destruct (nth_error s0 k) as [b0|] eqn:E0;
    [|apply nth_error_None in E0; lia].
  destruct (Hinv k b0 E0) as (b & Eb & Hst & _). rewrite Eb.
  eexists. split; [reflexivity|]. split.
  - now rewrite list_set_length.
  - intros j c0 Hc0. destruct (Nat.eq_dec k j) as [<-|Hne].
    + rewrite nth_error_list_set_eq by (rewrite Hlen; assumption).
      assert (c0 = b0) by congruence. subst c0.
      eexists. split; [reflexivity|]. split.
      * now rewrite update_bone_static.
      * intros _. unfold static in Hst.
        injection Hst as Hn Hp Hrg Hrr Hmp.
        apply update_bone_at_rest.
        { rewrite Hmp. apply Hid. eapply nth_error_In; eassumption. }
        pose proof (Hrc k b0 E0) as Hcons.
        unfold rest_consistent_at, parent_bone in *. rewrite Hp.
        destruct (parent b0) as [p|] eqn:Ep.
        -- pose proof (Hpf k b0 p E0 Ep) as Hlt.
           destruct (nth_error s0 p) as [pb0|] eqn:Ep0;
             [|apply nth_error_None in Ep0; lia].
           destruct (Hinv p pb0 Ep0) as (pb & Epb & Hpst & Hrest).
           rewrite Epb. unfold static in Hpst.
           injection Hpst as _ _ Hprg _ _.
           destruct (Hrest Hlt) as [Hpg _].
           destruct Hcons as (ip & Hip & Hrel).
           split; [exact Hpg|]. exists ip.
           rewrite Hprg, Hrr, Hrg. auto.
        -- rewrite Hrr, Hrg. exact Hcons.
    + rewrite nth_error_list_set_neq by assumption.
      destruct (Hinv j c0 Hc0) as (c & Ec & Hcs & Hcr).
      exists c. split; [exact Ec|]. split; [exact Hcs|].
      intro Hlt. apply Hcr. lia.
Qed.

Lemma swept_prefix s0 :
  parents_first s0 -> rest_consistent s0 ->
  (forall b, In b s0 -> meq (matPose b) identity4) ->
  forall k, (k <= length s0)%nat ->
    exists s, for_each update (seq 0 k) s0 = Ok s /\ swept s0 k s.
Proof.
  intros Hpf Hrc Hid. induction k as [|k IH]; intro Hk.
  - exists s0. split; [reflexivity|]. split; auto.
    intros j b0 Hb. exists b0. split; [exact Hb|]. split; [reflexivity|]. lia.
  - destruct IH as (s & Hs & Hsw); [lia|].
    destruct (swept_step s0 k s Hpf Hrc Hid Hk Hsw) as (s' & Hu & Hsw').
    exists s'. split; [|exact Hsw'].
    rewrite seq_S, for_each_app, Hs. simpl. now rewrite Hu.
Qed.

(** With every local pose matrix the identity, the sweep leaves every bone
    at rest: its skinning matrix is the identity. *)
Lemma update_all_at_rest s0 :
  parents_first s0 -> rest_consistent s0 ->
  (forall b, In b s0 -> meq (matPose b) identity4) ->
  exists s, update_all s0 = Ok s /\
            length s = length s0 /\
            map name s = map name s0 /\
            forall b, In b s -> meq (matPoseVerts b) identity4.
Proof.
  intros Hpf Hrc Hid.
  destruct (swept_prefix s0 Hpf Hrc Hid (length s0) (le_n _))
    as (s & Hs & Hlen & Hinv).
  exists s. split; [exact Hs|]. split; [exact Hlen|]. split.
  - apply nth_error_ext. intro j. rewrite !nth_error_map.
    destruct (nth_error s0 j) as [b0|] eqn:E0.
    + destruct (Hinv j b0 E0) as (b & Eb & Hst & _). rewrite Eb. simpl.
      unfold static in Hst. injection Hst as Hn _ _ _ _. now rewrite Hn.
    + apply nth_error_None in E0. rewrite <- Hlen in E0.
      apply nth_error_None in E0. now rewrite E0.
  - intros b Hb. apply In_nth_error in Hb as [j Hj].
    assert (Hlt : (j < length s0)%nat).
    { rewrite <- Hlen. apply nth_error_Some. congruence. }
    destruct (nth_error s0 j) as [b0|] eqn:E0;
      [|apply nth_error_None in E0; lia].
    destruct (Hinv j b0 E0) as (b' & Eb & _ & Hr).
    assert (b' = b) by congruence. subst b'. exact (proj2 (Hr Hlt)).
Qed.

(** ** Linear blend skinning *)

Section SkinFacts.
Import Weights Skin.

Lemma gather_loop_spec verts idx : forall acc vs,
  for_each
    (fun acc i =>
       match nth_error verts i with
       | Some v => Ok (acc ++ [v])
       | None => Raise IndexError
       end) idx acc = Ok vs ->
  vs = acc ++ map (fun i => nth i verts vzero) idx.
Proof.
  induction idx as [|i idx IH]; intros acc vs H; simpl in H.
  - injection H as <-. now rewrite app_nil_r.
  - destruct (nth_error verts i) as [v|] eqn:E; simpl in H; [|discriminate].
    rewrite (IH _ _ H), <- app_assoc. simpl.
    now rewrite (nth_error_nth _ _ _ E).
Qed.

Lemma gather_spec verts idx vs :
  gather verts idx = Ok vs -> vs = map (fun i => nth i verts vzero) idx.
Proof. intro H. exact (gather_loop_spec verts idx [] vs H). Qed.

Lemma weighted_rows_gathered mat verts (e : Entry) :
  weighted_rows mat (map (fun i => nth i verts vzero) (map fst e)) e =
  map (fun p => (fst p, vscale (snd p) (transform_point mat (nth (fst p) verts vzero))))
    e.
Proof.
  unfold weighted_rows. induction e as [|p e IH]; simpl; auto.
  now rewrite IH.
Qed.

Lemma last_upd_loop_notin {B : Type} (l : list (nat * B)) j o :
  ~ In j (map fst l) ->
  fold_left (fun o p => if (fst p =? j)%nat then Some (snd p) else o) l o = o.
Proof.
  revert o. induction l as [|p l IH]; intros o H; simpl in *; auto.
  rewrite IH by tauto.
  destruct (fst p =? j)%nat eqn:E; auto.
  apply Nat.eqb_eq in E. tauto.
Qed.

Lemma last_upd_loop_unique {B : Type} (l : list (nat * B)) j x o :
  NoDup (map fst l) -> In (j, x) l ->
  fold_left (fun o p => if (fst p =? j)%nat then Some (snd p) else o) l o
  = Some x.
Proof.
  revert o. induction l as [|p l IH]; intros o Hnd Hin; simpl in *; [tauto|].
  inversion Hnd as [|? ? Hni Hnd']; subst.
  destruct Hin as [->|Hin].
  - simpl. rewrite Nat.eqb_refl. now apply last_upd_loop_notin.
  - now apply IH.
Qed.

Lemma transform_point_identity mat v :
  meq mat identity4 -> veq (transform_point mat v) v.
Proof.
  intro H. unfold transform_point, veq. mat_unfold. simpl.
  repeat match goal with H : _ /\ _ |- _ => destruct H end.
  repeat split;
    repeat match goal with H : _ == _ |- _ => rewrite H; clear H end; ring.
Qed.

Lemma vscale_add k w v : veq (vadd (vscale k v) (vscale w v)) (vscale (k + w) v).
Proof. unfold veq, vadd, vscale; simpl. repeat split; ring. Qed.

Lemma vscale_one v : veq (vscale 1 v) v.
Proof. unfold veq, vscale; simpl. repeat split; ring. Qed.

Lemma vscale_zero v : veq vzero (vscale 0 v).
Proof. unfold veq, vscale, vzero; simpl. repeat split; ring. Qed.

Lemma lbs_step_lengths bm verts st (kv : string * Entry) st' :
  lbs_step bm verts st kv = Ok st' ->
  length (fst st') = length (fst st) /\ length (snd st') = length (snd st).
Proof.
  unfold lbs_step. destruct (dict_get bm (fst kv)) as [mat|].
  - intro H. apply bind_ok in H as (vs & _ & H).
    apply bind_ok in H as (d & Hd & H). apply bind_ok in H as (t & Ht & H).
    injection H as <-. simpl. split.
    + unfold fancy_iadd in Hd.
      destruct (in_range _ _); [|discriminate]. injection Hd as <-.
      apply scatter_add_length.
    + apply add_at_spec in Ht. tauto.
  - intro H. injection H as <-. auto.
Qed.

Lemma lbs_step_accumulated bm verts W st (kv : string * Entry) st' :
  (forall mat, dict_get bm (fst kv) = Some mat -> meq mat identity4) ->
  NoDup (map fst (snd kv)) ->
  accumulated verts W st ->
  lbs_step bm verts st kv = Ok st' ->
  accumulated verts
    (fun j => W j + (if dict_mem bm (fst kv) then weight_at (snd kv) j else 0)) st'.
Proof.
  intros Hid Hnd (Hl1 & Hl2 & Hacc) Hstep.
  destruct (lbs_step_lengths _ _ _ _ _ Hstep) as [Hl1' Hl2'].
  split; [congruence|]. split; [congruence|].
  intros j Hj. destruct (Hacc j Hj) as [Hd Ht].
  unfold lbs_step, dict_mem in *.
  destruct (dict_get bm (fst kv)) as [mat|] eqn:Ebm.
  - specialize (Hid mat eq_refl). rewrite ?Ebm in Hstep.
    apply bind_ok in Hstep as (vs & Hvs & Hstep).
    apply bind_ok in Hstep as (d & Hdef & Hstep).
    apply bind_ok in Hstep as (t & Htot & Hstep).
    injection Hstep as <-. simpl.
    apply gather_spec in Hvs. subst vs.
    rewrite weighted_rows_gathered in Hdef.
    unfold fancy_iadd in Hdef.
    destruct (in_range (length (fst st)) _) eqn:Hr; [|discriminate].
    injection Hdef as <-.
    apply add_at_spec in Htot as [_ Htot].
    assert (Htj : nth j t 0 == nth j (snd st) 0 + weight_at (snd kv) j).
    { apply Htot. lia. }
    split; [|rewrite Htj, Ht; reflexivity].
    rewrite nth_scatter_add by exact Hr. unfold last_upd.
    destruct (in_dec Nat.eq_dec j (map fst (snd kv))) as [Hin|Hni].
    + apply in_map_iff in Hin as ([j' w] & Hfst & Hin). simpl in Hfst. subst j'.
      rewrite (last_upd_loop_unique _ j
                 (vscale w (transform_point mat (nth j verts vzero)))).
      * rewrite Htj, (weight_at_unique _ _ _ Hnd Hin), Hd.
        rewrite (transform_point_identity mat _ Hid). apply vscale_add.
      * rewrite map_map. simpl. exact Hnd.
      * apply in_map_iff. exists (j, w). auto.
    + rewrite last_upd_loop_notin by (rewrite map_map; simpl; exact Hni).
      rewrite Htj, (weight_at_notin _ _ Hni), Hd.
      apply vscale_proper; [ring | reflexivity].
  - rewrite ?Ebm in Hstep. injection Hstep as <-.
    split; [exact Hd|]. rewrite Ht. ring.
Qed.

Lemma lbs_loop_accumulated bm verts
    (Hid : forall k mat, dict_get bm k = Some mat -> meq mat identity4)
    (wd : dict Entry) : forall W st st',
  (forall k e, In (k, e) wd -> NoDup (map fst e)) ->
  accumulated verts W st ->
  for_each (lbs_step bm verts) wd st = Ok st' ->
  accumulated verts
    (fun j => W j + fold_right
                      (fun kv acc =>
                         if dict_mem bm (fst kv) then weight_at (snd kv) j + acc
                         else acc) 0 wd) st'.
Proof.
  induction wd as [|[k e] wd IH]; intros W st st' Hnd Hacc H; simpl in H.
  - injection H as <-. destruct Hacc as (H1 & H2 & H3).
    split; auto. split; auto. intros j Hj. destruct (H3 j Hj) as [Ha Hb].
    split; auto. rewrite Hb. simpl. ring.
  - apply bind_ok in H as (st1 & Hstep & Hrest).
    assert (Hacc1 := lbs_step_accumulated bm verts W st (k, e) st1
                       (Hid k) (Hnd k e (or_introl eq_refl)) Hacc Hstep).
    specialize (IH _ _ _ (fun k' e' Hin => Hnd k' e' (or_intror Hin)) Hacc1 Hrest).
    destruct IH as (H1 & H2 & H3). split; auto. split; auto.
    intros j Hj. destruct (H3 j Hj) as [Ha Hb]. split; auto.
    rewrite Hb. simpl. destruct (dict_mem bm k); ring.
Qed.

Lemma dict_get_set_inv {V : Type} (d : dict V) k x k' v :
  dict_get (dict_set d k x) k' = Some v ->
  (k = k' /\ v = x) \/ dict_get d k' = Some v.
Proof.
  destruct (string_dec k k') as [<-|Hne].
  - rewrite dict_get_set_same. intro H. injection H as <-. now left.
  - rewrite dict_get_set_other by assumption. now right.
Qed.

Lemma bone_matrices_values bones k mat :
  dict_get (bone_matrices bones) k = Some mat ->
  exists b, In b bones /\ mat = matPoseVerts b.
Proof.
  unfold bone_matrices.
  assert (H : forall d,
    dict_get (fold_left (fun d b => dict_set d (name b) (matPoseVerts b)) bones d) k
      = Some mat ->
    (exists b, In b bones /\ mat = matPoseVerts b) \/ dict_get d k = Some mat).
  { induction bones as [|b bones IH]; intros d Hd; simpl in *; [now right|].
    destruct (IH _ Hd) as [(b' & Hin & ->)|Hset].
    - left. eauto.
    - apply dict_get_set_inv in Hset as [[_ ->]|Hset]; [left; eauto | now right]. }
  intro Hget. destruct (H [] Hget) as [?|Hnil]; [assumption | discriminate].
Qed.

Lemma nth_map_const {A B : Type} (l : list A) (c : B) j :
  nth j (map (fun _ => c) l) c = c.
Proof.
  revert j. induction l as [|a l IH]; intros [|j]; simpl; auto.
Qed.

Lemma nth_unskinned_fallback d t v j :
  (j < length d)%nat ->
  nth j (unskinned_fallback d t v) vzero =
  if Qlt_bool (nth j t 0) 0.01 then nth j v vzero else nth j d vzero.
Proof.
  intro Hj. unfold unskinned_fallback.
  set (f := fun j => if Qlt_bool (nth j t 0) 0.01 then nth j v vzero
                     else nth j d vzero).
  rewrite (nth_indep _ vzero (f 0%nat)) by (now rewrite length_map, length_seq).
  rewrite map_nth, seq_nth by assumption. reflexivity.
Qed.

Lemma lbs_accumulate_lengths bones wd verts d t :
  lbs_accumulate bones wd verts = Ok (d, t) ->
  length d = length verts /\ length t = length verts.
Proof.
  unfold lbs_accumulate.
  assert (H : forall st st',
    for_each (lbs_step (bone_matrices bones) verts) wd st = Ok st' ->
    length (fst st') = length (fst st) /\ length (snd st') = length (snd st)).
  { induction wd as [|kv wd IH]; intros st st' H; simpl in H.
    - injection H as <-. auto.
    - apply bind_ok in H as (st1 & H1 & H2).
      apply lbs_step_lengths in H1. apply IH in H2. split; lia. }
  intro Hacc. apply H in Hacc. simpl in Hacc.
  now rewrite !length_map in Hacc.
Qed.

(** With identity skinning matrices the output of the preview skinning is
    the accumulated weight times the rest position, wherever that weight is
    not below 0.01. *)
Lemma skin_preview_identity bones wd verts j :
  (forall b, In b bones -> meq (matPoseVerts b) identity4) ->
  (forall k e, In (k, e) wd -> NoDup (map fst e)) ->
  (j < length verts)%nat ->
  skinned_weight bones wd j == 1 ->
  veq (nth j (skin_preview bones wd verts) vzero) (nth j verts vzero).
Proof.
  intros Hid Hnd Hj Hw. unfold skin_preview.
  destruct (lbs_accumulate bones wd verts) as [[d t]|e] eqn:E; [|reflexivity].
  destruct (lbs_accumulate_lengths _ _ _ _ _ E) as [Hld Hlt].
  rewrite nth_unskinned_fallback by lia.
  unfold lbs_accumulate in E.
  assert (Hbm : forall k mat,
            dict_get (bone_matrices bones) k = Some mat -> meq mat identity4).
  { intros k mat Hget. apply bone_matrices_values in Hget as (b & Hb & ->). auto. }
  assert (H0 : accumulated verts (fun _ => 0)
                 (map (fun _ => vzero) verts, map (fun _ : V3 => 0) verts)).
  { split; [apply length_map|]. split; [apply length_map|].
    intros i Hi. simpl. rewrite !nth_map_const.
    split; [apply vscale_zero | reflexivity]. }
  destruct (lbs_loop_accumulated _ verts Hbm wd _ _ _ Hnd H0 E) as (_ & _ & Hacc).
  destruct (Hacc j Hj) as [Hd Ht]. simpl in Hd, Ht.
  fold (skinned_weight bones wd j) in Ht.
  assert (Ht1 : nth j t 0 == 1) by (rewrite Ht, Hw; ring).
  rewrite Ht1. simpl. rewrite Hd, Ht1. apply vscale_one.
Qed.


Lemma rest_rig_parents_first : parents_first Examples.rest_rig.
Proof.
  intros i b p Hb Hp. destruct i as [|[|i]]; simpl in Hb.
  - injection Hb as <-. discriminate.
  - injection Hb as <-. injection Hp as <-. lia.
  - destruct i; discriminate.
Qed.

Lemma rest_rig_consistent : rest_consistent Examples.rest_rig.
Proof.
  intros i b Hb. unfold rest_consistent_at.
  destruct i as [|[|i]]; simpl in Hb.
  - injection Hb as <-. apply meq_refl.
  - injection Hb as <-. simpl. eexists. split; [reflexivity|].
    vm_compute. repeat split; reflexivity.
  - destruct i; discriminate.
Qed.

Lemma skin_weights_nodup :
  forall k e, In (k, e) Examples.skin_weights -> NoDup (map fst e).
Proof.
  intros k e Hin. unfold Examples.skin_weights in Hin.
  repeat (destruct Hin as [Hin|Hin];
          [injection Hin as <- <-; repeat constructor; simpl; intuition lia|]).
  destruct Hin.
Qed.

Lemma arm_a_parents_first : parents_first Examples.arm_a.
Proof.
  intros i b p Hb Hp. destruct i as [|[|[|i]]]; simpl in Hb.
  - injection Hb as <-. discriminate.
  - injection Hb as <-. injection Hp as <-. lia.
  - injection Hb as <-. injection Hp as <-. lia.
  - destruct i; discriminate.
Qed.

Lemma arm_a_consistent : rest_consistent Examples.arm_a.
Proof.
  intros i b Hb. unfold rest_consistent_at.
  destruct i as [|[|[|i]]]; simpl in Hb.
  - injection Hb as <-. apply meq_refl.
  - injection Hb as <-. simpl. eexists. split; [reflexivity|].
    vm_compute. repeat split; reflexivity.
  - injection Hb as <-. simpl. eexists. split; [reflexivity|].
    vm_compute. repeat split; reflexivity.
  - destruct i; discriminate.
Qed.

Lemma arm_weights_nodup :
  forall k e, In (k, e) Examples.arm_weights -> NoDup (map fst e).
Proof.
  intros k e Hin. unfold Examples.arm_weights in Hin.
  repeat (destruct Hin as [Hin|Hin];
          [injection Hin as <- <-; repeat constructor; simpl; intuition lia|]).
  destruct Hin.
Qed.



(** The fallback of the preview skinning: a vertex whose accumulated weight
    is below 0.01 keeps its rest position exactly, any other vertex gets
    the accumulated sum as it is (no division by the total weight); when
    the accumulation raises, the mesh is returned unchanged. *)
Lemma skin_preview_fallback bones wd verts j :
  (j < length verts)%nat ->
  match lbs_accumulate bones wd verts with
  | Ok (deformed, total_weight) =>
      (nth j total_weight 0 < 0.01 ->
       nth j (skin_preview bones wd verts) vzero = nth j verts vzero) /\
      (0.01 <= nth j total_weight 0 ->
       nth j (skin_preview bones wd verts) vzero = nth j deformed vzero)
  | Raise _ => skin_preview bones wd verts = verts
  end.
Proof.
  intro Hj. unfold skin_preview.
  destruct (lbs_accumulate bones wd verts) as [[d t]|e] eqn:E; [|reflexivity].
  destruct (lbs_accumulate_lengths _ _ _ _ _ E) as [Hld _].
  rewrite nth_unskinned_fallback by lia. split; intro H.
  - apply Qlt_bool_iff in H. now rewrite H.
  - apply Qlt_bool_false in H. now rewrite H.
Qed.

(** C3 (the skinning of [PoseStudio._apply_pose] lacks the fallback).
    Vertex 1 is weighted to a bone the skeleton does not have, so its
    accumulated weight is 0: the preview skinning returns it at its rest
    position (1, 2, 3), the pose-studio skinning at the origin. *)
Theorem pose_studio_skinning_has_no_fallback :
  exists out,
    skin_pose_studio Examples.rest_rig (Some Examples.skin_weights) Examples.mesh3
      = Ok out /\
    nth 1 out vzero = vzero /\
    nth 1 Examples.mesh3 vzero = mkV3 1 2 3 /\
    skinned_weight Examples.rest_rig Examples.skin_weights 1 == 0 /\
    nth 1 (skin_preview Examples.rest_rig Examples.skin_weights Examples.mesh3) vzero
      = mkV3 1 2 3.
Proof.
  eexists. split; [vm_compute; reflexivity|].
  repeat split; vm_compute; reflexivity.
Qed.

End SkinFacts.

(** ** Pose transfer *)

Section PoseTransferFacts.
Import PoseTransfer.

Variable normalize : V3 -> V3.
Variable rotx : Q -> M44.
Variable rotate : Q -> V3 -> M44.
Variable arccos : Q -> Q.
Variable degrees : Q -> Q.

Lemma Forall2_nth_error_l {A B : Type} (R : A -> B -> Prop) l l' j x :
  Forall2 R l l' -> nth_error l j = Some x ->
  exists y, nth_error l' j = Some y /\ R x y.
Proof.
  intro H. revert j. induction H as [|a b l l' Hab H IH]; intros j Hj.
  - destruct j; discriminate.
  - destruct j as [|j]; simpl in *.
    + injection Hj as <-. eauto.
    + now apply IH.
Qed.

Lemma Forall2_list_set {A B : Type} (R : A -> B -> Prop) l l' i x y :
  Forall2 R l l' -> R x y -> Forall2 R (list_set l i x) (list_set l' i y).
Proof.
  intros H Hxy. revert i. induction H as [|a b l l' Hab H IH]; intro i; simpl.
  - constructor.
  - destruct i; constructor; auto.
Qed.

Lemma parents_first_list_set s k x x' :
  parents_first s -> nth_error s k = Some x -> parent x' = parent x ->
  parents_first (list_set s k x').
Proof.
  intros Hpf Hk Hp i b p Hb Hbp.
  assert (Hlt : (k < length s)%nat) by (apply nth_error_Some; congruence).
  destruct (Nat.eq_dec k i) as [<-|Hne].
  - rewrite nth_error_list_set_eq in Hb by assumption. injection Hb as <-.
    apply (Hpf k x p Hk). congruence.
  - rewrite nth_error_list_set_neq in Hb by assumption. eapply Hpf; eauto.
Qed.

Lemma update_bone_eq a b x y :
  same_rest_bone x y -> matPose x = matPose y ->
  parent_bone a x = parent_bone b y ->
  update_bone a x = update_bone b y.
Proof.
  intros (Hn & Hp & Hh & Ht & Hr & Hw & Hg & Hl) Hm Hpar.
  unfold update_bone, set_pose_derived.
  rewrite Hpar, Hn, Hp, Hh, Ht, Hr, Hw, Hg, Hl, Hm. reflexivity.
Qed.

Lemma same_rest_update_bone a b x y :
  same_rest_bone x y -> same_rest_bone (update_bone a x) (update_bone b y).
Proof. intro H. exact H. Qed.

(** One bone of the reset loop, run on two states that agree on the rest
    configuration and on the bones already reset. *)
Lemma reset_bone_agree a b k :
  parents_first a -> same_rest a b ->
  (forall j, (j < k)%nat -> nth_error a j = nth_error b j) ->
  (k < length a)%nat ->
  exists a' b',
    reset_bone a k = Ok a' /\ reset_bone b k = Ok b' /\
    length a' = length a /\
    parents_first a' /\ same_rest a' b' /\
    (forall j, (j < S k)%nat -> nth_error a' j = nth_error b' j).
Proof.
  intros Hpf Hsr Hlow Hk.
  pose proof (Forall2_length Hsr) as Hlen.
  destruct (nth_error a k) as [x|] eqn:Ex; [|apply nth_error_None in Ex; lia].
  destruct (Forall2_nth_error_l _ _ _ _ _ Hsr Ex) as (y & Ey & Hxy).
  unfold reset_bone. rewrite Ex, Ey, !update_is_update_bone.
  rewrite !nth_error_list_set_eq by lia.
  set (x' := set_matPose x identity4). set (y' := set_matPose y identity4).
  assert (Hxy' : same_rest_bone x' y') by exact Hxy.
  assert (Hpar : parent_bone (list_set a k x') x' = parent_bone (list_set b k y') y').
  { unfold parent_bone. simpl. destruct Hxy as (_ & Hp & _). rewrite <- Hp.
    destruct (parent x) as [p|] eqn:Ep; [|reflexivity].
    pose proof (Hpf k x p Ex Ep) as Hlt.
    rewrite !nth_error_list_set_neq by lia. apply Hlow. exact Hlt. }
  assert (Heq : update_bone (list_set a k x') x' = update_bone (list_set b k y') y')
    by (apply update_bone_eq; auto).
  eexists. eexists. split; [reflexivity|]. split; [reflexivity|].
  split; [now rewrite !list_set_length|]. split; [|split].
  - apply parents_first_list_set with (x := x').
    + now apply parents_first_list_set with (x := x).
    + apply nth_error_list_set_eq. lia.
    + reflexivity.
  - apply Forall2_list_set; [now apply Forall2_list_set|].
    now apply same_rest_update_bone.
  - intros j Hj. destruct (Nat.eq_dec k j) as [<-|Hne].
    + rewrite !nth_error_list_set_eq by (rewrite list_set_length; lia).
      now rewrite Heq.
    + rewrite !nth_error_list_set_neq by assumption. apply Hlow. lia.
Qed.

Lemma reset_prefix_agree s1 s2 :
  parents_first s1 -> same_rest s1 s2 ->
  forall k, (k <= length s1)%nat ->
    exists a b,
      for_each reset_bone (seq 0 k) s1 = Ok a /\
      for_each reset_bone (seq 0 k) s2 = Ok b /\
      length a = length s1 /\
      parents_first a /\ same_rest a b /\
      (forall j, (j < k)%nat -> nth_error a j = nth_error b j).
Proof.
  intros Hpf Hsr. induction k as [|k IH]; intro Hk.
  - exists s1, s2. repeat split; auto. intros j Hj. lia.
  - destruct IH as (a & b & Ha & Hb & Hl & Hpa & Hab & Hlow); [lia|].
    destruct (reset_bone_agree a b k Hpa Hab Hlow) as
      (a' & b' & Ha' & Hb' & Hl' & Hpa' & Hab' & Hlow'); [lia|].
    exists a', b'. rewrite seq_S, !for_each_app, Ha, Hb. simpl.
    rewrite Ha', Hb'. repeat split; auto. congruence.
Qed.

(** After the reset loop nothing of the earlier pose is left. *)
Lemma reset_pose_forgets s1 s2 :
  parents_first s1 -> same_rest s1 s2 ->
  exists s, reset_pose s1 = Ok s /\ reset_pose s2 = Ok s.
Proof.
  intros Hpf Hsr. pose proof (Forall2_length Hsr) as Hlen.
  destruct (reset_prefix_agree s1 s2 Hpf Hsr (length s1) (le_n _))
    as (a & b & Ha & Hb & Hl & _ & Hab & Hlow).
  exists a. unfold reset_pose. rewrite <- Hlen, Ha, Hb. split; auto.
  f_equal. symmetry. apply nth_error_ext. intro j.
  destruct (Nat.lt_ge_cases j (length s1)) as [Hj|Hj]; [now apply Hlow|].
  pose proof (Forall2_length Hab) as Hlab.
  assert (H1 : nth_error a j = None) by (apply nth_error_None; lia).
  assert (H2 : nth_error b j = None) by (apply nth_error_None; lia).
  congruence.
Qed.

(** C10.  [apply_pose] first resets every bone to the identity pose and
    refreshes its derived matrices, parents before children; two calls
    with the same landmarks on two states of one skeleton rest
    configuration therefore end in the same state (or raise the same
    exception), whatever pose matrices the bones held before. *)
Theorem apply_pose_forgets_previous_pose
    (s1 s2 : list Bone) (openpose_data : dict V3) :
  parents_first s1 -> same_rest s1 s2 ->
  apply_pose normalize rotx rotate arccos degrees s1 openpose_data
  = apply_pose normalize rotx rotate arccos degrees s2 openpose_data.
Proof.
  intros Hpf Hsr. unfold apply_pose.
  destruct (reset_pose_forgets s1 s2 Hpf Hsr) as (s & H1 & H2).
  now rewrite H1, H2.
Qed.

End PoseTransferFacts.

Lemma arm_same_rest : PoseTransfer.same_rest Examples.arm_a Examples.arm_b.
Proof.
  repeat constructor.
Qed.

Lemma apply_pose_forgets_previous_pose_witness :
  PoseTransfer.apply_pose Examples.keep_vector Examples.half_turn_x
    Examples.quarter_turn_z Examples.keep_angle Examples.keep_angle
    Examples.arm_a Examples.landmarks
  = PoseTransfer.apply_pose Examples.keep_vector Examples.half_turn_x
      Examples.quarter_turn_z Examples.keep_angle Examples.keep_angle
      Examples.arm_b Examples.landmarks.
Proof.
  apply apply_pose_forgets_previous_pose.
  - exact arm_a_parents_first.
  - exact arm_same_rest.
Defined.

(** The call of the witness returns a posed skeleton (it does not raise). *)
Lemma apply_pose_example_returns :
  exists s,
    PoseTransfer.apply_pose Examples.keep_vector Examples.half_turn_x
      Examples.quarter_turn_z Examples.keep_angle Examples.keep_angle
      Examples.arm_b Examples.landmarks = Ok s /\
    length s = 3%nat.
Proof.
  eexists. split; [vm_compute; reflexivity | reflexivity].
Qed.

(** ** The CCD rotation step *)

Section CCDFacts.
Import CCD.
Local Open Scope R_scope.

Lemma sum_squares_pos x y z : x <> 0 \/ y <> 0 \/ z <> 0 -> 0 < x * x + y * y + z * z.
Proof.
  intro H.
  pose proof (Rle_0_sqr x) as Hx. pose proof (Rle_0_sqr y) as Hy.
  pose proof (Rle_0_sqr z) as Hz. unfold Rsqr in *.
  destruct H as [H|[H|H]]; apply Rsqr_pos_lt in H; unfold Rsqr in H; lra.
Qed.

Lemma norm3_pos x y z : x <> 0 \/ y <> 0 \/ z <> 0 -> 0 < norm3 x y z.
Proof. intro H. apply sqrt_lt_R0. now apply sum_squares_pos. Qed.

(** A non-zero vector divided by its norm has norm 1. *)
Lemma norm3_normalized x y z :
  x <> 0 \/ y <> 0 \/ z <> 0 ->
  norm3 (x / norm3 x y z) (y / norm3 x y z) (z / norm3 x y z) = 1.
Proof.
  intro H. pose proof (sum_squares_pos x y z H) as Hs.
  pose proof (norm3_pos x y z H) as Hn.
  assert (Hsq : norm3 x y z * norm3 x y z = x * x + y * y + z * z).
  { unfold norm3. apply sqrt_sqrt. lra. }
  set (n := norm3 x y z) in *.
  unfold norm3 at 1.
  replace (x / n * (x / n) + y / n * (y / n) + z / n * (z / n))
    with ((x * x + y * y + z * z) / (n * n)) by (field; lra).
  rewrite Hsq.
  replace ((x * x + y * y + z * z) / (x * x + y * y + z * z)) with 1
    by (field; lra).
  apply sqrt_1.
Qed.

(** C9.  The rotation step of the CCD loop keeps the translation column of
    the bone's local pose matrix exactly, and leaves each of the three
    basis columns with Euclidean norm 1, provided the column of the rotated
    matrix it normalises is not the zero vector. *)
Theorem ccd_rotate_keeps_translation_unit_columns (matPose rot_local : RM44) :
  translation (ccd_rotate matPose rot_local) = translation matPose /\
  (col_nonzero e0 (rmmul matPose rot_local) ->
   col_norm e0 (ccd_rotate matPose rot_local) = 1) /\
  (col_nonzero e1 (rmmul matPose rot_local) ->
   col_norm e1 (ccd_rotate matPose rot_local) = 1) /\
  (col_nonzero e2 (rmmul matPose rot_local) ->
   col_norm e2 (ccd_rotate matPose rot_local) = 1).
Proof.
  split; [reflexivity|].
  unfold col_nonzero, col_norm, ccd_rotate.
  repeat split; intro H; simpl in *; now apply norm3_normalized.
Qed.

(** The determinant of the linear part is multiplicative when the right
    factor has an affine last row. *)
Lemma det3_rmmul a b :
  last_row_affine b -> det3 (rmmul a b) = det3 a * det3 b.
Proof.
  intros (H0 & H1 & H2).
  destruct a as [[a00 a01 a02 a03] [a10 a11 a12 a13]
                 [a20 a21 a22 a23] [a30 a31 a32 a33]].
  destruct b as [[b00 b01 b02 b03] [b10 b11 b12 b13]
                 [b20 b21 b22 b23] [b30 b31 b32 b33]].
  unfold det3, rmmul, rvrow, rcol, rdot4 in *. simpl in *. subst. ring.
Qed.

Lemma det3_zero_col (j : RV4 -> R) m :
  (j = e0 \/ j = e1 \/ j = e2) ->
  j (rw0 m) = 0 -> j (rw1 m) = 0 -> j (rw2 m) = 0 -> det3 m = 0.
Proof.
  intros Hj H0 H1 H2. unfold det3.
  destruct Hj as [ -> | [ -> | -> ] ]; rewrite H0, H1, H2; ring.
Qed.

(** A pose matrix with invertible linear part, rotated by a matrix with
    invertible linear part and affine last row, has no zero column. *)
Lemma rotated_columns_nonzero matPose rot_local :
  last_row_affine rot_local -> det3 matPose <> 0 -> det3 rot_local <> 0 ->
  col_nonzero e0 (rmmul matPose rot_local) /\
  col_nonzero e1 (rmmul matPose rot_local) /\
  col_nonzero e2 (rmmul matPose rot_local).
Proof.
  intros Haff Hm Hr.
  assert (Hd : det3 (rmmul matPose rot_local) <> 0).
  { rewrite det3_rmmul by assumption. now apply Rmult_integral_contrapositive. }
  assert (Hc : forall j, (j = e0 \/ j = e1 \/ j = e2) ->
                 col_nonzero j (rmmul matPose rot_local)).
  { intros j Hj. unfold col_nonzero.
    destruct (Req_dec (j (rw0 (rmmul matPose rot_local))) 0) as [H0|H0]; [|tauto].
    destruct (Req_dec (j (rw1 (rmmul matPose rot_local))) 0) as [H1|H1]; [|tauto].
    destruct (Req_dec (j (rw2 (rmmul matPose rot_local))) 0) as [H2|H2]; [|tauto].
    exfalso. apply Hd. now apply (det3_zero_col j). }
  repeat split; apply Hc; tauto.
Qed.

Lemma ccd_rotate_keeps_translation_unit_columns_witness :
  translation (ccd_rotate stretched_pose quarter_turn) = (1, 2, 3) /\
  col_norm e0 (ccd_rotate stretched_pose quarter_turn) = 1 /\
  col_norm e1 (ccd_rotate stretched_pose quarter_turn) = 1 /\
  col_norm e2 (ccd_rotate stretched_pose quarter_turn) = 1.
Proof.
  destruct (ccd_rotate_keeps_translation_unit_columns stretched_pose quarter_turn)
    as (Ht & H0 & H1 & H2).
  split; [rewrite Ht; reflexivity|].
  repeat split; [apply H0 | apply H1 | apply H2];
    unfold col_nonzero, rmmul, rvrow, rcol, rdot4; simpl;
    first [ left; intro; lra | right; left; intro; lra | right; right; intro; lra ].
Defined.

End CCDFacts.

(** ** Building a skeleton *)

Lemma getBone_from_bound s n : forall i found p,
  getBone_from s n i found = Some p ->
  found = Some p \/ (i <= p < i + length s)%nat.
Proof.
  induction s as [|b s IH]; intros i found p H; simpl in H; [now left|].
  apply IH in H as [H|H]; [|right; simpl; lia].
  destruct (String.eqb (name b) n); [|now left].
  injection H as <-. right. simpl. lia.
Qed.

Lemma getBone_bound s n p : getBone s n = Some p -> (p < length s)%nat.
Proof.
  intro H. apply getBone_from_bound in H as [H|H]; [discriminate | lia].
Qed.

(** A bone's parent is found among the bones added before it, so parents
    come first in every skeleton grown by [addBone]. *)
Lemma addBone_parents_first s proto parentName :
  parents_first s -> parents_first (addBone s proto parentName).
Proof.
  intros Hpf i b p Hb Hp. unfold addBone in Hb.
  destruct (Nat.lt_ge_cases i (length s)) as [Hi|Hi].
  - rewrite nth_error_app1 in Hb by assumption. eapply Hpf; eauto.
  - rewrite nth_error_app2 in Hb by assumption.
    destruct (i - length s)%nat as [|d] eqn:E; simpl in Hb;
      [|destruct d; discriminate].
    injection Hb as <-. simpl in Hp.
    destruct parentName as [pn|]; [|discriminate].
    apply getBone_bound in Hp. lia.
Qed.

Lemma parents_first_nil : parents_first [].
Proof. intros i b p H. destruct i; discriminate. Qed.

Lemma list_set_twice {A : Type} (l : list A) i x y :
  list_set (list_set l i x) i y = list_set l i y.
Proof.
  revert i. induction l as [|h t IH]; intros [|i]; simpl; auto.
  now rewrite IH.
Qed.

Lemma build_spec s i b head tail rest s' :
  nth_error s i = Some b ->
  build s i (head, tail, rest) = Ok s' ->
  exists rel,
    match parent_bone s b with
    | Some pb => exists ip, la_inv (matRestGlobal pb) = Ok ip /\ rel = mmul ip rest
    | None => rel = rest
    end /\
    s' = list_set s i
           (update_bone (list_set s i (set_rest b head tail rest rel))
              (set_rest b head tail rest rel)).
Proof.
  intros Hb H. unfold build in H. rewrite Hb in H.
  assert (Hlt : (i < length s)%nat) by (apply nth_error_Some; congruence).
  apply bind_ok in H as (rel & Hrel & Hup). exists rel.
  rewrite update_is_update_bone, nth_error_list_set_eq in Hup by assumption.
  injection Hup as <-. rewrite list_set_twice. split; [|reflexivity].
  destruct (parent_bone s b) as [pb|].
  - apply bind_ok in Hrel as (ip & Hip & Hrel). injection Hrel as <-. eauto.
  - now injection Hrel as <-.
Qed.

Lemma build_step s k frame s' :
  parents_first s -> built k s -> (k < length s)%nat ->
  build s k frame = Ok s' ->
  parents_first s' /\ built (S k) s' /\ length s' = length s.
Proof.
  intros Hpf Hb Hk H. destruct frame as [[head tail] rest].
  destruct (nth_error s k) as [b|] eqn:Eb; [|apply nth_error_None in Eb; lia].
  destruct (build_spec _ _ _ _ _ _ _ Eb H) as (rel & Hrel & ->).
  set (b1 := set_rest b head tail rest rel) in *.
  set (b' := update_bone (list_set s k b1) b1).
  assert (Hpar : forall c p, parent c = Some p -> (p < k)%nat ->
            parent_bone (list_set s k b') c = parent_bone s c).
  { intros c p Hc Hp. unfold parent_bone. rewrite Hc.
    apply nth_error_list_set_neq. lia. }
  split; [|split].
  - now apply parents_first_list_set with (x := b).
  - intros j c Hj Hc. unfold rest_consistent_at.
    destruct (Nat.eq_dec k j) as [<-|Hne].
    + rewrite nth_error_list_set_eq in Hc by assumption. injection Hc as <-.
      destruct (parent b) as [p|] eqn:Ep.
      * rewrite (Hpar b' p Ep (Hpf k b p Eb Ep)).
        unfold parent_bone in *. simpl. rewrite Ep in *.
        destruct (nth_error s p) as [pb|]; simpl.
        -- destruct Hrel as (ip & Hip & ->). exists ip. split; auto. reflexivity.
        -- rewrite Hrel. reflexivity.
      * unfold parent_bone in *. simpl. rewrite Ep in *. rewrite Hrel. reflexivity.
    + rewrite nth_error_list_set_neq in Hc by assumption.
      assert (Hjk : (j < k)%nat) by lia.
      pose proof (Hb j c Hjk Hc) as Hcons. unfold rest_consistent_at in Hcons.
      destruct (parent c) as [p|] eqn:Ep.
      * rewrite (Hpar c p Ep); [exact Hcons|].
        pose proof (Hpf j c p Hc Ep). lia.
      * unfold parent_bone in *. now rewrite Ep in *.
  - apply list_set_length.
Qed.

Lemma build_loop m : forall k s s' frame_of,
  parents_first s -> built k s -> (k + m = length s)%nat ->
  for_each (fun s' i => build s' i (frame_of i)) (seq k m) s = Ok s' ->
  parents_first s' /\ built (k + m) s' /\ length s' = length s.
Proof.
  induction m as [|m IH]; intros k s s' frame_of Hpf Hb Hlen H; simpl in H.
  - injection H as <-. rewrite Nat.add_0_r. auto.
  - apply bind_ok in H as (s1 & H1 & H2).
    destruct (build_step s k (frame_of k) s1 Hpf Hb) as (Hpf1 & Hb1 & Hl1);
      [lia | exact H1 |].
    destruct (IH (S k) s1 s' frame_of Hpf1 Hb1) as (Hpf' & Hb' & Hl');
      [lia | exact H2 |].
    rewrite <- Nat.add_succ_comm. split; auto. split; auto. congruence.
Qed.

(** [updateJointPositions] leaves every bone's rest-relative matrix
    consistent with the rest matrices, as the skinning results assume. *)
Lemma updateJointPositions_rest_consistent s frame_of s' :
  parents_first s ->
  updateJointPositions s frame_of = Ok s' ->
  parents_first s' /\ rest_consistent s' /\ length s' = length s.
Proof.
  intros Hpf H. unfold updateJointPositions in H.
  destruct (build_loop (length s) 0 s s' frame_of Hpf) as (Hpf' & Hb & Hl); auto.
  { intros j b Hj. lia. }
  split; auto. split; auto.
  intros i b Hi. apply (Hb i b); auto.
  simpl. rewrite <- Hl. apply nth_error_Some. congruence.
Qed.

(** ** Worked instances of the supporting results *)

Lemma grown_rig_parents_first : parents_first Examples.grown_rig.
Proof.
  intros i b p Hb Hp. destruct i as [|[|i]]; simpl in Hb.
  - injection Hb as <-. discriminate.
  - injection Hb as <-. injection Hp as <-. lia.
  - destruct i; discriminate.
Qed.

Lemma updateJointPositions_rest_consistent_witness :
  exists s',
    updateJointPositions Examples.grown_rig Examples.grown_frames = Ok s' /\
    parents_first s' /\ rest_consistent s' /\ length s' = 2%nat.
Proof.
  eexists. split; [vm_compute; reflexivity|].
  apply (updateJointPositions_rest_consistent Examples.grown_rig
           Examples.grown_frames).
  - exact grown_rig_parents_first.
  - vm_compute; reflexivity.
Defined.

Lemma addBone_parents_first_witness :
  map parent Examples.grown_rig = [None; Some 0%nat] /\
  parents_first Examples.grown_rig.
Proof.
  split; [reflexivity|]. unfold Examples.grown_rig.
  apply addBone_parents_first. apply addBone_parents_first.
  exact parents_first_nil.
Defined.

Lemma la_inv_ok_witness :
  exists i,
    la_inv (Examples.translate4 0 1 0) = Ok i /\
    ~ det4 (Examples.translate4 0 1 0) == 0 /\
    meq (mmul (Examples.translate4 0 1 0) i) identity4 /\
    meq (mmul i (Examples.translate4 0 1 0)) identity4.
Proof.
  eexists. split; [reflexivity|].
  apply la_inv_ok. reflexivity.
Defined.

Lemma skin_preview_fallback_witness :
  nth 1 (Skin.skin_preview Examples.rest_rig Examples.skin_weights Examples.mesh3)
    vzero
  = nth 1 Examples.mesh3 vzero.
Proof.
  pose proof (skin_preview_fallback Examples.rest_rig Examples.skin_weights
                Examples.mesh3 1%nat) as H.
  destruct (Skin.lbs_accumulate Examples.rest_rig Examples.skin_weights
              Examples.mesh3) as [[d t]|e] eqn:E.
  - vm_compute in E. injection E as <- <-.
    apply H; [simpl; lia | reflexivity].
  - vm_compute in E. discriminate.
Defined.

Lemma rotated_columns_nonzero_witness :
  CCD.col_nonzero CCD.e0 (CCD.rmmul CCD.stretched_pose CCD.quarter_turn) /\
  CCD.col_nonzero CCD.e1 (CCD.rmmul CCD.stretched_pose CCD.quarter_turn) /\
  CCD.col_nonzero CCD.e2 (CCD.rmmul CCD.stretched_pose CCD.quarter_turn).
Proof.
  apply rotated_columns_nonzero.
  - repeat split.
  - unfold CCD.det3. simpl. intro H. lra.
  - unfold CCD.det3. simpl. intro H. lra.
Defined.

(** ** Rounding to nearest *)

Lemma rne_error (m : Q) : Qabs (inject_Z (rne m) - m) <= 1 # 2.
Proof.
  destruct m as [n d]. unfold rne. cbn [Qnum Qden].
  pose proof (Z.div_mod n (Z.pos d) ltac:(lia)) as Hdm.
  pose proof (Z.mod_pos_bound n (Z.pos d) ltac:(lia)) as Hr.
  set (fl := (n / Z.pos d)%Z) in *. set (r := (n mod Z.pos d)%Z) in *.
  clearbody fl r.
  assert (H0 : (2 * r <= Z.pos d)%Z -> Qabs (inject_Z fl - (n # d)) <= 1 # 2).
  { intro H. apply Qabs_Qle_condition. subst n.
    unfold Qle, Qminus, Qplus, Qopp, inject_Z. cbn [Qnum Qden].
    rewrite ?Pos2Z.inj_mul. split; ring_simplify; lia. }
  assert (H1 : (Z.pos d <= 2 * r)%Z ->
               Qabs (inject_Z (fl + 1) - (n # d)) <= 1 # 2).
  { intro H. apply Qabs_Qle_condition. subst n.
    unfold Qle, Qminus, Qplus, Qopp, inject_Z. cbn [Qnum Qden].
    rewrite ?Pos2Z.inj_mul. split; ring_simplify; lia. }
  destruct (2 * r ?= Z.pos d)%Z eqn:E.
  - apply Z.compare_eq in E. destruct (Z.even fl); [apply H0 | apply H1]; lia.
  - rewrite Z.compare_lt_iff in E. apply H0. lia.
  - rewrite Z.compare_gt_iff in E. apply H1. lia.
Qed.

Lemma two_power_pos (k : Z) : 0 < 2 ^ k.
Proof. apply Qpower_0_lt. reflexivity. Qed.

Lemma two_power_nonzero (k : Z) : ~ 2 ^ k == 0.
Proof. intro H. pose proof (two_power_pos k) as Hp. rewrite H in Hp. discriminate. Qed.

(** The binade of a positive rational lies below it. *)
Lemma binade_le (a : Q) : 0 < a -> 2 ^ binade a <= a.
Proof.
  intro Ha. unfold binade.
  destruct (Qle_bool (2 ^ (Z.log2 (Qnum a) - Z.log2 (Z.pos (Qden a)))) a) eqn:E.
  - now apply Qle_bool_iff.
  - clear E. destruct a as [n d]. cbn [Qnum Qden].
    assert (Hn : (0 < n)%Z).
    { unfold Qlt in Ha. simpl in Ha. lia. }
    destruct (Z.log2_spec n Hn) as [Hn1 _].
    destruct (Z.log2_spec (Z.pos d) ltac:(lia)) as [_ Hd2].
    pose proof (Z.log2_nonneg n) as Hln.
    pose proof (Z.log2_nonneg (Z.pos d)) as Hld.
    set (ln := Z.log2 n) in *. set (ld := Z.log2 (Z.pos d)) in *.
    (* 2^(ln - ld - 1) * d <= n *)
    assert (Hq : 2 ^ (ln - ld - 1) * inject_Z (2 ^ Z.succ ld) == inject_Z (2 ^ ln)).
    { rewrite !Zpower_Qpower by lia.
      change (inject_Z 2) with 2.
      rewrite <- Qpower_plus by discriminate.
      replace (ln - ld - 1 + Z.succ ld)%Z with ln by lia. reflexivity. }
    assert (Hdq : inject_Z (Z.pos d) <= inject_Z (2 ^ Z.succ ld)).
    { rewrite <- Zle_Qle. lia. }
    assert (Hnq : inject_Z (2 ^ ln) <= inject_Z n).
    { rewrite <- Zle_Qle. exact Hn1. }
    assert (Hmul : 2 ^ (ln - ld - 1) * inject_Z (Z.pos d) <= inject_Z n).
    { eapply Qle_trans; [|exact Hnq]. rewrite <- Hq.
      apply Qmult_le_l; [apply two_power_pos | exact Hdq]. }
    replace (ln - ld - 1)%Z with (ln - ld - 1)%Z in Hmul by reflexivity.
    assert (Hnd : n # d == inject_Z n / inject_Z (Z.pos d)).
    { rewrite Qmake_Qdiv. reflexivity. }
    rewrite Hnd. apply Qle_shift_div_l; [reflexivity|].
    replace (ln - ld - 1)%Z with (ln - ld - 1)%Z by reflexivity. exact Hmul.
Qed.

(** Rounding to [p] bits moves a number by at most the fraction [2^-p] of
    it, or by at most half the spacing [2^(emin - p)] of the subnormal
    numbers. *)
Lemma round_nearest_even_error (p emin : Z) (y : Q) :
  Qabs (round_nearest_even p emin y - y) <= 2 ^ (- p) * Qabs y + 2 ^ (emin - p).
Proof.
  unfold round_nearest_even.
  pose proof (two_power_pos (emin - p)) as Heta.
  pose proof (two_power_pos (- p)) as Hu.
  destruct (Qeq_bool y 0) eqn:E0.
  - apply Qeq_bool_iff in E0. rewrite E0. simpl.
    setoid_replace (2 ^ (- p) * 0) with 0 by ring. lra.
  - assert (Hy : ~ y == 0).
    { intro H. apply Qeq_bool_iff in H. congruence. }
    assert (Ha : 0 < Qabs y).
    { apply Qabs_case; intro H.
      - destruct (Qle_lt_or_eq _ _ H) as [Hlt|Heq]; [exact Hlt|].
        exfalso. apply Hy. symmetry. exact Heq.
      - destruct (Qle_lt_or_eq _ _ H) as [Hlt|Heq]; [lra|].
        exfalso. apply Hy. exact Heq. }
    set (a := Qabs y) in *.
    assert (Hneg : y <= 0 -> y == - a).
    { intro H. unfold a. rewrite (Qabs_neg y H). ring. }
    assert (Hpos : 0 <= y -> y == a).
    { intro H. unfold a. rewrite (Qabs_pos y H). reflexivity. }
    clearbody a.
    set (e := Z.max (binade a) emin).
    set (q := 2 ^ (e - (p - 1))).
    pose proof (two_power_pos (e - (p - 1))) as Hq. fold q in Hq.
    pose proof (rne_error (a / q)) as Hr.
    pose proof (binade_le a Ha) as He.
    assert (Herr : Qabs (inject_Z (rne (a / q)) * q - a)
                   <= 2 ^ (- p) * a + 2 ^ (emin - p)).
    { assert (Heq : inject_Z (rne (a / q)) * q - a
                    == (inject_Z (rne (a / q)) - a / q) * q).
      { field. lra. }
      rewrite Heq, Qabs_Qmult, (Qabs_pos q) by lra.
      apply Qle_trans with ((1 # 2) * q).
      - apply Qmult_le_compat_r; [exact Hr | lra].
      - assert (Hhalf : (1 # 2) * q == 2 ^ (- p) * 2 ^ e).
        { unfold q. rewrite <- Qpower_plus by discriminate.
          replace (- p + e)%Z with (-1 + (e - (p - 1)))%Z by lia.
          rewrite Qpower_plus by discriminate. reflexivity. }
        rewrite Hhalf.
        assert (Hpa : 0 <= 2 ^ (- p) * a).
        { apply Qmult_le_0_compat; lra. }
        destruct (Z.max_spec (binade a) emin) as [[_ Hm]|[_ Hm]]; fold e in Hm.
        + rewrite Hm, <- Qpower_plus by discriminate.
          replace (- p + emin)%Z with (emin - p)%Z by lia. lra.
        + rewrite Hm.
          apply Qle_trans with (2 ^ (- p) * a); [|lra].
          apply Qmult_le_l; [exact Hu | exact He]. }
    destruct (Qlt_bool y 0) eqn:Es.
    + apply Qlt_bool_iff in Es.
      rewrite (Hneg ltac:(lra)).
      setoid_replace (- (inject_Z (rne (a / q)) * q) - - a)
        with (- (inject_Z (rne (a / q)) * q - a)) by ring.
      rewrite Qabs_opp. exact Herr.
    + apply Qlt_bool_false in Es.
      rewrite (Hpos Es). exact Herr.
Qed.

Lemma round32_error (y : Q) : Qabs (round32 y - y) <= u32 * Qabs y + eta32.
Proof. exact (round_nearest_even_error 24 (-126) y). Qed.

(** ** Sums of rounded additions *)

Lemma coord_vadd ax a b : coord ax (vadd a b) = coord ax a + coord ax b.
Proof. destruct ax; reflexivity. Qed.

Lemma growth_ge_1 u n : 0 <= u -> 1 <= growth u n.
Proof.
  intro Hu. induction n as [|n IH]; simpl; [apply Qle_refl|]. nra.
Qed.

Lemma abs_sum_nonneg ax rows : 0 <= abs_sum ax rows.
Proof.
  induction rows as [|d rows IH]; simpl; [apply Qle_refl|].
  pose proof (Qabs_nonneg (coord ax d)). lra.
Qed.

Lemma coord_sum_perm ax l l' :
  Permutation l l' -> coord_sum ax l == coord_sum ax l'.
Proof.
  induction 1; simpl; lra.
Qed.

Lemma abs_sum_perm ax l l' :
  Permutation l l' -> abs_sum ax l == abs_sum ax l'.
Proof.
  induction 1; simpl; lra.
Qed.

Lemma sum_error_perm u eta ax x l l' :
  Permutation l l' -> sum_error u eta ax x l == sum_error u eta ax x l'.
Proof.
  intro H. unfold sum_error.
  now rewrite (Permutation_length H), (abs_sum_perm ax _ _ H).
Qed.

Lemma growth_sum_nonneg u n : 0 <= u -> 0 <= growth_sum u n.
Proof.
  intro Hu. induction n as [|n IH]; simpl; [apply Qle_refl|].
  pose proof (growth_ge_1 u n Hu). lra.
Qed.

Lemma coord_sum_le_abs_sum ax rows : Qabs (coord_sum ax rows) <= abs_sum ax rows.
Proof.
  induction rows as [|d rows IH]; simpl; [apply Qle_refl|].
  eapply Qle_trans; [apply Qabs_triangle|]. lra.
Qed.

Section RoundedSums.
Variable rnd : Q -> Q.
Variables u eta : Q.
Hypothesis u_nonneg : 0 <= u.
Hypothesis eta_nonneg : 0 <= eta.
Hypothesis rnd_error : forall y, Qabs (rnd y - y) <= u * Qabs y + eta.

(** Adding [n] rows one after the other, each sum rounded, stays within
    [((1 + u)^n - 1) (|x0| + sum |d|) + eta (1 + ... + (1 + u)^(n-1))] of
    the exact sum. *)
Lemma rounded_sum_error ax rows : forall x0,
  Qabs (fold_left (fun x d => rnd (x + coord ax d)) rows x0
        - (x0 + coord_sum ax rows))
  <= sum_error u eta ax x0 rows.
Proof.
  unfold sum_error.
  induction rows as [|d rows IH]; intro x0;
    cbn [fold_left length growth growth_sum coord_sum abs_sum fold_right].
  - apply Qabs_Qle_condition. split; lra.
  - fold (coord_sum ax rows). fold (abs_sum ax rows).
    set (c := coord ax d). set (x1 := rnd (x0 + c)).
    specialize (IH x1).
    set (F := fold_left (fun x d0 => rnd (x + coord ax d0)) rows x1) in *.
    set (S := coord_sum ax rows) in *. set (A := abs_sum ax rows) in *.
    set (g := growth u (length rows)) in *.
    set (h := growth_sum u (length rows)) in *.
    pose proof (growth_ge_1 u (length rows) u_nonneg) as Hg. fold g in Hg.
    pose proof (abs_sum_nonneg ax rows) as HA. fold A in HA.
    pose proof (rnd_error (x0 + c)) as He. fold x1 in He.
    pose proof (Qabs_triangle x0 c) as Ht.
    pose proof (Qabs_nonneg x0) as Hx0. pose proof (Qabs_nonneg c) as Hc.
    assert (Hu : u * Qabs (x0 + c) <= u * (Qabs x0 + Qabs c)) by nra.
    assert (Hx1 : Qabs x1 <= (1 + u) * (Qabs x0 + Qabs c) + eta).
    { setoid_replace x1 with ((x1 - (x0 + c)) + (x0 + c)) by ring.
      eapply Qle_trans; [apply Qabs_triangle|]. lra. }
    assert (He' : Qabs (x1 - (x0 + c)) <= u * (Qabs x0 + Qabs c) + eta) by lra.
    setoid_replace (F - (x0 + (c + S)))
      with ((F - (x1 + S)) + (x1 - (x0 + c))) by ring.
    eapply Qle_trans; [apply Qabs_triangle|].
    assert (Hm : (Qabs x1 + A) * (g - 1)
                 <= ((1 + u) * (Qabs x0 + Qabs c) + eta + A) * (g - 1))
      by (apply Qmult_le_compat_r; lra).
    assert (Hp : 0 <= u * g * A).
    { apply Qmult_le_0_compat; [|exact HA].
      apply Qmult_le_0_compat; lra. }
    fold c. lra.
Qed.

(** The rounded running sum is no larger than [sum_magnitude]. *)
Lemma rounded_sum_magnitude ax rows x0 :
  Qabs (fold_left (fun x d => rnd (x + coord ax d)) rows x0)
  <= sum_magnitude u eta ax x0 rows.
Proof.
  pose proof (rounded_sum_error ax rows x0) as He.
  pose proof (coord_sum_le_abs_sum ax rows) as Hs.
  pose proof (Qabs_triangle x0 (coord_sum ax rows)) as Ht.
  unfold sum_error in He. unfold sum_magnitude.
  set (F := fold_left _ rows x0) in *.
  setoid_replace F with ((F - (x0 + coord_sum ax rows)) + (x0 + coord_sum ax rows))
    by ring.
  eapply Qle_trans; [apply Qabs_triangle|]. lra.
Qed.

End RoundedSums.

(** ** Morph blending in floating point *)

Section RoundedMorph.
Import Morph.
Variables rnd64 rnd32 : Q -> Q.

Local Notation vrnd := (MorphR.vrnd rnd32).
Local Notation scatter_addR := (MorphR.scatter_add rnd32).
Local Notation planR := (MorphR.plan rnd64 rnd32).
Local Notation solve_stepR := (MorphR.solve_step rnd64 rnd32).
Local Notation movesR := (MorphR.moves rnd64 rnd32).

Lemma coord_vrnd ax v : coord ax (vrnd v) = rnd32 (coord ax v).
Proof. destruct ax; reflexivity. Qed.

Lemma scatter_addR_snoc a upd p :
  scatter_addR a (upd ++ [p]) =
  list_set (scatter_addR a upd) (fst p)
    (vrnd (vadd (nth (fst p) a vzero) (snd p))).
Proof. unfold MorphR.scatter_add. now rewrite fold_left_app. Qed.

Lemma scatter_addR_length a upd : length (scatter_addR a upd) = length a.
Proof.
  induction upd as [|p upd IH] using rev_ind; auto.
  rewrite scatter_addR_snoc, list_set_length. exact IH.
Qed.

Lemma nth_scatter_addR a upd j :
  in_range (length a) upd = true ->
  nth j (scatter_addR a upd) vzero =
  match last_upd upd j with
  | Some d => vrnd (vadd (nth j a vzero) d)
  | None => nth j a vzero
  end.
Proof.
  induction upd as [|p upd IH] using rev_ind; intro Hr; auto.
  rewrite in_range_app in Hr. apply andb_true_iff in Hr as [Hr Hp].
  simpl in Hp. rewrite andb_true_r in Hp. apply Nat.ltb_lt in Hp.
  rewrite scatter_addR_snoc, last_upd_snoc.
  rewrite nth_list_set by (now rewrite scatter_addR_length).
  destruct (fst p =? j)%nat eqn:E; auto.
  apply Nat.eqb_eq in E. now subst j.
Qed.

Lemma resolveR_loop_in_range n weight d acc upd :
  for_each
    (fun acc p =>
       i <- np_index n (fst p) ;;
       Ok (acc ++ [(i, vrnd (vscale (rnd32 weight) (snd p)))]))
    d acc = Ok upd ->
  in_range n acc = true -> in_range n upd = true.
Proof.
  revert acc. induction d as [|p d IH]; intros acc H Hacc; simpl in H.
  - now injection H as <-.
  - destruct (np_index n (fst p)) as [k|e] eqn:E; simpl in H; [|discriminate].
    apply (IH _ H). rewrite in_range_app, Hacc. simpl.
    apply np_index_lt in E. apply Nat.ltb_lt in E. now rewrite E.
Qed.

Lemma resolveR_loop_raise n weight d acc e :
  for_each
    (fun acc p =>
       i <- np_index n (fst p) ;;
       Ok (acc ++ [(i, vrnd (vscale (rnd32 weight) (snd p)))]))
    d acc = Raise e ->
  e = IndexError.
Proof.
  revert acc. induction d as [|p d IH]; intros acc H; simpl in H; [discriminate|].
  destruct (np_index n (fst p)) as [k|e'] eqn:E; simpl in H.
  - exact (IH _ H).
  - injection H as <-. exact (np_index_raise _ _ _ E).
Qed.

Lemma planR_in_range f n t upd : planR f n t = Ok upd -> in_range n upd = true.
Proof.
  unfold MorphR.plan. destruct (MorphR.tag_weight rnd64 f (tags t) 1) as [w|].
  - destruct (data t) as [d|].
    + intro H. exact (resolveR_loop_in_range _ _ _ _ _ H eq_refl).
    + intro H. now injection H as <-.
  - intro H. now injection H as <-.
Qed.

Lemma planR_raise f n t e : planR f n t = Raise e -> e = IndexError.
Proof.
  unfold MorphR.plan.
  destruct (MorphR.tag_weight rnd64 f (tags t) 1) as [w|]; [|discriminate].
  destruct (data t) as [d|]; [|discriminate].
  apply resolveR_loop_raise.
Qed.

(** One step of the loop is the rounded scattered addition of the target's
    plan. *)
Lemma solve_stepR_plan f acc t :
  solve_stepR f acc t =
  (upd <- planR f (length acc) t ;; Ok (scatter_addR acc upd)).
Proof.
  unfold MorphR.solve_step, MorphR.plan, MorphR.apply_target.
  destruct (MorphR.tag_weight rnd64 f (tags t) 1) as [w|]; [|reflexivity].
  destruct (data t) as [d|]; [|reflexivity].
  destruct (MorphR.resolve rnd32 (length acc) d w) as [upd|e] eqn:E; simpl;
    [|reflexivity].
  unfold MorphR.fancy_iadd.
  now rewrite (resolveR_loop_in_range _ _ _ _ _ E eq_refl).
Qed.

(** Every plan succeeds, or one of them raises. *)
Lemma plansR_ok_or_raise f n ts :
  (forall t, In t ts -> exists upd, planR f n t = Ok upd) \/
  (exists t e, In t ts /\ planR f n t = Raise e).
Proof.
  induction ts as [|t ts [IH|(t' & e & Hin & He)]].
  - left. intros t [].
  - destruct (planR f n t) as [upd|e] eqn:E.
    + left. intros t' [<-|Hin]; [eauto | auto].
    + right. exists t, e. split; [now left | exact E].
  - right. exists t', e. split; [now right | exact He].
Qed.

(** When every plan succeeds the loop returns, and each coordinate of each
    vertex is what the rounded additions of its moves make of it, in the
    order of the targets. *)
Lemma solve_loopR_ok f ts : forall a,
  (forall t, In t ts -> exists upd, planR f (length a) t = Ok upd) ->
  exists r, for_each (solve_stepR f) ts a = Ok r /\
    length r = length a /\
    forall j ax,
      coord ax (nth j r vzero) =
      fold_left (fun x d => rnd32 (x + coord ax d))
        (movesR f (length a) ts j) (coord ax (nth j a vzero)).
Proof.
  induction ts as [|t ts IH]; intros a Hok.
  - exists a. repeat split.
  - destruct (Hok t (or_introl eq_refl)) as [upd Hupd].
    cbn [for_each]. rewrite solve_stepR_plan, Hupd. cbn [bind].
    pose proof (planR_in_range _ _ _ _ Hupd) as Hr.
    destruct (IH (scatter_addR a upd)) as (r & Hrun & Hlen & Hnth).
    { rewrite scatter_addR_length. intros t' Hin. apply Hok. now right. }
    rewrite scatter_addR_length in Hlen, Hnth.
    exists r. split; [exact Hrun|]. split; [exact Hlen|].
    intros j ax. rewrite Hnth. unfold MorphR.moves. cbn [flat_map].
    rewrite Hupd, fold_left_app, nth_scatter_addR by exact Hr.
    destruct (last_upd upd j) as [d|]; cbn [fold_left]; [|reflexivity].
    now rewrite coord_vrnd, coord_vadd.
Qed.

(** When a plan raises the loop raises IndexError. *)
Lemma solve_loopR_raise f ts : forall a,
  (exists t e, In t ts /\ planR f (length a) t = Raise e) ->
  for_each (solve_stepR f) ts a = Raise IndexError.
Proof.
  induction ts as [|t ts IH]; intros a (t' & e & Hin & He); [destruct Hin|].
  cbn [for_each]. rewrite solve_stepR_plan.
  destruct (planR f (length a) t) as [upd|e'] eqn:E; cbn [bind].
  - apply IH. rewrite scatter_addR_length. exists t', e.
    destruct Hin as [<-|Hin]; [congruence | now split].
  - now rewrite (planR_raise _ _ _ _ E).
Qed.

Lemma movesR_perm f n ts ts' j :
  Permutation ts ts' -> Permutation (movesR f n ts j) (movesR f n ts' j).
Proof. intro H. unfold MorphR.moves. now apply Permutation_flat_map. Qed.

Variables u eta : Q.
Hypothesis u_nonneg : 0 <= u.
Hypothesis eta_nonneg : 0 <= eta.
Hypothesis rnd32_error : forall y, Qabs (rnd32 y - y) <= u * Qabs y + eta.

(** Two orders of the same targets: the same exception, or meshes whose
    coordinates differ by no more than twice the rounding error of the
    sums. *)
Lemma solve_meshR_permutation base_mesh targets targets' factors :
  Permutation targets targets' ->
  result_rel
    (fun r r' =>
       length r = length r' /\
       forall j ax,
         Qabs (coord ax (nth j r vzero) - coord ax (nth j r' vzero))
         <= 2 * sum_error u eta ax (coord ax (nth j base_mesh vzero))
                  (movesR factors (length base_mesh) targets j))
    (MorphR.solve_mesh rnd64 rnd32 base_mesh targets factors)
    (MorphR.solve_mesh rnd64 rnd32 base_mesh targets' factors).
Proof.
  intro Hp. unfold MorphR.solve_mesh.
  destruct (plansR_ok_or_raise factors (length base_mesh) targets)
    as [Hok|(t & e & Hin & He)].
  - destruct (solve_loopR_ok factors targets base_mesh Hok)
      as (r & -> & Hlen & Hnth).
    destruct (solve_loopR_ok factors targets' base_mesh) as (r' & -> & Hlen' & Hnth').
    { intros t Hin. apply Hok. eapply Permutation_in; [|exact Hin].
      now apply Permutation_sym. }
    cbn [result_rel]. split; [congruence|].
    intros j ax. rewrite Hnth, Hnth'.
    pose proof (movesR_perm factors (length base_mesh) _ _ j Hp) as Hm.
    set (rows := movesR factors (length base_mesh) targets j) in *.
    set (rows' := movesR factors (length base_mesh) targets' j) in *.
    set (x0 := coord ax (nth j base_mesh vzero)).
    pose proof (rounded_sum_error rnd32 u eta u_nonneg rnd32_error ax rows x0)
      as H1.
    pose proof (rounded_sum_error rnd32 u eta u_nonneg rnd32_error ax rows' x0)
      as H2.
    rewrite <- (sum_error_perm u eta ax x0 _ _ Hm),
      <- (coord_sum_perm ax _ _ Hm) in H2.
    set (F := fold_left _ rows x0) in *. set (F' := fold_left _ rows' x0) in *.
    set (S := x0 + coord_sum ax rows) in *.
    set (B := sum_error u eta ax x0 rows) in *.
    setoid_replace (F - F') with ((F - S) + - (F' - S)) by ring.
    eapply Qle_trans; [apply Qabs_triangle|]. rewrite Qabs_opp. lra.
  - rewrite (solve_loopR_raise factors targets base_mesh) by eauto.
    rewrite (solve_loopR_raise factors targets' base_mesh).
    + reflexivity.
    + exists t, e. split; [eapply Permutation_in; eassumption | exact He].
Qed.

(** What the loop returns is the base mesh plus the exact sum of the moves,
    up to the rounding of the additions. *)
Lemma solve_meshR_sum base_mesh targets factors r :
  MorphR.solve_mesh rnd64 rnd32 base_mesh targets factors = Ok r ->
  length r = length base_mesh /\
  forall j ax,
    coord ax (nth j r vzero) =
    fold_left (fun x d => rnd32 (x + coord ax d))
      (movesR factors (length base_mesh) targets j)
      (coord ax (nth j base_mesh vzero)) /\
    Qabs (coord ax (nth j r vzero)
          - (coord ax (nth j base_mesh vzero)
             + coord_sum ax (movesR factors (length base_mesh) targets j)))
    <= sum_error u eta ax (coord ax (nth j base_mesh vzero))
         (movesR factors (length base_mesh) targets j) /\
    Qabs (coord ax (nth j r vzero))
    <= sum_magnitude u eta ax (coord ax (nth j base_mesh vzero))
         (movesR factors (length base_mesh) targets j).
Proof.
  unfold MorphR.solve_mesh. intro Hrun.
  destruct (plansR_ok_or_raise factors (length base_mesh) targets)
    as [Hok|Hraise].
  - destruct (solve_loopR_ok factors targets base_mesh Hok)
      as (r0 & Hr0 & Hlen & Hnth).
    assert (r0 = r) by congruence. subst r0.
    split; [exact Hlen|]. intros j ax. split; [apply Hnth|].
    rewrite Hnth. split.
    + apply (rounded_sum_error rnd32 u eta u_nonneg rnd32_error).
    + apply (rounded_sum_magnitude rnd32 u eta u_nonneg rnd32_error).
  - rewrite (solve_loopR_raise factors targets base_mesh Hraise) in Hrun.
    discriminate.
Qed.

End RoundedMorph.

(** C8, amended.  In float32, as numpy adds, for factors in [0,1] and
    sums that stay below the largest float32 number: two orders of the
    same targets raise the same exception or return meshes of one size
    whose coordinates differ by at most twice [sum_error], that is
    [((1 + u)^n - 1) (|x| + sum |d|) + eta (1 + ... + (1 + u)^(n-1))]
    with [u = 2^-24] the unit roundoff, [eta = 2^-150] half the spacing of
    the subnormal numbers, [x] the base coordinate and the [d] the [n]
    rows that the kept targets add to the vertex.  Each returned
    coordinate is the running sum of [x] and these rows, every addition
    rounded; it lies within [sum_error] of their exact sum and is a finite
    float32 number. *)
Theorem solve_mesh_order_rounding base_mesh targets targets' factors :
  Morph.factors_in_unit factors ->
  (forall j ax,
     sum_magnitude u32 eta32 ax (coord ax (nth j base_mesh vzero))
       (MorphR.moves round64 round32 factors (length base_mesh) targets j)
     <= flt_max32) ->
  Permutation targets targets' ->
  result_rel
    (fun r r' =>
       length r = length r' /\
       forall j ax,
         Qabs (coord ax (nth j r vzero) - coord ax (nth j r' vzero))
         <= 2 * sum_error u32 eta32 ax (coord ax (nth j base_mesh vzero))
                  (MorphR.moves round64 round32 factors (length base_mesh)
                     targets j))
    (MorphR.solve_mesh round64 round32 base_mesh targets factors)
    (MorphR.solve_mesh round64 round32 base_mesh targets' factors) /\
  forall r,
    MorphR.solve_mesh round64 round32 base_mesh targets factors = Ok r ->
    length r = length base_mesh /\
    forall j ax,
      let x := coord ax (nth j base_mesh vzero) in
      let rows :=
        MorphR.moves round64 round32 factors (length base_mesh) targets j in
      coord ax (nth j r vzero) =
        fold_left (fun x d => round32 (x + coord ax d)) rows x /\
      Qabs (coord ax (nth j r vzero) - (x + coord_sum ax rows))
        <= sum_error u32 eta32 ax x rows /\
      Qabs (coord ax (nth j r vzero)) <= flt_max32.
Proof.
  intros _ Hmax Hp.
  assert (Hu : 0 <= u32) by discriminate.
  assert (Heta : 0 <= eta32) by discriminate.
  split.
  - exact (solve_meshR_permutation round64 round32 u32 eta32 Hu round32_error
             base_mesh targets targets' factors Hp).
  - intros r Hr.
    destruct (solve_meshR_sum round64 round32 u32 eta32 Hu round32_error
                base_mesh targets factors r Hr) as [Hlen Hall].
    split; [exact Hlen|]. intros j ax. cbv zeta.
    destruct (Hall j ax) as (H1 & H2 & H3).
    split; [exact H1|]. split; [exact H2|].
    eapply Qle_trans; [exact H3 | apply Hmax].
Qed.

Lemma solve_mesh_order_rounding_witness :
  Permutation
    (repeat Examples.target_nudge 2 ++ [Examples.target_drop])
    (Examples.target_drop :: repeat Examples.target_nudge 2) /\
  result_rel
    (fun r r' =>
       length r = length r' /\
       forall j ax,
         Qabs (coord ax (nth j r vzero) - coord ax (nth j r' vzero))
         <= 2 * sum_error u32 eta32 ax (coord ax (nth j Examples.mesh_far vzero))
                  (MorphR.moves round64 round32 Examples.factors_universal
                     (length Examples.mesh_far)
                     (repeat Examples.target_nudge 2 ++ [Examples.target_drop])
                     j))
    (MorphR.solve_mesh round64 round32 Examples.mesh_far
       (repeat Examples.target_nudge 2 ++ [Examples.target_drop])
       Examples.factors_universal)
    (MorphR.solve_mesh round64 round32 Examples.mesh_far
       (Examples.target_drop :: repeat Examples.target_nudge 2)
       Examples.factors_universal).
Proof.
  assert (Hp : Permutation
                 (repeat Examples.target_nudge 2 ++ [Examples.target_drop])
                 (Examples.target_drop :: repeat Examples.target_nudge 2)).
  { apply Permutation_sym, Permutation_cons_append. }
  assert (Hf : Morph.factors_in_unit Examples.factors_universal).
  { intros k v [H|[]]. injection H as _ <-. split; discriminate. }
  assert (Hmax : forall j ax,
             sum_magnitude u32 eta32 ax
               (coord ax (nth j Examples.mesh_far vzero))
               (MorphR.moves round64 round32 Examples.factors_universal
                  (length Examples.mesh_far)
                  (repeat Examples.target_nudge 2 ++ [Examples.target_drop]) j)
             <= flt_max32).
  { intros [|[|j]] ax; destruct ax; vm_compute; discriminate. }
  split; [exact Hp|].
  exact (proj1 (solve_mesh_order_rounding _ _ _ _ Hf Hmax Hp)).
Defined.

(** C8, the claim as stated fails in float32: a vertex at x = 16 with
    twelve targets that add 2^-20 and one that adds -8.5.  Added first,
    each 2^-20 is half a unit in the last place of 16 and is rounded away;
    added after the drop to 7.5 they all count.  The two results differ by
    12 * 2^-20 > 1e-5. *)
Lemma solve_mesh_order_changes_result :
  Permutation
    (repeat Examples.target_nudge 12 ++ [Examples.target_drop])
    (Examples.target_drop :: repeat Examples.target_nudge 12) /\
  exists r r',
    MorphR.solve_mesh round64 round32 Examples.mesh_far
      (repeat Examples.target_nudge 12 ++ [Examples.target_drop])
      Examples.factors_universal = Ok r /\
    MorphR.solve_mesh round64 round32 Examples.mesh_far
      (Examples.target_drop :: repeat Examples.target_nudge 12)
      Examples.factors_universal = Ok r' /\
    verts_eq r [mkV3 7.5 0 0] /\
    verts_eq r' [mkV3 (7.5 + 12 * (1 # 1048576)) 0 0] /\
    ~ verts_close 0.00001 r r'.
Proof.
  split; [apply Permutation_sym, Permutation_cons_append|].
  eexists. eexists.
  split; [vm_compute; reflexivity|].
  split; [vm_compute; reflexivity|].
  split; [|split].
  - split; [reflexivity|]. intros [|[|j]]; repeat split; reflexivity.
  - split; [reflexivity|]. intros [|[|j]]; repeat split; reflexivity.
  - intros [_ H]. specialize (H 0%nat). destruct H as [H _].
    vm_compute in H. apply H. reflexivity.
Qed.

(** ** Morph blending: frame, errors and skipped targets *)

Section MorphMore.
Import Morph.

(** For sliders in [0,1] every value of the factor table lies in [0,1]:
    no target is amplified or applied with a negative weight. *)
Theorem calculate_factors_in_unit
    (age gender weight muscle height breast_size genital_size : Q) :
  0 <= age <= 1 -> 0 <= gender <= 1 -> 0 <= weight <= 1 ->
  0 <= muscle <= 1 -> 0 <= height <= 1 -> 0 <= breast_size <= 1 ->
  0 <= genital_size <= 1 ->
  factors_in_unit
    (calculate_factors age gender weight muscle height breast_size genital_size).
Proof.
  intros Hage Hg Hw Hm Hh Hb Hgs k v Hin.
  unfold calculate_factors in Hin.
  pose proof (Qlt_bool_iff age 0.5) as Hlow. revert Hlow Hin.
  case (Qlt_bool age 0.5); intros Hlow Hin;
    lazy [factor dict_set dict_get dict_get_default String.eqb Ascii.eqb Bool.eqb In]
      in Hin;
    repeat (destruct Hin as [Hin|Hin];
            [injection Hin as <- <-; py_cases; split; lra|]);
    contradiction.
Qed.


Lemma resolve_loop_In n weight d : forall acc upd,
  for_each
    (fun acc p => i <- np_index n (fst p) ;; Ok (acc ++ [(i, vscale weight (snd p))]))
    d acc = Ok upd ->
  forall i, In i (map fst upd) ->
    In i (map fst acc) \/ exists p, In p d /\ np_index n (fst p) = Ok i.
Proof.
  induction d as [|p d IH]; intros acc upd H i Hi; simpl in H.
  - injection H as <-. now left.
  - destruct (np_index n (fst p)) as [k|e] eqn:E; simpl in H; [|discriminate].
    destruct (IH _ _ H i Hi) as [Hacc|(q & Hq & Hk)].
    + rewrite map_app in Hacc. apply in_app_or in Hacc as [Hacc|Hacc]; [now left|].
      simpl in Hacc. destruct Hacc as [<-|[]]. right. exists p. split; [now left|auto].
    + right. exists q. split; [now right|auto].
Qed.

Lemma plan_indices f n t upd i :
  plan f n t = Ok upd -> In i (map fst upd) ->
  exists d p, data t = Some d /\ In p d /\ np_index n (fst p) = Ok i.
Proof.
  unfold plan. destruct (tag_weight f (tags t) 1) as [w|].
  - destruct (data t) as [d|].
    + intros H Hi. destruct (resolve_loop_In _ _ _ _ _ H i Hi) as [[]|(p & Hp & Hk)].
      exists d, p. auto.
    + intro H. injection H as <-. intros [].
  - intro H. injection H as <-. intros [].
Qed.

Lemma solve_loop_frame f ts : forall a out,
  for_each (solve_step f) ts a = Ok out ->
  length out = length a /\
  forall j,
    (forall t d p, In t ts -> data t = Some d -> In p d ->
                   np_index (length a) (fst p) <> Ok j) ->
    nth j out vzero = nth j a vzero.
Proof.
  induction ts as [|t ts IH]; intros a out H; simpl in H.
  - injection H as <-. auto.
  - rewrite solve_step_plan in H.
    destruct (plan f (length a) t) as [upd|e] eqn:E; simpl in H; [|discriminate].
    destruct (IH _ _ H) as [Hl Hf]. rewrite scatter_add_length in Hl, Hf.
    split; [exact Hl|]. intros j Hj.
    rewrite Hf by (intros t' d p Ht'; apply Hj; now right).
    rewrite nth_scatter_add by exact (plan_in_range _ _ _ _ E).
    unfold last_upd. rewrite last_upd_loop_notin; [reflexivity|].
    intro Hi. destruct (plan_indices _ _ _ _ _ E Hi) as (d & p & Hd & Hp & Hk).
    exact (Hj t d p (or_introl eq_refl) Hd Hp Hk).
Qed.

(** The blended mesh has the vertex count of the base mesh, and a vertex
    that no target's index array names keeps its base position. *)
Theorem solve_mesh_frame base_mesh targets factors out :
  solve_mesh base_mesh targets factors = Ok out ->
  length out = length base_mesh /\
  forall j,
    (forall t d p, In t targets -> data t = Some d -> In p d ->
                   np_index (length base_mesh) (fst p) <> Ok j) ->
    nth j out vzero = nth j base_mesh vzero.
Proof. apply solve_loop_frame. Qed.

Lemma np_index_raise_iff n i :
  np_index n i = Raise IndexError <->
  (i < - Z.of_nat n \/ Z.of_nat n <= i)%Z.
Proof.
  unfold np_index.
  destruct ((0 <=? i) && (i <? Z.of_nat n))%Z eqn:E1.
  - apply andb_true_iff in E1 as [H1 H2]. split; [discriminate|lia].
  - destruct ((i <? 0) && (- Z.of_nat n <=? i))%Z eqn:E2.
    + apply andb_true_iff in E2 as [H1 H2]. split; [discriminate|lia].
    + split; [intros _|reflexivity].
      apply andb_false_iff in E1, E2. lia.
Qed.

Lemma resolve_loop_raise_iff n weight d : forall acc,
  (exists e,
     for_each
       (fun acc p => i <- np_index n (fst p) ;; Ok (acc ++ [(i, vscale weight (snd p))]))
       d acc = Raise e) <->
  exists p, In p d /\ np_index n (fst p) = Raise IndexError.
Proof.
  induction d as [|p d IH]; intro acc; simpl.
  - split; [intros [e H]; discriminate | intros (p & [] & _)].
  - destruct (np_index n (fst p)) as [k|e] eqn:E; simpl.
    + rewrite IH. split.
      * intros (q & Hq & Hr). exists q. auto.
      * intros (q & [->|Hq] & Hr); [congruence|]. exists q. auto.
    + pose proof (np_index_raise _ _ _ E) as ->. split.
      * intros _. exists p. auto.
      * intros _. now exists IndexError.
Qed.

Lemma solve_step_raise_iff f a t :
  (exists e, solve_step f a t = Raise e) <->
  tag_weight f (tags t) 1 <> None /\
  exists d p, data t = Some d /\ In p d /\
              np_index (length a) (fst p) = Raise IndexError.
Proof.
  rewrite solve_step_plan. unfold plan.
  destruct (tag_weight f (tags t) 1) as [w|]; simpl.
  - destruct (data t) as [d|]; simpl.
    + unfold resolve.
      pose proof (resolve_loop_raise_iff (length a) w d []) as Hr.
      destruct (for_each _ d []) as [upd|e]; simpl.
      * split; [intros [e H]; discriminate|].
        intros (_ & d' & p & Hd & Hp & Hk). injection Hd as <-.
        destruct (proj2 Hr (ex_intro _ p (conj Hp Hk))). discriminate.
      * split; [|intros _; now exists e].
        intros _. split; [discriminate|].
        destruct (proj1 Hr (ex_intro _ e eq_refl)) as (p & Hp & Hk).
        exists d, p. auto.
    + split; [intros [e H]; discriminate|].
      intros (_ & d & p & Hd & _). discriminate.
  - split; [intros [e H]; discriminate | intros [H _]; congruence].
Qed.

Lemma solve_step_raise f a t e : solve_step f a t = Raise e -> e = IndexError.
Proof.
  rewrite solve_step_plan.
  destruct (plan f (length a) t) as [upd|e'] eqn:E; simpl; [discriminate|].
  intro H. injection H as <-. exact (plan_raise _ _ _ _ E).
Qed.

Lemma solve_loop_raise_iff f ts : forall a,
  (exists e, for_each (solve_step f) ts a = Raise e) <->
  exists t d p, In t ts /\ tag_weight f (tags t) 1 <> None /\ data t = Some d /\
                In p d /\ np_index (length a) (fst p) = Raise IndexError.
Proof.
  induction ts as [|t ts IH]; intro a; simpl.
  - split; [intros [e H]; discriminate | intros (t & d & p & [] & _)].
  - pose proof (solve_step_raise_iff f a t) as Hs.
    destruct (solve_step f a t) as [a1|e] eqn:E; simpl.
    + rewrite IH, (solve_step_length _ _ _ _ E). split.
      * intros (t' & d & p & Ht & H). exists t', d, p. auto.
      * intros (t' & d & p & [<-|Ht] & Hw & Hd & Hp & Hk).
        -- destruct (proj2 Hs (conj Hw (ex_intro _ d (ex_intro _ p
                     (conj Hd (conj Hp Hk)))))). discriminate.
        -- exists t', d, p. auto.
    + split; [|intros _; now exists e]. intros _.
      destruct (proj1 Hs (ex_intro _ e eq_refl)) as (Hw & d & p & Hd & Hp & Hk).
      exists t, d, p. auto.
Qed.

Lemma solve_loop_raise f ts : forall a e,
  for_each (solve_step f) ts a = Raise e -> e = IndexError.
Proof.
  induction ts as [|t ts IH]; intros a e H; simpl in H; [discriminate|].
  destruct (solve_step f a t) as [a1|e'] eqn:E; simpl in H.
  - exact (IH _ _ H).
  - injection H as <-. exact (solve_step_raise _ _ _ _ E).
Qed.

(** [solve_mesh] raises exactly when a target that is not skipped holds an
    index outside the base mesh, and then the exception is IndexError. *)
Theorem solve_mesh_index_error base_mesh targets factors :
  (forall e, solve_mesh base_mesh targets factors = Raise e -> e = IndexError) /\
  (solve_mesh base_mesh targets factors = Raise IndexError <->
   exists t d p,
     In t targets /\ tag_weight factors (tags t) 1 <> None /\
     data t = Some d /\ In p d /\
     (fst p < - Z.of_nat (length base_mesh) \/
      Z.of_nat (length base_mesh) <= fst p)%Z).
Proof.
  split; [apply solve_loop_raise|].
  pose proof (solve_loop_raise_iff factors targets base_mesh) as H.
  unfold solve_mesh. split.
  - intro Hr. destruct (proj1 H (ex_intro _ _ Hr)) as (t & d & p & H1 & H2 & H3 & H4 & H5).
    exists t, d, p. rewrite <- np_index_raise_iff. auto.
  - intros (t & d & p & H1 & H2 & H3 & H4 & H5).
    apply np_index_raise_iff in H5.
    destruct (proj2 H (ex_intro _ t (ex_intro _ d (ex_intro _ p
               (conj H1 (conj H2 (conj H3 (conj H4 H5)))))))) as [e He].
    now rewrite (solve_loop_raise _ _ _ _ He) in He.
Qed.

Lemma tag_weight_zero f tgs : forall w,
  (exists c tv, In (c, tv) tgs /\ tag_factor f tv == 0) ->
  tag_weight f tgs w = None.
Proof.
  induction tgs as [|[c0 tv0] tgs IH]; intros w (c & tv & Hin & Hz); simpl.
  - destruct Hin.
  - destruct (Qlt_bool (w * tag_factor f tv0) 0.001) eqn:E; [reflexivity|].
    destruct Hin as [Heq|Hin].
    + injection Heq as -> ->. rewrite Hz in E.
      apply Qlt_bool_false in E. lra.
    + apply IH. eauto.
Qed.

Lemma tag_factor_missing f s : dict_get f s = None -> tag_factor f (TagName s) == 0.
Proof. intro H. unfold tag_factor, dict_get_default. rewrite H. reflexivity. Qed.

(** Over a factor table with all values in [0,1], a target one of whose
    tags reads the factor 0, or names a value the factor table does not
    hold, is skipped: the blend is the same without it, whatever its
    data. *)
Theorem solve_mesh_ignores_zero_factor base_mesh ts1 t ts2 factors :
  factors_in_unit factors ->
  (exists c tv, In (c, tv) (tags t) /\
     (tag_factor factors tv == 0 \/
      exists s, tv = TagName s /\ dict_get factors s = None)) ->
  solve_mesh base_mesh (ts1 ++ t :: ts2) factors
  = solve_mesh base_mesh (ts1 ++ ts2) factors.
Proof.
  intros _ (c & tv & Hin & Hz).
  assert (Hw : tag_weight factors (tags t) 1 = None).
  { apply tag_weight_zero. exists c, tv. split; [exact Hin|].
    destruct Hz as [Hz|(s & -> & Hs)]; [exact Hz | now apply tag_factor_missing]. }
  unfold solve_mesh. rewrite !for_each_app.
  destruct (for_each (solve_step factors) ts1 base_mesh) as [a|e]; simpl; auto.
  unfold solve_step at 1. now rewrite Hw.
Qed.

(** For sliders in [0,1], the factor table holds 0 for the extreme
    firmness values and for both circumference values: a target tagged
    with one of them is never applied. *)
Theorem firmness_and_circ_targets_never_applied
    (age gender weight muscle height breast_size genital_size : Q)
    new_verts t c s :
  0 <= age <= 1 -> 0 <= gender <= 1 -> 0 <= weight <= 1 ->
  0 <= muscle <= 1 -> 0 <= height <= 1 -> 0 <= breast_size <= 1 ->
  0 <= genital_size <= 1 ->
  In (c, TagName s) (tags t) ->
  In s ["maxfirmness"; "minfirmness"; "penis-circ-incr"; "penis-circ-decr"]%string ->
  solve_step
    (calculate_factors age gender weight muscle height breast_size genital_size)
    new_verts t = Ok new_verts.
Proof.
  intros _ _ _ _ _ _ _ Hin Hs.
  assert (Hz : tag_factor
                 (calculate_factors age gender weight muscle height breast_size
                    genital_size) (TagName s) == 0).
  { unfold tag_factor, dict_get_default, calculate_factors.
    simpl in Hs.
    destruct Hs as [<-|[<-|[<-|[<-|[]]]]];
      case (Qlt_bool age 0.5);
      lazy [factor dict_set dict_get dict_get_default String.eqb Ascii.eqb Bool.eqb];
      reflexivity. }
  unfold solve_step. rewrite tag_weight_zero; [reflexivity|].
  exists c, (TagName s). auto.
Qed.


Lemma calculate_factors_in_unit_witness : factors_in_unit Examples.factors_even.
Proof.
  apply (calculate_factors_in_unit 0.5 0.5 0.5 0.5 0.5 0.5 0.5);
    split; vm_compute; discriminate.
Defined.

Lemma solve_mesh_frame_witness :
  exists out,
    solve_mesh Examples.mesh3 [Examples.target_male; Examples.target_young]
      Examples.factors_even = Ok out /\
    length out = 3%nat /\
    nth 1 out vzero = mkV3 1 2 3.
Proof.
  destruct (solve_mesh Examples.mesh3 [Examples.target_male; Examples.target_young]
              Examples.factors_even) as [out|e] eqn:E;
    [|vm_compute in E; discriminate].
  exists out. split; [reflexivity|].
  destruct (solve_mesh_frame _ _ _ _ E) as [Hl Hf]. split; [exact Hl|].
  rewrite Hf; [reflexivity|].
  intros t d p [<-|[<-|[]]] Hd Hp; injection Hd as <-;
    destruct Hp as [<-|[<-|[]]]; vm_compute; discriminate.
Defined.

Lemma factors_even_in_unit : factors_in_unit Examples.factors_even.
Proof.
  intros k v H. vm_compute in H.
  repeat (destruct H as [H|H];
          [injection H as <- <-; split; discriminate|]).
  contradiction.
Qed.

Lemma solve_mesh_ignores_zero_factor_witness :
  solve_mesh Examples.mesh3
    ([Examples.target_male] ++ Examples.target_old :: [Examples.target_young])
    Examples.factors_even
  = solve_mesh Examples.mesh3 ([Examples.target_male] ++ [Examples.target_young])
      Examples.factors_even.
Proof.
  apply solve_mesh_ignores_zero_factor.
  - exact factors_even_in_unit.
  - exists "age"%string, (TagName "old"). split; [simpl; auto|].
    left. vm_compute. reflexivity.
Defined.

Lemma firmness_and_circ_targets_never_applied_witness :
  solve_step Examples.factors_even Examples.mesh3 Examples.target_firm
  = Ok Examples.mesh3.
Proof.
  apply (firmness_and_circ_targets_never_applied 0.5 0.5 0.5 0.5 0.5 0.5 0.5
           Examples.mesh3 Examples.target_firm "firmness"%string
           "maxfirmness"%string);
    try (split; discriminate); simpl; auto.
Defined.

End MorphMore.

(** ** Target file names *)

Section ParserFacts.
Import Morph Parser.

Lemma dict_set_In {V : Type} (d : dict V) k v c x :
  In (c, x) (dict_set d k v) -> (c, x) = (k, v) \/ In (c, x) d.
Proof.
  induction d as [|[k' v'] d IH]; simpl.
  - intros [H|[]]. left. now symmetry.
  - destruct (String.eqb k' k) eqn:E; simpl.
    + apply String.eqb_eq in E. subst k'.
      intros [H|H]; [left; now symmetry | right; now right].
    + intros [H|H]; [right; now left|].
      destruct (IH H) as [H'|H']; [now left | right; now right].
Qed.

Lemma contains_In l x : contains l x = true <-> In x l.
Proof.
  unfold contains. rewrite existsb_exists. split.
  - intros (y & Hy & E). apply String.eqb_eq in E. now subst.
  - intro H. exists x. split; auto. apply String.eqb_refl.
Qed.

Lemma tags_known_set tags c s :
  tags_known tags -> In s tag_names -> tags_known (dict_set tags c (TagName s)).
Proof.
  intros Hk Hs c' tv Hin. apply dict_set_In in Hin as [E|Hin].
  - injection E as -> ->. exact Hs.
  - exact (Hk _ _ Hin).
Qed.

Lemma match_part_known tags part : tags_known tags -> tags_known (match_part tags part).
Proof.
  unfold match_part.
  assert (H : forall cats, incl cats categories -> forall tags, tags_known tags ->
            tags_known
              (fold_left
                 (fun tags (cv : string * list string) =>
                    if contains (snd cv) part
                    then dict_set tags (fst cv) (TagName part) else tags)
                 cats tags)).
  { induction cats as [|cv cats IH]; intros Hincl tgs Hk; simpl; auto.
    apply IH; [intros x Hx; apply Hincl; now right|].
    destruct (contains (snd cv) part) eqn:E; auto.
    apply tags_known_set; auto. unfold tag_names.
    apply in_concat. exists (snd cv). split.
    - apply in_map. apply Hincl. now left.
    - now apply contains_In. }
  intro Hk. apply H; auto. apply incl_refl.
Qed.

Lemma composite_known parts tags word cat decr incr :
  tags_known tags -> In decr tag_names -> In incr tag_names ->
  tags_known (composite parts tags word cat decr incr).
Proof.
  intros Hk Hd Hi. unfold composite.
  destruct (contains parts word); auto.
  destruct (contains parts "decr"), (contains parts "incr");
    auto using tags_known_set.
Qed.

Lemma parse_parts_known parts : tags_known (parse_parts parts).
Proof.
  unfold parse_parts.
  assert (H0 : tags_known (fold_left match_part parts [])).
  { assert (H : forall tags, tags_known tags ->
              tags_known (fold_left match_part parts tags)).
    { induction parts as [|p parts IH]; intros tags Hk; simpl; auto.
      apply IH. now apply match_part_known. }
    apply H. intros c tv []. }
  set (t0 := fold_left match_part parts []) in *.
  assert (H1 : tags_known
            (if contains parts "penis" then
               composite parts
                 (composite parts
                    (composite parts t0 "length" "penis_len"
                       "penis-length-decr" "penis-length-incr")
                    "circ" "penis_circ" "penis-circ-decr" "penis-circ-incr")
                 "testicles" "penis_test"
                 "penis-testicles-decr" "penis-testicles-incr"
             else t0)).
  { destruct (contains parts "penis"); auto.
    repeat apply composite_known; auto; apply contains_In; reflexivity. }
  cbv zeta.
  destruct (contains parts "universal"); auto.
  intros c tv Hin. apply dict_set_In in Hin as [E|Hin].
  - injection E as -> ->. reflexivity.
  - exact (H1 _ _ Hin).
Qed.

Lemma dict_mem_keys {V : Type} (d : dict V) k :
  In k (dict_keys d) -> dict_mem d k = true.
Proof.
  unfold dict_mem. intro H.
  destruct (dict_get d k) eqn:E; auto.
  exfalso. revert H E. induction d as [|[k' v] d IH]; simpl; auto.
  intros [->|H]; [now rewrite String.eqb_refl|].
  destruct (String.eqb k' k); [discriminate | auto].
Qed.

Lemma calculate_factors_keys
    (age gender weight muscle height breast_size genital_size : Q) :
  dict_keys
    (calculate_factors age gender weight muscle height breast_size genital_size)
  = app ["male"; "female"]%string
      (app (if Qlt_bool age 0.5 then ["old"; "baby"; "young"; "child"]
            else ["child"; "baby"; "old"; "young"])%string
        ["maxmuscle"; "minmuscle"; "averagemuscle";
         "maxweight"; "minweight"; "averageweight";
         "maxheight"; "minheight"; "averageheight";
         "african"; "asian"; "caucasian";
         "maxcup"; "mincup"; "averagecup";
         "maxfirmness"; "minfirmness"; "averagefirmness";
         "penis-length-incr"; "penis-length-decr";
         "penis-testicles-incr"; "penis-testicles-decr";
         "penis-circ-incr"; "penis-circ-decr"; "universal"]%string).
Proof.
  unfold calculate_factors.
  case (Qlt_bool age 0.5);
    lazy [factor dict_set dict_get dict_get_default String.eqb Ascii.eqb Bool.eqb
          dict_keys map fst app];
    reflexivity.
Qed.

Lemma tag_names_defined
    (age gender weight muscle height breast_size genital_size : Q) s :
  In s tag_names ->
  dict_mem
    (calculate_factors age gender weight muscle height breast_size genital_size) s
  = true.
Proof.
  intro H. apply dict_mem_keys. rewrite calculate_factors_keys.
  cbv [tag_names categories map snd concat app] in H.
  destruct (Qlt_bool age 0.5);
    repeat (destruct H as [<-|H]; [apply contains_In; reflexivity|]);
    contradiction.
Qed.

(** Every tag that [_parse_filename] extracts from a file name is the flag
    of [universal] or names a value for which [calculate_factors] defines
    a factor, whatever the sliders: no tag of a parsed target is read with
    the default 0 of a missing key. *)
Theorem parse_filename_tags_defined filename
    (age gender weight muscle height breast_size genital_size : Q) c tv :
  In (c, tv) (parse_filename filename) ->
  match tv with
  | TagTrue => c = "universal"%string
  | TagName s =>
      dict_mem
        (calculate_factors age gender weight muscle height breast_size genital_size)
        s = true
  end.
Proof.
  intro Hin. pose proof (parse_parts_known _ _ _ Hin) as H.
  destruct tv as [|s]; auto. now apply tag_names_defined.
Qed.

Lemma parse_filename_tags_defined_witness :
  parse_filename Examples.file_universal_male_young
  = [("universal", TagTrue); ("gender", TagName "male");
     ("age", TagName "young")]%string /\
  dict_mem (calculate_factors 0.25 0.5 0.75 0.1 1 0 0.5) "young" = true.
Proof.
  split; [vm_compute; reflexivity|].
  apply (parse_filename_tags_defined Examples.file_universal_male_young
           0.25 0.5 0.75 0.1 1 0 0.5 "age"%string (TagName "young")).
  vm_compute. auto.
Defined.

End ParserFacts.

(** ** The stored weight table: shape and errors *)

Section WeightTable.
Import Weights.

Lemma normalize_group_keys wtot g v :
  In v (map fst (normalize_group wtot g)) -> In v (map fst g).
Proof.
  unfold normalize_group.
  assert (H : forall acc,
            In v (map fst (fold_left
              (fun acc item =>
                 group_add acc (fst item) (snd item / nth (fst item) wtot 0)) g acc)) ->
            In v (map fst acc) \/ In v (map fst g)).
  { induction g as [|p g IH]; intros acc Hin; simpl in *; [now left|].
    destruct (IH _ Hin) as [Hacc|Hg]; [|tauto].
    rewrite group_add_keys in Hacc.
    destruct (in_dec Nat.eq_dec (fst p) (map fst acc)); [now left|].
    apply in_app_or in Hacc as [Hacc|[<-|[]]]; tauto. }
  intro Hin. destruct (H [] Hin) as [[]|Hg]. exact Hg.
Qed.

Lemma above_threshold_ascending l : ascending l -> ascending (above_threshold l).
Proof.
  unfold ascending, above_threshold.
  induction l as [|p l IH]; simpl; intro Hs; [constructor|].
  inversion Hs as [|? ? Hs' Hall]; subst.
  destruct (Qlt_bool WEIGHT_THRESHOLD (snd p)); [|auto].
  constructor; [auto|].
  rewrite Forall_forall in *. intros q Hq. apply Hall.
  now apply filter_In in Hq.
Qed.

Lemma add_at_in_range items : forall a r,
  add_at a items = Ok r -> forall i w, In (i, w) items -> (i < length a)%nat.
Proof.
  unfold add_at.
  induction items as [|[j x] items IH]; intros a r H i w Hin; [destruct Hin|].
  simpl in H. unfold iadd_at in H at 1. simpl in H.
  destruct (j <? length a)%nat eqn:E; simpl in H; [|discriminate].
  apply Nat.ltb_lt in E. destruct Hin as [Heq|Hin].
  - injection Heq as <- <-. exact E.
  - specialize (IH _ _ H i w Hin). now rewrite list_set_length in IH.
Qed.

Lemma add_at_returns items : forall a,
  (forall i w, In (i, w) items -> (i < length a)%nat) ->
  exists r, add_at a items = Ok r.
Proof.
  unfold add_at.
  induction items as [|[j x] items IH]; intros a H; simpl; [eauto|].
  unfold iadd_at at 1. simpl.
  assert (E : (j <? length a)%nat = true)
    by (apply Nat.ltb_lt; apply (H j x); now left).
  rewrite E. simpl. apply IH. intros i w Hin.
  rewrite list_set_length. apply (H i w). now right.
Qed.

Lemma add_at_raise items : forall a e, add_at a items = Raise e -> e = IndexError.
Proof.
  unfold add_at.
  induction items as [|[j x] items IH]; intros a e H; simpl in H; [discriminate|].
  unfold iadd_at in H at 1. simpl in H.
  destruct (j <? length a)%nat; simpl in H; [eauto | congruence].
Qed.

Lemma In_concat_raw (d : Raw) i w :
  In (i, w) (concat (map snd d)) <-> exists k g, In (k, g) d /\ In (i, w) g.
Proof.
  rewrite in_concat. split.
  - intros (g & Hg & Hin). apply in_map_iff in Hg as ([k g'] & <- & Hd).
    exists k, g'. auto.
  - intros (k & g & Hd & Hin). exists g. split; auto.
    apply in_map_iff. exists (k, g). auto.
Qed.

(** What the loop over the bones stores: under each key the filtered,
    sorted, normalised group of one non-empty raw group. *)
Lemma bone_weights_loop_entries wtot (d : Raw) k e : forall acc,
  In (k, e) (fold_left (bone_weights_step wtot) d acc) ->
  In (k, e) acc \/
  exists g, In (k, g) d /\
            e = above_threshold (argsort_entry (normalize_group wtot g)).
Proof.
  induction d as [|[k0 g0] d IH]; intros acc Hin; simpl in Hin; [now left|].
  destruct (IH _ Hin) as [Hacc|(g & Hg & He)].
  - unfold bone_weights_step in Hacc. simpl in Hacc.
    destruct g0 as [|p g0]; [now left|].
    apply dict_set_In in Hacc as [Heq|Hacc]; [|now left].
    injection Heq as -> ->. right. exists (p :: g0). split; [now left | reflexivity].
  - right. exists g. split; [now right | exact He].
Qed.

Lemma stored_entry_shape wtot g :
  let e := above_threshold (argsort_entry (normalize_group wtot g)) in
  NoDup (map fst e) /\ ascending e /\
  forall v w, In (v, w) e ->
    In v (map fst g) /\ WEIGHT_THRESHOLD < w /\ ~ nth v wtot 0 == 0.
Proof.
  intro e. subst e.
  assert (Hnd : NoDup (map fst (argsort_entry (normalize_group wtot g))))
    by apply argsort_entry_nodup, normalize_group_nodup.
  split; [now apply above_threshold_nodup|].
  split; [apply above_threshold_ascending, argsort_entry_ascending,
          normalize_group_nodup|].
  intros v w Hin.
  assert (Hw : WEIGHT_THRESHOLD < w).
  { unfold above_threshold in Hin. apply filter_In in Hin as [_ Hw].
    now apply Qlt_bool_iff in Hw. }
  split; [|split; [exact Hw|]].
  - apply normalize_group_keys with (wtot := wtot).
    apply (Permutation_in _ (argsort_entry_keys_perm _)).
    apply above_threshold_keys_incl.
    change v with (fst (v, w)). now apply in_map.
  - intro Hz.
    pose proof (weight_at_unique _ v w (above_threshold_nodup _ Hnd) Hin) as E.
    rewrite stored_weight, Hz in E. unfold keep, Qdiv in E.
    change (/ 0) with 0 in E.
    assert (E0 : weight_at g v * 0 == 0) by ring. rewrite E0 in E.
    change (Qlt_bool WEIGHT_THRESHOLD 0) with false in E.
    cbv iota in E. unfold WEIGHT_THRESHOLD in Hw. lra.
Qed.

(** Every entry of the table that [_build_vertex_weights_data] returns has
    no vertex index twice, only indices below the vertex count and only
    weights above the threshold 1e-4; the entry of a bone other than the
    root bone is sorted by ascending vertex index. *)
Theorem build_vertex_weights_entries
    (d : Raw) (vertexCount : option nat) (rootBone : string)
    (res : dict Entry) (k : string) (e : Entry) :
  raw_nonneg d ->
  build_vertex_weights_data d vertexCount rootBone = Ok res ->
  In (k, e) res ->
  NoDup (map fst e) /\
  (forall v w, In (v, w) e ->
     (v < vertex_count d vertexCount)%nat /\ WEIGHT_THRESHOLD < w) /\
  (k <> rootBone -> ascending e).
Proof.
  intros _ Hb Hin. unfold build_vertex_weights_data in Hb.
  apply bind_ok in Hb as (wtot & Hw & Hres). injection Hres as <-.
  pose proof (add_at_in_range _ _ _ Hw) as Hrange.
  rewrite repeat_length in Hrange.
  assert (Hlen : length wtot = vertex_count d vertexCount).
  { apply add_at_spec in Hw as [Hl _]. now rewrite repeat_length in Hl. }
  set (L := bone_weights_loop wtot d) in *.
  assert (HL : forall k' e', In (k', e') L ->
            NoDup (map fst e') /\ ascending e' /\
            forall v w, In (v, w) e' ->
              (v < vertex_count d vertexCount)%nat /\ WEIGHT_THRESHOLD < w /\
              ~ nth v wtot 0 == 0).
  { intros k' e' Hin'. unfold L, bone_weights_loop in Hin'.
    apply bone_weights_loop_entries in Hin' as [[]|(g & Hg & ->)].
    destruct (stored_entry_shape wtot g) as (H1 & H2 & H3).
    split; [exact H1|]. split; [exact H2|].
    intros v w Hvw. destruct (H3 v w Hvw) as (Hv & Hthr & Hnz).
    split; [|auto]. apply in_map_iff in Hv as ([v' x] & Hv' & Hvx).
    simpl in Hv'. subst v'. apply (Hrange v x).
    apply In_concat_raw. eauto. }
  unfold assign_root in Hin.
  set (e0 := match dict_get L rootBone with None => [] | Some e => e end) in *.
  set (z := map (fun i => (i, 1)) (zero_total_indices wtot)) in *.
  assert (He0 : NoDup (map fst e0) /\
            forall v w, In (v, w) e0 ->
              (v < vertex_count d vertexCount)%nat /\ WEIGHT_THRESHOLD < w /\
              ~ nth v wtot 0 == 0).
  { unfold e0. destruct (dict_get L rootBone) as [e1|] eqn:E.
    - destruct (HL _ _ (dict_get_In _ _ _ E)) as (H1 & _ & H3). auto.
    - split; [constructor | intros v w []]. }
  assert (Hfinal : In (k, e) L \/ (k = rootBone /\ e = e0 ++ z)).
  { destruct (e0 ++ z) eqn:Eapp; [now left|].
    apply dict_set_In in Hin as [Heq|Hin]; [|now left].
    injection Heq as -> ->. now right. }
  destruct Hfinal as [HinL|[-> ->]].
  - destruct (HL _ _ HinL) as (H1 & H2 & H3).
    split; [exact H1|]. split; [|auto].
    intros v w Hvw. destruct (H3 v w Hvw) as (Ha & Hb & _). auto.
  - destruct He0 as [Hnd0 Hp0]. split; [|split; [|congruence]].
    + rewrite map_app. apply NoDup_app; [exact Hnd0 | |].
      * unfold z. rewrite map_map. simpl. rewrite map_id.
        apply zero_total_indices_nodup.
      * intros v Hv0 Hvz. apply in_map_iff in Hv0 as ([v' w] & Hv' & Hvw).
        simpl in Hv'. subst v'. destruct (Hp0 v w Hvw) as (_ & _ & Hnz).
        unfold z in Hvz. rewrite map_map in Hvz. simpl in Hvz.
        rewrite map_id in Hvz. apply zero_total_indices_In in Hvz as [_ Hz].
        contradiction.
    + intros v w Hvw. apply in_app_or in Hvw as [Hvw|Hvw].
      * destruct (Hp0 v w Hvw) as (Ha & Hb & _). auto.
      * unfold z in Hvw. apply in_map_iff in Hvw as (i & Heq & Hi).
        injection Heq as <- <-. apply zero_total_indices_In in Hi as [Hi _].
        split; [lia|]. reflexivity.
Qed.

Lemma build_vertex_weights_entries_witness :
  exists res,
    build_vertex_weights_data Examples.raw_weights (Some 4%nat) "root" = Ok res /\
    forall k e, In (k, e) res ->
      NoDup (map fst e) /\
      (forall v w, In (v, w) e ->
         (v < vertex_count Examples.raw_weights (Some 4%nat))%nat /\
         WEIGHT_THRESHOLD < w) /\
      (k <> "root"%string -> ascending e).
Proof.
  eexists. split; [vm_compute; reflexivity|].
  intros k e Hin.
  eapply (build_vertex_weights_entries Examples.raw_weights (Some 4%nat) "root");
    [exact raw_weights_nonneg | vm_compute; reflexivity | exact Hin].
Defined.

Lemma build_returns_iff (d : Raw) (vertexCount : option nat) (rootBone : string) :
  (exists res, build_vertex_weights_data d vertexCount rootBone = Ok res) <->
  forall k g v w, In (k, g) d -> In (v, w) g ->
    (v < vertex_count d vertexCount)%nat.
Proof.
  unfold build_vertex_weights_data. split.
  - intros [res H] k g v w Hd Hg.
    apply bind_ok in H as (wtot & Hw & _).
    pose proof (add_at_in_range _ _ _ Hw v w) as Hr.
    rewrite repeat_length in Hr. apply Hr. apply In_concat_raw. eauto.
  - intro H.
    destruct (add_at_returns (concat (map snd d))
                (repeat 0 (vertex_count d vertexCount))) as [wtot Hw].
    + intros i w Hin. rewrite repeat_length.
      apply In_concat_raw in Hin as (k & g & Hd & Hg). eauto.
    + rewrite Hw. simpl. eauto.
Qed.

(** For a given vertex count of at most 2^24 (the array of totals then
    takes no more than 64 MB and every index fits uint32) and raw vertex
    indices that are not negative, [_build_vertex_weights_data] returns
    exactly when every raw vertex index is below the vertex count, and the
    only exception it raises is IndexError. *)
Theorem build_vertex_weights_returns
    (d : Raw) (vertexCount : nat) (rootBone : string) :
  (Z.of_nat vertexCount <= 16777216)%Z ->
  ((exists res, build_vertex_weights_data d (Some vertexCount) rootBone = Ok res) <->
   forall k g v w, In (k, g) d -> In (v, w) g -> (v < vertexCount)%nat) /\
  (forall e, build_vertex_weights_data d (Some vertexCount) rootBone = Raise e ->
             e = IndexError).
Proof.
  intros _. split; [apply (build_returns_iff d (Some vertexCount))|].
  intros e H. unfold build_vertex_weights_data in H.
  destruct (add_at _ _) as [wtot|e'] eqn:E; simpl in H; [discriminate|].
  injection H as <-. exact (add_at_raise _ _ _ E).
Qed.

Lemma build_vertex_weights_returns_witness :
  (exists res,
     build_vertex_weights_data Examples.raw_weights (Some 4%nat) "root" = Ok res) /\
  ~ (exists res,
       build_vertex_weights_data Examples.raw_weights (Some 2%nat) "root" = Ok res).
Proof.
  split.
  - destruct (build_vertex_weights_returns Examples.raw_weights 4 "root")
      as [Hiff _]; [vm_compute; discriminate|].
    apply Hiff. intros k g v w Hd Hg. unfold Examples.raw_weights in Hd.
    repeat (destruct Hd as [Hd|Hd];
            [injection Hd as <- <-;
             repeat (destruct Hg as [Hg|Hg]; [injection Hg as <- <-; lia|]);
             destruct Hg|]).
    destruct Hd.
  - intro H.
    destruct (build_vertex_weights_returns Examples.raw_weights 2 "root")
      as [Hiff _]; [vm_compute; discriminate|].
    pose proof (proj1 Hiff H) as Hall.
    assert (Hlt : (2 < 2)%nat); [|lia].
    apply (Hall "arm"%string [(1%nat, 0.99995); (2%nat, 3)] 2%nat 3);
      simpl; auto.
Defined.

Lemma retarget_loop_no_flag data l : forall st,
  (forall b, In b l -> effective_refs b = []) -> snd st = false ->
  snd (fold_left (retarget_bone data) l st) = false.
Proof.
  induction l as [|b l IH]; intros st Hl Hst; simpl; auto.
  apply IH; [intros b' Hb'; apply Hl; now right|].
  unfold retarget_bone. rewrite (Hl b (or_introl eq_refl)).
  destruct (dict_get data (name b)); auto.
Qed.

(** When no bone of the skeleton declares reference bones, retargeting
    leaves the weight table as it is, including the entries of bones the
    skeleton does not have. *)
Theorem retarget_weights_without_references
    (boneslist : list Bone) (data : dict Entry) :
  (forall b, In b boneslist -> effective_refs b = []) ->
  retarget_weights boneslist data = data.
Proof.
  intro H. unfold retarget_weights.
  now rewrite (retarget_loop_no_flag data boneslist ([], false) H eq_refl).
Qed.

Lemma retarget_weights_without_references_witness :
  retarget_weights [Examples.bone_spine] Examples.source_weights
  = Examples.source_weights.
Proof.
  apply retarget_weights_without_references.
  intros b [<-|[]]. reflexivity.
Defined.

End WeightTable.

(** ** The bone ordering of Skeleton.fromFile *)

Section BoneSortFacts.
Import BoneSort.

Lemma mem_In x l : mem x l = true <-> In x l.
Proof.
  unfold mem. rewrite existsb_exists. split.
  - intros (y & Hy & E). apply String.eqb_eq in E. now subst.
  - intro H. exists x. split; auto. apply String.eqb_refl.
Qed.

Lemma remove_first_perm x l : In x l -> Permutation (x :: remove_first x l) l.
Proof.
  induction l as [|y l IH]; simpl; [tauto|].
  destruct (String.eqb y x) eqn:E.
  - apply String.eqb_eq in E. subst y. intros _. reflexivity.
  - intros [->|H]; [rewrite String.eqb_refl in E; discriminate|].
    rewrite perm_swap. now constructor; apply IH.
Qed.

Lemma remove_first_length x l :
  In x l -> S (length (remove_first x l)) = length l.
Proof.
  intro H. apply remove_first_perm in H.
  apply Permutation_length in H. exact H.
Qed.

Lemma remove_first_In x y l : y <> x -> In y l -> In y (remove_first x l).
Proof.
  intros Hne. induction l as [|z l IH]; simpl; [tauto|].
  destruct (String.eqb z x) eqn:E.
  - apply String.eqb_eq in E. subst z. intros [H|H]; [congruence | exact H].
  - intros [->|H]; [now left | right; auto].
Qed.

(** A visit either moves the bone or changes nothing. *)
Lemma visit_cases input st b :
  (visit input st b =
     mkSort (breadthfirst_bones st ++ [b]) (b :: added st)
            (remove_first b (pending st)) true /\
   forall p, parent_of input b = Some p -> In p (added st)) \/
  (visit input st b = st /\ stuck input st b).
Proof.
  unfold visit, stuck. destruct (parent_of input b) as [p|] eqn:Ep.
  - destruct (mem p (added st)) eqn:Em.
    + left. split; [reflexivity|]. intros p' Hp'. injection Hp' as <-.
      now apply mem_In.
    + right. split; [reflexivity|]. exists p. split; [reflexivity|].
      intro H. apply mem_In in H. congruence.
  - left. split; [reflexivity | discriminate].
Qed.

Lemma visit_inv input st b :
  sort_inv input st -> In b (pending st) -> sort_inv input (visit input st b).
Proof.
  intros (Hadd & Hperm & Hord) Hb.
  destruct (visit_cases input st b) as [[-> Hready]|[-> _]];
    [|unfold sort_inv; auto].
  split; [|split]; simpl.
  - intro x. rewrite in_app_iff. simpl. rewrite Hadd. tauto.
  - rewrite <- app_assoc. simpl.
    etransitivity; [|exact Hperm].
    apply Permutation_app_head. now apply remove_first_perm.
  - intros i b' p Hi Hp.
    destruct (Nat.lt_ge_cases i (length (breadthfirst_bones st))) as [Hlt|Hge].
    + rewrite nth_error_app1 in Hi by assumption.
      destruct (Hord i b' p Hi Hp) as (j & Hj & Hpj).
      exists j. split; [exact Hj|].
      rewrite nth_error_app1 by lia. exact Hpj.
    + rewrite nth_error_app2 in Hi by assumption.
      destruct (i - length (breadthfirst_bones st))%nat as [|k] eqn:Ek;
        [|destruct k; discriminate].
      simpl in Hi. injection Hi as <-.
      apply Hready, Hadd, In_nth_error in Hp as [j Hj].
      exists j. split.
      * assert (j < length (breadthfirst_bones st))%nat
          by (apply nth_error_Some; congruence). lia.
      * rewrite nth_error_app1; [exact Hj|].
        apply nth_error_Some. congruence.
Qed.

(** The [for] loop over the rest of the copy of [pending]. *)
Lemma visit_loop input rest : forall st,
  sort_inv input st -> NoDup rest -> incl rest (pending st) ->
  let st' := fold_left (visit input) rest st in
  sort_inv input st' /\
  (length (pending st') <= length (pending st))%nat /\
  (progress st' = false ->
   st' = st /\ forall b, In b rest -> stuck input st b) /\
  (progress st = false -> progress st' = true ->
   (length (pending st') < length (pending st))%nat).
Proof.
  induction rest as [|b rest IH]; intros st Hinv Hnd Hincl; cbv zeta; simpl.
  - split; [exact Hinv|]. split; [lia|]. split.
    + intros _. split; [reflexivity | intros b []].
    + congruence.
  - inversion Hnd as [|? ? Hni Hnd']; subst.
    assert (Hb : In b (pending st)) by (apply Hincl; now left).
    pose proof (visit_inv input st b Hinv Hb) as Hinv1.
    destruct (visit_cases input st b) as [[E Hready]|[E Hstuck]].
    + set (st1 := visit input st b) in *.
      assert (Ep : progress st1 = true) by (rewrite E; reflexivity).
      assert (Epend : pending st1 = remove_first b (pending st))
        by (rewrite E; reflexivity).
      assert (Hincl1 : incl rest (pending st1)).
      { rewrite Epend. intros y Hy. apply remove_first_In.
        - intro. subst y. contradiction.
        - apply Hincl. now right. }
      destruct (IH st1 Hinv1 Hnd' Hincl1) as (H1 & H2 & H3 & H4).
      pose proof (remove_first_length b (pending st) Hb) as Hlen.
      rewrite Epend in H2.
      split; [exact H1|]. split; [lia|]. split.
      * intro Hp. destruct (H3 Hp) as [Hst _]. rewrite Hst in Hp. congruence.
      * intros _ _. lia.
    + rewrite E.
      assert (Hincl1 : incl rest (pending st))
        by (intros y Hy; apply Hincl; now right).
      destruct (IH _ Hinv Hnd' Hincl1) as (H1 & H2 & H3 & H4).
      split; [exact H1|]. split; [exact H2|]. split; [|exact H4].
      intro Hp. destruct (H3 Hp) as [Hst Hall]. split; [exact Hst|].
      intros y [<-|Hy]; auto.
Qed.

Lemma sort_inv_pending_nodup input st :
  NoDup (dict_keys input) -> sort_inv input st -> NoDup (pending st).
Proof.
  intros Hnd (_ & Hperm & _).
  apply (Permutation_NoDup (Permutation_sym Hperm)) in Hnd.
  now apply NoDup_app_remove_l in Hnd.
Qed.

Lemma sweep_spec input st :
  NoDup (dict_keys input) -> sort_inv input st ->
  sort_inv input (sweep input st) /\
  (progress (sweep input st) = true ->
   (length (pending (sweep input st)) < length (pending st))%nat) /\
  (progress (sweep input st) = false ->
   pending (sweep input st) = pending st /\
   added (sweep input st) = added st /\
   breadthfirst_bones (sweep input st) = breadthfirst_bones st /\
   forall b, In b (pending st) -> stuck input st b).
Proof.
  intros Hnd Hinv. unfold sweep.
  set (st0 := mkSort (breadthfirst_bones st) (added st) (pending st) false).
  assert (Hinv0 : sort_inv input st0) by exact Hinv.
  destruct (visit_loop input (pending st) st0 Hinv0
              (sort_inv_pending_nodup _ _ Hnd Hinv) (incl_refl _))
    as (H1 & H2 & H3 & H4).
  split; [exact H1|]. split.
  - intro Hp. exact (H4 eq_refl Hp).
  - intro Hp. destruct (H3 Hp) as [-> Hall]. auto.
Qed.

(** The loop ends within one pass per pending bone, either with nothing
    pending or with every pending bone stuck. *)
Lemma sort_loop_spec input :
  NoDup (dict_keys input) ->
  forall fuel st,
    sort_inv input st -> (length (pending st) <= fuel)%nat ->
    exists st',
      sort_loop fuel input st = Some st' /\ sort_inv input st' /\
      (pending st' = [] \/
       (pending st' <> [] /\ forall b, In b (pending st') -> stuck input st' b)).
Proof.
  intro Hnd. induction fuel as [|fuel IH]; intros st Hinv Hlen.
  - exists st. destruct (pending st) eqn:E; [|simpl in Hlen; lia].
    simpl. rewrite E. auto.
  - destruct (pending st) as [|x l] eqn:E.
    + exists st. simpl. rewrite E. auto.
    + simpl. rewrite E.
      destruct (sweep_spec input st Hnd Hinv) as (H1 & H2 & H3).
      destruct (progress (sweep input st)) eqn:Ep; simpl.
      * apply IH; [exact H1|]. specialize (H2 eq_refl). rewrite E in H2.
        simpl in H2, Hlen. lia.
      * destruct (H3 eq_refl) as (Hpend & Hadd & _ & Hall).
        rewrite Hpend, E. exists (sweep input st).
        split; [reflexivity|]. split; [exact H1|]. right.
        rewrite Hpend, E. split; [discriminate|].
        intros b Hb. rewrite <- E in Hb. destruct (Hall b Hb) as (p & Hp & Hni).
        exists p. split; [exact Hp|]. now rewrite Hadd.
Qed.

Lemma sort_inv_init input :
  sort_inv input (mkSort [] [] (dict_keys input) false).
Proof.
  split; [|split]; simpl.
  - tauto.
  - reflexivity.
  - intros i b p Hi. destruct i; discriminate.
Qed.

Lemma breadthfirst_spec input :
  NoDup (dict_keys input) ->
  exists st,
    breadthfirst input = Some (breadthfirst_bones st) /\ sort_inv input st /\
    (pending st = [] \/
     (pending st <> [] /\ forall b, In b (pending st) -> stuck input st b)).
Proof.
  intro Hnd. unfold breadthfirst.
  destruct (sort_loop_spec input Hnd (length input)
              (mkSort [] [] (dict_keys input) false) (sort_inv_init input))
    as (st & Hs & Hinv & Hend).
  - simpl. unfold dict_keys. now rewrite length_map.
  - exists st. rewrite Hs. auto.
Qed.

(** The bone ordering of [Skeleton.fromFile] always ends, and in the order
    it produces no bone occurs twice, every bone is a bone of the file and
    every bone stands after the parent its definition names. *)
Theorem breadthfirst_parents_first (input_bones : BoneDefs) :
  NoDup (dict_keys input_bones) ->
  exists out,
    breadthfirst input_bones = Some out /\
    NoDup out /\ incl out (dict_keys input_bones) /\
    parents_before input_bones out.
Proof.
  intro Hnd.
  destruct (breadthfirst_spec input_bones Hnd) as (st & Hs & Hinv & _).
  exists (breadthfirst_bones st). split; [exact Hs|].
  destruct Hinv as (_ & Hperm & Hord).
  split; [|split; [|exact Hord]].
  - apply (Permutation_NoDup (Permutation_sym Hperm)) in Hnd.
    now apply NoDup_app_remove_r in Hnd.
  - intros x Hx. apply (Permutation_in _ Hperm). apply in_or_app. now left.
Qed.

(** When the bones of the file can be listed parents first at all (every
    named parent is a bone of the file and there is no cycle), the order
    produced holds every bone of the file, whatever the file order. *)
Theorem breadthfirst_complete (input_bones : BoneDefs) (order out : list string) :
  NoDup (dict_keys input_bones) ->
  Permutation order (dict_keys input_bones) ->
  parents_before input_bones order ->
  breadthfirst input_bones = Some out ->
  Permutation out (dict_keys input_bones).
Proof.
  intros Hnd Hperm Hord Hout.
  destruct (breadthfirst_spec input_bones Hnd) as (st & Hs & Hinv & Hend).
  rewrite Hs in Hout. injection Hout as <-.
  destruct Hinv as (Hadd & Hp & _).
  destruct Hend as [E|[Hne Hstuck]].
  - rewrite E, app_nil_r in Hp. exact Hp.
  - exfalso.
    assert (Hfree : forall i b, nth_error order i = Some b -> ~ In b (pending st)).
    { induction i as [i IH] using lt_wf_ind. intros b Hi Hb.
      destruct (Hstuck b Hb) as (p & Hpar & Hni).
      destruct (Hord i b p Hi Hpar) as (j & Hj & Hpj).
      apply Hni, Hadd.
      assert (Hin : In p (breadthfirst_bones st ++ pending st)).
      { apply (Permutation_in _ (Permutation_sym Hp)).
        apply (Permutation_in _ Hperm). eapply nth_error_In; eassumption. }
      apply in_app_or in Hin as [Hin|Hin]; [exact Hin|].
      exfalso. exact (IH j Hj p Hpj Hin). }
    destruct (pending st) as [|x l] eqn:E; [congruence|].
    assert (Hx : In x order).
    { apply (Permutation_in _ (Permutation_sym Hperm)).
      apply (Permutation_in _ Hp). apply in_or_app. right. rewrite ?E. now left. }
    apply In_nth_error in Hx as [i Hi].
    apply (Hfree i x Hi). rewrite ?E. now left.
Qed.

Lemma arm_defs_keys : NoDup (dict_keys Examples.arm_defs).
Proof. repeat constructor; simpl; intuition discriminate. Qed.

Lemma breadthfirst_parents_first_witness :
  breadthfirst Examples.arm_defs = Some ["root"; "arm"; "hand"]%string /\
  exists out,
    breadthfirst Examples.arm_defs = Some out /\
    NoDup out /\ incl out (dict_keys Examples.arm_defs) /\
    parents_before Examples.arm_defs out.
Proof.
  split; [reflexivity|].
  apply breadthfirst_parents_first. exact arm_defs_keys.
Defined.

Lemma breadthfirst_complete_witness :
  Permutation ["root"; "arm"; "hand"]%string (dict_keys Examples.arm_defs).
Proof.
  apply (breadthfirst_complete Examples.arm_defs ["root"; "arm"; "hand"]%string).
  - exact arm_defs_keys.
  - simpl. apply Permutation_rev with (l := ["root"; "arm"; "hand"]%string).
  - intros i b p Hi Hp.
    destruct i as [|[|[|i]]]; simpl in Hi; try (destruct i; discriminate);
      injection Hi as <-; vm_compute in Hp; try discriminate;
      injection Hp as <-.
    + exists 0%nat. split; [lia | reflexivity].
    + exists 1%nat. split; [lia | reflexivity].
  - reflexivity.
Defined.

End BoneSortFacts.

(** ** The pose sweep in general *)

Lemma map_list_set_same {A B : Type} (f : A -> B) (l : list A) i x v :
  nth_error l i = Some x -> f v = f x -> map f (list_set l i v) = map f l.
Proof.
  revert i. induction l as [|h t IH]; intros i Hi Hf; [destruct i; discriminate|].
  destruct i as [|i]; simpl in *.
  - injection Hi as ->. now rewrite Hf.
  - f_equal. now apply IH.
Qed.

Lemma list_set_same {A : Type} (l : list A) i x :
  nth_error l i = Some x -> list_set l i x = l.
Proof.
  revert i. induction l as [|h t IH]; intros i Hi; [destruct i; discriminate|].
  destruct i as [|i]; simpl in *.
  - now injection Hi as ->.
  - f_equal. now apply IH.
Qed.

Lemma same_rest_bone_refl b : PoseTransfer.same_rest_bone b b.
Proof. repeat split. Qed.

Lemma update_bone_fixed_iff s b : update_bone s b = b <-> fk_consistent_at s b.
Proof.
  unfold fk_consistent_at, update_bone, set_pose_derived. split.
  - intro H. split.
    + apply (f_equal matPoseGlobal) in H. simpl in H. now symmetry.
    + pose proof (f_equal matPoseGlobal H) as Hg.
      apply (f_equal matPoseVerts) in H. simpl in H, Hg.
      rewrite Hg in H. now symmetry.
  - intros [Hg Hv]. destruct b; simpl in *. rewrite <- Hg, <- Hv. reflexivity.
Qed.

(** One bone of the sweep: the bones already updated stay fixed points. *)
Lemma fk_step s0 k s :
  (k < length s0)%nat ->
  length s = length s0 -> map static s = map static s0 -> parents_first s ->
  (forall j b, (j < k)%nat -> nth_error s j = Some b -> update_bone s b = b) ->
  exists s',
    update s k = Ok s' /\
    length s' = length s0 /\ map static s' = map static s0 /\ parents_first s' /\
    (forall j b, (j < S k)%nat -> nth_error s' j = Some b -> update_bone s' b = b).
Proof.
  intros Hk Hlen Hst Hpf Hfix.
  rewrite update_is_update_bone.
  destruct (nth_error s k) as [bk|] eqn:Ek; [|apply nth_error_None in Ek; lia].
  set (b' := update_bone s bk).
  exists (list_set s k b'). split; [reflexivity|].
  split; [now rewrite list_set_length|].
  split; [rewrite <- Hst; now apply map_list_set_same with (x := bk)|].
  split; [now apply parents_first_list_set with (x := bk)|].
  assert (Hpar : forall c, (forall p, parent c = Some p -> (p < k)%nat) ->
            parent_bone (list_set s k b') c = parent_bone s c).
  { intros c Hc. unfold parent_bone.
    destruct (parent c) as [p|]; [|reflexivity].
    apply nth_error_list_set_neq. specialize (Hc p eq_refl). lia. }
  intros j b Hj Hb.
  destruct (Nat.eq_dec k j) as [<-|Hne].
  - rewrite nth_error_list_set_eq in Hb by lia. injection Hb as <-.
    transitivity (update_bone s bk); [|reflexivity].
    apply update_bone_eq; [repeat split | reflexivity|].
    rewrite Hpar; [reflexivity|].
    intros p Hp. exact (Hpf k bk p Ek Hp).
  - rewrite nth_error_list_set_neq in Hb by assumption.
    transitivity (update_bone s b); [|apply (Hfix j); [lia | exact Hb]].
    apply update_bone_eq; [apply same_rest_bone_refl | reflexivity|].
    apply Hpar. intros p Hp. pose proof (Hpf j b p Hb Hp). lia.
Qed.

Lemma fk_prefix s0 :
  parents_first s0 ->
  forall k, (k <= length s0)%nat ->
    exists s,
      for_each update (seq 0 k) s0 = Ok s /\
      length s = length s0 /\ map static s = map static s0 /\ parents_first s /\
      (forall j b, (j < k)%nat -> nth_error s j = Some b -> update_bone s b = b).
Proof.
  intro Hpf. induction k as [|k IH]; intro Hk.
  - exists s0. repeat split; auto. intros j b Hj. lia.
  - destruct IH as (s & Hs & Hl & Hst & Hp & Hfix); [lia|].
    destruct (fk_step s0 k s Hk Hl Hst Hp Hfix) as (s' & Hu & H').
    exists s'. split; [|exact H'].
    rewrite seq_S, for_each_app, Hs. simpl. now rewrite Hu.
Qed.

Lemma update_loop_fixed s :
  (forall j b, nth_error s j = Some b -> update_bone s b = b) ->
  forall idx, for_each update idx s = Ok s.
Proof.
  intros Hfix. induction idx as [|i idx IH]; simpl; [reflexivity|].
  rewrite update_is_update_bone.
  destruct (nth_error s i) as [b|] eqn:E; simpl; [|exact IH].
  rewrite (Hfix i b E), (list_set_same _ _ _ E). exact IH.
Qed.

(** On a skeleton whose parents precede their children, the sweep
    [for b in skel.getBones(): b.update()] returns, changes only the
    derived pose matrices, leaves every bone consistent with its parent's
    final global pose, and a second sweep changes nothing. *)
Theorem update_all_fk_consistent (s : list Bone) :
  parents_first s ->
  exists s',
    update_all s = Ok s' /\
    map static s' = map static s /\
    fk_consistent s' /\
    update_all s' = Ok s'.
Proof.
  intro Hpf.
  destruct (fk_prefix s Hpf (length s) (le_n _)) as (s' & Hs & Hl & Hst & _ & Hfix).
  assert (Hall : forall j b, nth_error s' j = Some b -> update_bone s' b = b).
  { intros j b Hb. apply (Hfix j); [|exact Hb].
    rewrite <- Hl. apply nth_error_Some. congruence. }
  exists s'. split; [exact Hs|]. split; [exact Hst|]. split.
  - intros i b Hb. apply update_bone_fixed_iff. exact (Hall i b Hb).
  - unfold update_all. now apply update_loop_fixed.
Qed.

Lemma posed_rig_parents_first : parents_first Examples.posed_rig.
Proof.
  intros i b p Hb Hp. destruct i as [|[|i]]; simpl in Hb.
  - injection Hb as <-. discriminate.
  - injection Hb as <-. injection Hp as <-. lia.
  - destruct i; discriminate.
Qed.

Lemma update_all_fk_consistent_witness :
  exists s',
    update_all Examples.posed_rig = Ok s' /\
    map static s' = map static Examples.posed_rig /\
    fk_consistent s' /\
    update_all s' = Ok s'.
Proof.
  apply update_all_fk_consistent. exact posed_rig_parents_first.
Defined.

(** ** Pose transfer: what it touches *)

Lemma getBone_from_name s n : forall i found p,
  getBone_from s n i found = Some p ->
  found = Some p \/
  ((i <= p)%nat /\ exists b, nth_error s (p - i) = Some b /\ name b = n).
Proof.
  induction s as [|b s IH]; intros i found p H; simpl in H; [now left|].
  destruct (IH _ _ _ H) as [Hf|(Hle & c & Hc & Hn)].
  - destruct (String.eqb (name b) n) eqn:E; [|now left].
    injection Hf as <-. right. split; [lia|].
    exists b. rewrite Nat.sub_diag. split; [reflexivity|].
    now apply String.eqb_eq.
  - right. split; [lia|]. exists c. split; [|exact Hn].
    replace (p - i)%nat with (S (p - S i)) by lia. exact Hc.
Qed.

Lemma getBone_name s n p :
  getBone s n = Some p -> exists b, nth_error s p = Some b /\ name b = n.
Proof.
  intro H. apply getBone_from_name in H as [H|(_ & b & Hb & Hn)]; [discriminate|].
  rewrite Nat.sub_0_r in Hb. eauto.
Qed.

(** [bone.matPose = m; bone.update()] stores one bone and nothing else. *)
Lemma set_pose_update s i bone m :
  nth_error s i = Some bone ->
  update (list_set s i (set_matPose bone m)) i =
  Ok (list_set s i
        (update_bone (list_set s i (set_matPose bone m)) (set_matPose bone m))).
Proof.
  intro H.
  assert (Hi : (i < length s)%nat) by (apply nth_error_Some; congruence).
  rewrite update_is_update_bone, nth_error_list_set_eq by exact Hi.
  now rewrite list_set_twice.
Qed.

Section PoseTransferFrame.
Import PoseTransfer.

Variable normalize : V3 -> V3.
Variable rotx : Q -> M44.
Variable rotate : Q -> V3 -> M44.
Variable arccos : Q -> Q.
Variable degrees : Q -> Q.

Lemma reset_prefix_identity s0 :
  forall k, (k <= length s0)%nat ->
    exists s,
      for_each reset_bone (seq 0 k) s0 = Ok s /\
      length s = length s0 /\ map rest_fields s = map rest_fields s0 /\
      forall j b, (j < k)%nat -> nth_error s j = Some b -> matPose b = identity4.
Proof.
  induction k as [|k IH]; intro Hk.
  - exists s0. repeat split; auto. intros j b Hj. lia.
  - destruct IH as (s & Hs & Hl & Hr & Hid); [lia|].
    destruct (nth_error s k) as [bk|] eqn:Ek; [|apply nth_error_None in Ek; lia].
    eexists. rewrite seq_S, for_each_app, Hs. simpl.
    unfold reset_bone at 1. rewrite Ek, (set_pose_update _ _ _ _ Ek).
    split; [reflexivity|]. split; [now rewrite list_set_length|].
    split; [rewrite <- Hr; now apply map_list_set_same with (x := bk)|].
    intros j b Hj Hb. destruct (Nat.eq_dec k j) as [<-|Hne].
    + rewrite nth_error_list_set_eq in Hb by lia. now injection Hb as <-.
    + rewrite nth_error_list_set_neq in Hb by assumption.
      apply (Hid j); [lia | exact Hb].
Qed.

(** One chain either changes nothing or stores a new pose in the bone the
    chain names. *)
Lemma align_bone_step op s chain s' :
  align_bone normalize rotx rotate arccos degrees op s chain = Ok s' ->
  s' = s \/
  exists i b b',
    nth_error s i = Some b /\ name b = fst (fst chain) /\
    s' = list_set s i b' /\ rest_fields b' = rest_fields b.
Proof.
  destruct chain as [[bone_name op_start] op_end]. unfold align_bone.
  destruct (dict_get op op_start) as [p_start|];
    [|intro H; injection H as <-; now left].
  destruct (dict_get op op_end) as [p_end|];
    [|intro H; injection H as <-; now left].
  destruct (getBone s bone_name) as [i|] eqn:Eg;
    [|intro H; injection H as <-; now left].
  destruct (nth_error s i) as [bone|] eqn:Eb;
    [|intro H; injection H as <-; now left].
  cbv zeta. intro H. apply bind_ok in H as (inv & _ & H).
  rewrite (set_pose_update _ _ _ _ Eb) in H. injection H as <-.
  right. destruct (getBone_name _ _ _ Eg) as (b0 & Hb0 & Hn).
  assert (b0 = bone) by congruence. subst b0.
  eexists i, bone, _. split; [exact Eb|]. split; [exact Hn|].
  split; reflexivity.
Qed.

Lemma align_loop_frame op chains : forall s s',
  for_each (align_bone normalize rotx rotate arccos degrees op) chains s = Ok s' ->
  map rest_fields s' = map rest_fields s /\
  forall i b, nth_error s' i = Some b ->
    In (name b) (map (fun c : string * string * string => fst (fst c)) chains) \/
    nth_error s i = Some b.
Proof.
  induction chains as [|c chains IH]; intros s s' H; simpl in H.
  - injection H as <-. auto.
  - apply bind_ok in H as (s1 & H1 & H).
    destruct (IH _ _ H) as [Hr Hb]. clear IH.
    apply align_bone_step in H1 as [->|(i & b & b' & Hi & Hn & -> & Hrf)].
    + split; [exact Hr|]. intros j x Hx.
      destruct (Hb j x Hx) as [Hin|Hs]; [left; now right | now right].
    + split; [rewrite Hr; now apply map_list_set_same with (x := b)|].
      intros j x Hx. destruct (Hb j x Hx) as [Hin|Hs]; [left; now right|].
      destruct (Nat.eq_dec i j) as [<-|Hne].
      * assert (Hlt : (i < length s)%nat) by (apply nth_error_Some; congruence).
        rewrite nth_error_list_set_eq in Hs by exact Hlt. injection Hs as <-.
        left. left. rewrite <- Hn.
        apply (f_equal (fun t => fst (fst (fst (fst (fst (fst (fst t)))))))) in Hrf.
        simpl in Hrf. now symmetry.
      * rewrite nth_error_list_set_neq in Hs by assumption. now right.
Qed.

(** When [apply_pose] returns, the names, parents, joint positions and rest
    matrices are as before, and every bone that [CHAINS] does not name has
    the identity as its local pose, whatever pose it had before. *)
Theorem apply_pose_frame (s : list Bone) (openpose_data : dict V3) (s' : list Bone) :
  apply_pose normalize rotx rotate arccos degrees s openpose_data = Ok s' ->
  map rest_fields s' = map rest_fields s /\
  forall i b, nth_error s' i = Some b -> ~ In (name b) chain_bones ->
    matPose b = identity4.
Proof.
  unfold apply_pose. intro H. apply bind_ok in H as (s1 & H1 & H).
  destruct (reset_prefix_identity s (length s) (le_n _)) as (s1' & Hs & Hl & Hr & Hid).
  unfold reset_pose in H1. rewrite Hs in H1. injection H1 as <-.
  destruct (align_loop_frame _ _ _ _ H) as [Hr' Hb].
  split; [congruence|].
  intros i b Hi Hni. destruct (Hb i b Hi) as [Hin|Hs1]; [contradiction|].
  apply (Hid i); [|exact Hs1].
  rewrite <- Hl. apply nth_error_Some. congruence.
Qed.

End PoseTransferFrame.

Lemma apply_pose_frame_witness :
  exists s',
    PoseTransfer.apply_pose Examples.keep_vector Examples.half_turn_x
      Examples.quarter_turn_z Examples.keep_angle Examples.keep_angle
      Examples.arm_b Examples.landmarks = Ok s' /\
    map rest_fields s' = map rest_fields Examples.arm_b /\
    option_map matPose (nth_error Examples.arm_b 0)
      = Some (Examples.translate4 0 7 0) /\
    option_map matPose (nth_error s' 0) = Some identity4.
Proof.
  destruct (PoseTransfer.apply_pose Examples.keep_vector Examples.half_turn_x
              Examples.quarter_turn_z Examples.keep_angle Examples.keep_angle
              Examples.arm_b Examples.landmarks) as [s'|e] eqn:E;
    [|vm_compute in E; discriminate].
  exists s'. split; [reflexivity|].
  destruct (apply_pose_frame _ _ _ _ _ _ _ _ E) as [Hr Hid].
  split; [exact Hr|]. split; [reflexivity|].
  destruct (nth_error s' 0) as [b|] eqn:Eb.
  - simpl. f_equal. apply (Hid 0%nat b Eb).
    assert (Hn : name b = "clavicle_l"%string).
    { apply (f_equal (fun l => nth_error l 0)) in Hr.
      rewrite nth_error_map, Eb in Hr. simpl in Hr.
      injection Hr as Hn _ _ _ _ _ _ _. exact Hn. }
    rewrite Hn. vm_compute. intuition discriminate.
  - apply (f_equal (@length _)) in Hr. rewrite !length_map in Hr.
    apply nth_error_None in Eb. simpl in Hr. lia.
Defined.

(** ** The two skinning loops *)

Section SkinLoops.
Import Weights Skin.

Lemma getBone_from_snoc l b n : forall i found,
  getBone_from (l ++ [b]) n i found =
  if String.eqb (name b) n then Some (i + length l)%nat
  else getBone_from l n i found.
Proof.
  induction l as [|c l IH]; intros i found; simpl.
  - now rewrite Nat.add_0_r.
  - rewrite IH. now rewrite Nat.add_succ_r.
Qed.

(** The matrix table of the preview endpoint holds, under a name, the
    skinning matrix of the bone that [getBone] finds under that name. *)
Lemma bone_matrices_getBone bones k :
  dict_get (bone_matrices bones) k =
  match getBone bones k with
  | Some i => option_map matPoseVerts (nth_error bones i)
  | None => None
  end.
Proof.
  unfold bone_matrices, getBone.
  induction bones as [|b bones IH] using rev_ind; [reflexivity|].
  rewrite fold_left_app, getBone_from_snoc. simpl.
  destruct (String.eqb (name b) k) eqn:E.
  - apply String.eqb_eq in E. subst k. rewrite dict_get_set_same.
    rewrite nth_error_app2 by lia. now rewrite Nat.sub_diag.
  - apply String.eqb_neq in E. rewrite dict_get_set_other by exact E.
    rewrite IH. destruct (getBone_from bones k 0 None) as [i|] eqn:Eg; auto.
    apply getBone_bound in Eg. now rewrite nth_error_app1.
Qed.

Lemma gather_length verts idx vs : gather verts idx = Ok vs -> length vs = length idx.
Proof. intro H. apply gather_spec in H. subst. now rewrite length_map. Qed.

Lemma in_range_weighted_rows n mat verts (e : Entry) :
  in_range n (weighted_rows mat (map (fun i => nth i verts vzero) (map fst e)) e)
  = in_range n e.
Proof.
  rewrite weighted_rows_gathered. unfold in_range.
  induction e as [|p e IH]; simpl; auto. now rewrite IH.
Qed.

Lemma in_range_In {B : Type} n (upd : list (nat * B)) :
  in_range n upd = true -> forall i w, In (i, w) upd -> (i < n)%nat.
Proof.
  unfold in_range. rewrite forallb_forall. intros H i w Hin.
  specialize (H _ Hin). simpl in H. now apply Nat.ltb_lt.
Qed.

(** One bone of the weight table in the two loops: they store the same
    array, and one raises exactly when the other does. *)
Lemma skin_steps_agree bones verts d t (kv : string * Entry) :
  length t = length d ->
  match pose_studio_step bones verts d kv with
  | Ok d' =>
      exists t', lbs_step (bone_matrices bones) verts (d, t) kv = Ok (d', t') /\
                 length t' = length d'
  | Raise _ => exists e, lbs_step (bone_matrices bones) verts (d, t) kv = Raise e
  end.
Proof.
  intro Hlen. unfold pose_studio_step, lbs_step.
  rewrite bone_matrices_getBone.
  destruct (getBone bones (fst kv)) as [i|]; [|exists t; auto].
  destruct (nth_error bones i) as [bone|]; simpl; [|exists t; auto].
  destruct (snd kv) as [|p e] eqn:Ee.
  - simpl. exists t. auto.
  - rewrite <- Ee.
    destruct (gather verts (map fst (snd kv))) as [vs|e1] eqn:Eg; simpl;
      [|now exists e1].
    apply gather_spec in Eg. subst vs. unfold fancy_iadd.
    rewrite in_range_weighted_rows.
    destruct (in_range (length d) (snd kv)) eqn:Er; simpl; [|now exists IndexError].
    destruct (add_at_returns (snd kv) t) as [t' Ht].
    { intros j w Hin. rewrite Hlen. exact (in_range_In _ _ Er j w Hin). }
    rewrite Ht. simpl. exists t'. split; [reflexivity|].
    apply add_at_spec in Ht as [Hl _]. rewrite scatter_add_length. congruence.
Qed.

Lemma skin_loops_agree bones verts (wd : dict Entry) : forall d t,
  length t = length d ->
  match for_each (pose_studio_step bones verts) wd d with
  | Ok out =>
      exists total,
        for_each (lbs_step (bone_matrices bones) verts) wd (d, t) = Ok (out, total)
  | Raise _ =>
      exists e, for_each (lbs_step (bone_matrices bones) verts) wd (d, t) = Raise e
  end.
Proof.
  induction wd as [|kv wd IH]; intros d t Hlen; simpl.
  - now exists t.
  - pose proof (skin_steps_agree bones verts d t kv Hlen) as Hs.
    destruct (pose_studio_step bones verts d kv) as [d'|e]; simpl.
    + destruct Hs as (t' & -> & Hl'). simpl. now apply IH.
    + destruct Hs as (e' & ->). simpl. now exists e'.
Qed.

(** The skinning loop of [PoseStudio._apply_pose] and the one of the
    preview endpoint accumulate the same array: when the first returns,
    the preview output is that array with the unskinned vertices put back
    at rest; when the first raises, the preview returns the mesh unchanged. *)
Theorem skinning_paths_agree (bones : list Bone) (wd : dict Entry) (verts : list V3) :
  match skin_pose_studio bones (Some wd) verts with
  | Ok out =>
      exists total_weight,
        lbs_accumulate bones wd verts = Ok (out, total_weight) /\
        skin_preview bones wd verts = unskinned_fallback out total_weight verts
  | Raise _ => skin_preview bones wd verts = verts
  end.
Proof.
  unfold skin_pose_studio, skin_preview, lbs_accumulate.
  pose proof (skin_loops_agree bones verts wd
                (map (fun _ => vzero) verts) (map (fun _ => 0) verts)) as H.
  rewrite !length_map in H. specialize (H eq_refl).
  destruct (for_each (pose_studio_step bones verts) wd _) as [out|e].
  - destruct H as (t & ->). exists t. auto.
  - destruct H as (e' & ->). reflexivity.
Qed.

Lemma lbs_step_blend bm verts st (kv : string * Entry) st' j :
  NoDup (map fst (snd kv)) ->
  lbs_step bm verts st kv = Ok st' ->
  veq (nth j (fst st') vzero)
      (vadd (nth j (fst st) vzero)
         match dict_get bm (fst kv) with
         | Some mat =>
             vscale (weight_at (snd kv) j) (transform_point mat (nth j verts vzero))
         | None => vzero
         end).
Proof.
  intros Hnd Hstep. unfold lbs_step in Hstep.
  destruct (dict_get bm (fst kv)) as [mat|] eqn:Ebm.
  - apply bind_ok in Hstep as (vs & Hvs & Hstep).
    apply bind_ok in Hstep as (d & Hdef & Hstep).
    apply bind_ok in Hstep as (t & _ & Hstep).
    injection Hstep as <-. simpl.
    apply gather_spec in Hvs. subst vs.
    rewrite weighted_rows_gathered in Hdef.
    unfold fancy_iadd in Hdef.
    destruct (in_range (length (fst st)) _) eqn:Hr; [|discriminate].
    injection Hdef as <-.
    rewrite nth_scatter_add by exact Hr. unfold last_upd.
    destruct (in_dec Nat.eq_dec j (map fst (snd kv))) as [Hin|Hni].
    + apply in_map_iff in Hin as ([j' w] & Hfst & Hin). simpl in Hfst. subst j'.
      rewrite (last_upd_loop_unique _ j
                 (vscale w (transform_point mat (nth j verts vzero)))).
      * now rewrite (weight_at_unique _ _ _ Hnd Hin).
      * rewrite map_map. simpl. exact Hnd.
      * apply in_map_iff. exists (j, w). auto.
    + rewrite last_upd_loop_notin by (rewrite map_map; simpl; exact Hni).
      rewrite (weight_at_notin _ _ Hni).
      unfold veq, vadd, vscale; simpl. repeat split; ring.
  - injection Hstep as <-. symmetry. apply vadd_zero_r.
Qed.

Lemma lbs_loop_blend bm verts (wd : dict Entry) j : forall st st',
  (forall k e, In (k, e) wd -> NoDup (map fst e)) ->
  for_each (lbs_step bm verts) wd st = Ok st' ->
  veq (nth j (fst st') vzero)
      (vadd (nth j (fst st) vzero) (blend bm wd (nth j verts vzero) j)).
Proof.
  induction wd as [|[k e] wd IH]; intros st st' Hnd H; simpl in H.
  - injection H as <-. symmetry. apply vadd_zero_r.
  - apply bind_ok in H as (st1 & Hstep & Hrest).
    rewrite (IH _ _ (fun k' e' Hin => Hnd k' e' (or_intror Hin)) Hrest).
    rewrite (lbs_step_blend bm verts st (k, e) st1 j
               (Hnd k e (or_introl eq_refl)) Hstep).
    simpl. destruct (dict_get bm k) as [mat|];
      unfold veq, vadd, vscale; simpl; repeat split; ring.
Qed.

(** Over a weight table without a repeated vertex index inside a bone,
    the skinning of [PoseStudio._apply_pose] returns an array of the size
    of the mesh whose every vertex is the linear blend of its rest
    position: the sum over the bones of weight times skinning matrix
    applied to the rest position. *)
Theorem skin_pose_studio_blend
    (bones : list Bone) (wd : dict Entry) (verts out : list V3) :
  (forall k e, In (k, e) wd -> NoDup (map fst e)) ->
  skin_pose_studio bones (Some wd) verts = Ok out ->
  length out = length verts /\
  forall j, (j < length verts)%nat ->
    veq (nth j out vzero)
        (blend (bone_matrices bones) wd (nth j verts vzero) j).
Proof.
  intros Hnd H. unfold skin_pose_studio in H.
  pose proof (skin_loops_agree bones verts wd
                (map (fun _ => vzero) verts) (map (fun _ => 0) verts)) as Ha.
  rewrite !length_map in Ha. specialize (Ha eq_refl). rewrite H in Ha.
  destruct Ha as (t & Ha). split.
  - destruct (lbs_accumulate_lengths bones wd verts out t Ha) as [Hl _]. exact Hl.
  - intros j Hj.
    rewrite (lbs_loop_blend _ _ _ j _ _ Hnd Ha). simpl.
    rewrite nth_map_const by exact Hj.
    unfold veq, vadd, vzero; simpl. repeat split; ring.
Qed.

Lemma skin_pose_studio_blend_witness :
  exists out,
    skin_pose_studio Examples.rest_rig (Some Examples.skin_weights) Examples.mesh3
      = Ok out /\
    length out = 3%nat /\
    veq (nth 0 out vzero)
        (blend (bone_matrices Examples.rest_rig) Examples.skin_weights
           (nth 0 Examples.mesh3 vzero) 0).
Proof.
  destruct (skin_pose_studio Examples.rest_rig (Some Examples.skin_weights)
              Examples.mesh3) as [out|e] eqn:E; [|vm_compute in E; discriminate].
  exists out. split; [reflexivity|].
  destruct (skin_pose_studio_blend _ _ _ _ skin_weights_nodup E) as [Hl Hb].
  split; [exact Hl|]. apply Hb. simpl. lia.
Defined.

End SkinLoops.

(** ** The skeleton built by Skeleton.fromFile *)

Lemma getBone_of_name s n :
  In n (map name s) -> exists i, getBone s n = Some i.
Proof.
  unfold getBone. induction s as [|b s IH] using rev_ind; [intros []|].
  rewrite map_app, in_app_iff, getBone_from_snoc. simpl.
  destruct (String.eqb (name b) n) eqn:E; [eauto|].
  intros [H|[H|[]]]; [auto|]. subst n. now rewrite String.eqb_refl in E.
Qed.

Lemma addBone_names s proto pn :
  map name (addBone s proto pn) = map name s ++ [name proto].
Proof. unfold addBone. now rewrite map_app. Qed.

Lemma addBone_links input s proto :
  parent_links input s ->
  (forall pn, BoneSort.parent_of input (name proto) = Some pn ->
              In pn (map name s)) ->
  parent_links input (addBone s proto (BoneSort.parent_of input (name proto))).
Proof.
  intros Hl Hp i b Hi. unfold addBone in Hi.
  destruct (Nat.lt_ge_cases i (length s)) as [Hlt|Hge].
  - rewrite nth_error_app1 in Hi by exact Hlt.
    specialize (Hl i b Hi).
    destruct (BoneSort.parent_of input (name b)) as [pn|]; [|exact Hl].
    destruct Hl as (p & pb & H1 & H2 & H3 & H4).
    exists p, pb. repeat split; auto.
    unfold addBone. rewrite nth_error_app1; [exact H3|lia].
  - rewrite nth_error_app2 in Hi by exact Hge.
    destruct (i - length s)%nat as [|k] eqn:Ek;
      [|destruct k; discriminate Hi].
    simpl in Hi. injection Hi as <-. simpl.
    destruct (BoneSort.parent_of input (name proto)) as [pn|] eqn:Epn;
      [|reflexivity].
    destruct (getBone_of_name s pn (Hp pn eq_refl)) as [p Hg].
    destruct (getBone_name s pn p Hg) as (pb & Hnth & Hname).
    pose proof (getBone_bound s pn p Hg) as Hb.
    exists p, pb. rewrite Hg. repeat split; auto; [lia|].
    unfold addBone. now rewrite nth_error_app1.
Qed.

Lemma add_bones_spec input fields : forall order s,
  parent_links input s ->
  BoneSort.parents_before input (map name s ++ order) ->
  parent_links input (add_bones input fields order s) /\
  map name (add_bones input fields order s) = map name s ++ order.
Proof.
  induction order as [|n order IH]; intros s Hl Hpb.
  - simpl. now rewrite app_nil_r.
  - change (add_bones input fields (n :: order) s)
      with (add_bones input fields order
              (addBone s (with_name (fields n) n) (BoneSort.parent_of input n))).
    set (proto := with_name (fields n) n).
    assert (Hn : name proto = n) by reflexivity.
    assert (Hs : parent_links input
                   (addBone s proto (BoneSort.parent_of input n))).
    { pose proof (addBone_links input s proto Hl) as Ha.
      rewrite Hn in Ha. apply Ha. intros pn Hpn.
      destruct (Hpb (length (map name s)) n pn) as (j & Hj & Hnth).
      - rewrite nth_error_app2 by lia. now rewrite Nat.sub_diag.
      - exact Hpn.
      - rewrite nth_error_app1 in Hnth by exact Hj.
        eapply nth_error_In, Hnth. }
    destruct (IH (addBone s proto (BoneSort.parent_of input n)) Hs) as [H1 H2].
    + rewrite addBone_names, Hn, <- app_assoc. exact Hpb.
    + split; [exact H1|].
      rewrite H2, addBone_names, Hn, <- app_assoc.
      reflexivity.
Qed.

Lemma getBone_index s i b :
  NoDup (map name s) -> nth_error s i = Some b -> getBone s (name b) = Some i.
Proof.
  intros Hnd Hi.
  destruct (getBone_of_name s (name b)) as [p Hg].
  { apply in_map. eapply nth_error_In, Hi. }
  destruct (getBone_name s _ p Hg) as (pb & Hp & Hname).
  rewrite Hg. f_equal.
  apply (proj1 (NoDup_nth_error (map name s)) Hnd).
  - rewrite length_map. apply nth_error_Some. congruence.
  - rewrite !nth_error_map, Hp, Hi. simpl. now rewrite Hname.
Qed.

(** For a bone table without a repeated name, [Skeleton.fromFile] builds a
    bone list that carries the names in sorted order, in which [getBone]
    finds every bone under its own name, parents precede their children,
    and the parent object of each bone is the bone that its definition
    names as parent (none for a missing, null or empty parent). *)
Theorem fromFile_parent_links
    (input_bones : BoneSort.BoneDefs) (fields : string -> Bone) :
  NoDup (dict_keys input_bones) ->
  exists s,
    fromFile_bones input_bones fields = Some s /\
    BoneSort.breadthfirst input_bones = Some (map name s) /\
    (forall i b, nth_error s i = Some b -> getBone s (name b) = Some i) /\
    parents_first s /\
    parent_links input_bones s.
Proof.
  intro Hnd. unfold fromFile_bones.
  destruct (breadthfirst_spec input_bones Hnd)
    as (st & Hbf & (Hadd & Hperm & Hpb) & _).
  rewrite Hbf.
  destruct (add_bones_spec input_bones fields (BoneSort.breadthfirst_bones st) [])
    as [Hl Hnames].
  - intros i b Hi. destruct i; discriminate Hi.
  - exact Hpb.
  - simpl in Hnames.
    exists (add_bones input_bones fields (BoneSort.breadthfirst_bones st) []).
    split; [reflexivity|]. split; [now rewrite Hnames|].
    split; [|split; [|exact Hl]].
    + intros i b Hi. apply getBone_index; [|exact Hi].
      rewrite Hnames.
      assert (Hnd' : NoDup (BoneSort.breadthfirst_bones st ++ BoneSort.pending st)).
      { eapply Permutation_NoDup; [symmetry; exact Hperm|exact Hnd]. }
      now apply NoDup_app_remove_r in Hnd'.
    + intros i b p Hi Hp. specialize (Hl i b Hi).
      destruct (BoneSort.parent_of input_bones (name b)).
      * destruct Hl as (p' & pb & H1 & H2 & _). congruence.
      * congruence.
Qed.

Lemma fromFile_parent_links_witness :
  exists s,
    fromFile_bones Examples.arm_defs (fun _ => Examples.bone_root) = Some s /\
    map name s = ["root"; "arm"; "hand"]%string /\
    map parent s = [None; Some 0%nat; Some 1%nat] /\
    parent_links Examples.arm_defs s.
Proof.
  destruct (fromFile_parent_links Examples.arm_defs (fun _ => Examples.bone_root)
              arm_defs_keys) as (s & Hs & _ & _ & _ & Hl).
  exists s. split; [exact Hs|].
  vm_compute in Hs. injection Hs as <-.
  split; [reflexivity|]. split; [reflexivity|exact Hl].
Defined.

(** ** The chain of the IK solver *)

Lemma chain_loop_app s : forall n current chain,
  chain_loop s n current chain = chain ++ chain_loop s n current [].
Proof.
  induction n as [|n IH]; intros current chain; simpl.
  - now rewrite app_nil_r.
  - destruct (nth_error s current) as [b|]; [|reflexivity].
    destruct (parent b) as [p|]; [|reflexivity].
    rewrite (IH p (chain ++ [current])), (IH p [current]).
    now rewrite <- app_assoc.
Qed.

Lemma chain_loop_cons s n current :
  chain_loop s (S n) current [] =
  current ::
    match nth_error s current with
    | Some b =>
        match parent b with
        | Some p => chain_loop s n p []
        | None => []
        end
    | None => []
    end.
Proof.
  simpl. destruct (nth_error s current) as [b|]; [|reflexivity].
  destruct (parent b) as [p|]; [|reflexivity].
  now rewrite chain_loop_app.
Qed.

Lemma last_nonempty_default {A : Type} (l : list A) x d d' :
  last (d :: x :: l) d = last (x :: l) d'.
Proof.
  change (last (d :: x :: l) d) with (last (x :: l) d).
  revert x. induction l as [|y l IH]; intro x; [reflexivity|].
  change (last (y :: l) d = last (y :: l) d'). apply IH.
Qed.

Lemma chain_loop_spec s :
  parents_first s ->
  forall n current, (current < length s)%nat ->
    let chain := chain_loop s n current [] in
    (length chain <= n)%nat /\
    (forall c, In c chain -> (c <= current)%nat) /\
    NoDup chain /\
    (forall k c d, nth_error chain k = Some c -> nth_error chain (S k) = Some d ->
                   parent_at s c d) /\
    ((length chain < n)%nat -> exists c, last chain current = c /\ root_at s c) /\
    (n <> 0%nat -> hd_error chain = Some current).
Proof.
  intros Hpf. induction n as [|n IH]; intros current Hcur.
  - simpl. split; [lia|]. split; [intros c []|]. split; [constructor|].
    split; [intros k c d H; destruct k; discriminate H|].
    split; [lia|congruence].
  - cbv zeta. rewrite chain_loop_cons.
    destruct (nth_error s current) as [b|] eqn:Eb;
      [|apply nth_error_None in Eb; lia].
    destruct (parent b) as [p|] eqn:Ep.
    + pose proof (Hpf current b p Eb Ep) as Hlt.
      destruct (IH p ltac:(lia)) as (H1 & H2 & H3 & H4 & H5 & H6).
      split; [|split; [|split; [|split; [|split]]]].
      * simpl. lia.
      * intros c [<-|Hin]; [lia|]. specialize (H2 c Hin). lia.
      * constructor; [|exact H3]. intro Hin. specialize (H2 _ Hin). lia.
      * intros k c d Hc Hd. destruct k as [|k].
        -- simpl in Hc. injection Hc as <-.
           change (nth_error (chain_loop s n p []) 0 = Some d) in Hd.
           destruct n as [|n]; [discriminate Hd|].
           specialize (H6 ltac:(lia)).
           destruct (chain_loop s (S n) p []) as [|x l]; [discriminate Hd|].
           simpl in Hd, H6. exists b. split; congruence.
        -- exact (H4 k c d Hc Hd).
      * intro Hlen. simpl in Hlen.
        destruct (H5 ltac:(lia)) as (c & Hc & Hroot).
        exists c. split; [|exact Hroot].
        destruct (chain_loop s n p []) as [|x l] eqn:E.
        -- simpl in Hlen. destruct n; [lia|]. specialize (H6 ltac:(lia)).
           discriminate H6.
        -- rewrite <- Hc. apply (last_nonempty_default l x current p).
      * reflexivity.
    + split; [|split; [|split; [|split; [|split]]]].
      * simpl. lia.
      * intros c [<-|[]]. lia.
      * repeat constructor. intros [].
      * intros k c d Hc Hd. destruct k; discriminate Hd.
      * intros _. exists current. split; [reflexivity|]. exists b. auto.
      * reflexivity.
Qed.

(** On a skeleton whose parents precede their children, the chain that
    [solve_ik] builds has at most [chain_length] bones, starts at the
    effector, lists each bone's parent right after the bone, holds no bone
    twice, and is shorter than [chain_length] only when it ends at a root. *)
Theorem build_chain_spec
    (s : list Bone) (bone_name : string) (chain_length : Z) (chain : list nat) :
  parents_first s ->
  build_chain s bone_name chain_length = Some chain ->
  exists effector,
    getBone s bone_name = Some effector /\
    (length chain <= Z.to_nat chain_length)%nat /\
    ((0 < chain_length)%Z -> hd_error chain = Some effector) /\
    (forall k c d, nth_error chain k = Some c -> nth_error chain (S k) = Some d ->
                   parent_at s c d) /\
    NoDup chain /\
    ((length chain < Z.to_nat chain_length)%nat ->
     exists c, last chain effector = c /\ root_at s c).
Proof.
  intros Hpf H. unfold build_chain in H.
  destruct (getBone s bone_name) as [i|] eqn:Eg; [|discriminate].
  injection H as <-. exists i. split; [reflexivity|].
  destruct (chain_loop_spec s Hpf (Z.to_nat chain_length) i
              (getBone_bound s bone_name i Eg))
    as (H1 & H2 & H3 & H4 & H5 & H6).
  repeat split; auto.
  intro Hpos. apply H6. lia.
Qed.

Lemma build_chain_spec_witness :
  build_chain Examples.arm_a "lowerarm_l" 5 = Some [2; 1; 0]%nat /\
  build_chain Examples.arm_a "lowerarm_l" 2 = Some [2; 1]%nat /\
  exists effector,
    getBone Examples.arm_a "lowerarm_l" = Some effector /\
    (length [2; 1; 0]%nat <= Z.to_nat 5)%nat /\
    ((0 < 5)%Z -> hd_error [2; 1; 0]%nat = Some effector) /\
    (forall k c d, nth_error [2; 1; 0]%nat k = Some c ->
                   nth_error [2; 1; 0]%nat (S k) = Some d ->
                   parent_at Examples.arm_a c d) /\
    NoDup [2; 1; 0]%nat /\
    ((length [2; 1; 0]%nat < Z.to_nat 5)%nat ->
     exists c, last [2; 1; 0]%nat effector = c /\ root_at Examples.arm_a c).
Proof.
  split; [reflexivity|]. split; [reflexivity|].
  apply (build_chain_spec Examples.arm_a "lowerarm_l" 5 [2; 1; 0]%nat
           arm_a_parents_first).
  reflexivity.
Defined.

(** ** The face filter and the triangles of the preview *)

Section FaceFacts.
Import Faces.

(** A face group is kept exactly when its stripped name is one of body,
    the two eyes, the two rows of teeth and the tongue, or is
    helper-genital while the test [gender < 0.99] is false: the tests for
    joint- names and for skirt, tights and hair never change the
    outcome. *)
Theorem face_valid_iff (gender : Q) (g_clean : string) :
  face_valid gender g_clean = true <->
  In g_clean [ "body"; "helper-r-eye"; "helper-l-eye"; "helper-upper-teeth";
               "helper-lower-teeth"; "helper-tongue" ]%string \/
  (g_clean = "helper-genital"%string /\ ~ gender < 0.99).
Proof.
  unfold face_valid. cbv zeta.
  destruct (Parser.contains valid_prefixes g_clean) eqn:Ec.
  - apply contains_In in Ec. unfold valid_prefixes in Ec. simpl in Ec.
    destruct Ec as [<-|[<-|[<-|[<-|[<-|[<-|[<-|[]]]]]]]];
      try (split; [intros _; left; simpl; tauto | intros _; reflexivity]).
    change (String.prefix "joint-" "helper-genital") with false.
    change (Parser.contains ["helper-skirt"; "helper-tights"; "helper-hair"]%string
              "helper-genital") with false.
    change ("helper-genital" =? "helper-genital")%string with true.
    cbv iota. simpl andb.
    destruct (Qlt_bool gender 0.99) eqn:E.
    + apply Qlt_bool_iff in E. split; [discriminate|].
      intros [H|[_ H]].
      * simpl in H. repeat (destruct H as [H|H]; [discriminate H|]). destruct H.
      * exfalso. exact (H E).
    + apply Qlt_bool_false in E. split; [|reflexivity].
      intros _. right. split; [reflexivity|]. apply Qle_not_lt. exact E.
  - assert (Hn : ~ In g_clean valid_prefixes).
    { intro H. apply contains_In in H. congruence. }
    split.
    + destruct (String.prefix "joint-" g_clean),
        (Parser.contains ["helper-skirt"; "helper-tights"; "helper-hair"]%string
           g_clean),
        ((g_clean =? "helper-genital")%string && Qlt_bool gender 0.99);
        discriminate.
    + intro H. exfalso. apply Hn. unfold valid_prefixes.
      destruct H as [H|[-> _]]; simpl in *; tauto.
Qed.

Variable strip : string -> string.

Lemma In_combine_seq {A : Type} (l : list A) : forall k i g,
  In (i, g) (combine (seq k (length l)) l) <->
  (k <= i)%nat /\ nth_error l (i - k) = Some g.
Proof.
  induction l as [|a l IH]; intros k i g; simpl.
  - split; [intros []|]. intros [_ H]. destruct (i - k)%nat; discriminate H.
  - rewrite IH. split.
    + intros [H|[H1 H2]].
      * injection H as <- <-. rewrite Nat.sub_diag. split; [lia|reflexivity].
      * split; [lia|]. replace (i - k)%nat with (S (i - S k)) by lia. exact H2.
    + intros [H1 H2]. destruct (Nat.eq_dec i k) as [->|Hne].
      * rewrite Nat.sub_diag in H2. simpl in H2. injection H2 as <-. now left.
      * right. split; [lia|].
        replace (i - k)%nat with (S (i - S k)) in H2 by lia. exact H2.
Qed.

Lemma filter_loop_spec gender faces (l : list (nat * string)) : forall acc res,
  for_each
    (fun (valid_faces : list Face) (ig : nat * string) =>
       if face_valid gender (strip (snd ig))
       then match nth_error faces (fst ig) with
            | Some face => Ok (valid_faces ++ [face])
            | None => Raise IndexError
            end
       else Ok valid_faces) l acc = Ok res ->
  forall face,
    In face res <->
    In face acc \/
    exists ig, In ig l /\ face_valid gender (strip (snd ig)) = true /\
               nth_error faces (fst ig) = Some face.
Proof.
  induction l as [|ig l IH]; intros acc res H face; simpl in H.
  - injection H as <-. split; [tauto|]. intros [H|(ig & [] & _)]. exact H.
  - apply bind_ok in H as (acc' & Hstep & Hrest).
    rewrite (IH _ _ Hrest face).
    destruct (face_valid gender (strip (snd ig))) eqn:Ev.
    + destruct (nth_error faces (fst ig)) as [f|] eqn:Ef; [|discriminate].
      injection Hstep as <-. rewrite in_app_iff. split.
      * intros [[H|[<-|[]]]|(x & Hx & H1 & H2)].
        -- now left.
        -- right. exists ig. split; [now left|auto].
        -- right. exists x. split; [now right|auto].
      * intros [H|(x & [<-|Hx] & H1 & H2)].
        -- left. now left.
        -- left. right. left. congruence.
        -- right. exists x. auto.
    + injection Hstep as <-. split.
      * intros [H|(x & Hx & H1 & H2)].
        -- now left.
        -- right. exists x. split; [now right|auto].
      * intros [H|(x & [<-|Hx] & H1 & H2)].
        -- now left.
        -- congruence.
        -- right. exists x. auto.
Qed.

Lemma face_indices_loop (face : Face) : forall acc vs,
  for_each (fun (v_indices : list Z) (item : FaceItem) =>
              v <- vertex_index item ;; Ok (v_indices ++ [v]))
    face acc = Ok vs ->
  length vs = (length acc + length face)%nat /\
  forall v, In v vs ->
    In v acc \/ exists item, In item face /\ vertex_index item = Ok v.
Proof.
  induction face as [|item face IH]; intros acc vs H; simpl in H.
  - injection H as <-. split; [simpl; lia|auto].
  - apply bind_ok in H as (acc' & Hstep & Hrest).
    apply bind_ok in Hstep as (v0 & Hv0 & Hstep). injection Hstep as <-.
    destruct (IH _ _ Hrest) as [Hl Hin]. split.
    + rewrite Hl, length_app. simpl. lia.
    + intros v Hv. destruct (Hin v Hv) as [H|(it & H1 & H2)].
      * apply in_app_iff in H as [H|[<-|[]]]; [auto|].
        right. exists item. split; [now left|exact Hv0].
      * right. exists it. split; [now right|exact H2].
Qed.

Lemma triangles_spec (vs : list Z) :
  length (triangles vs) =
    (if Nat.eqb (length vs) 3 then 3 else if Nat.eqb (length vs) 4 then 6 else 0)%nat /\
  forall v, In v (triangles vs) ->
    In v vs /\ (length vs = 3%nat \/ length vs = 4%nat).
Proof.
  destruct vs as [|a [|b [|c [|d [|e vs]]]]]; simpl; split; auto; try tauto.
Qed.

Lemma tri_loop_spec (faces : list Face) : forall acc out,
  for_each
    (fun (tri : list Z) (face : Face) =>
       v_indices <- face_indices face ;; Ok (tri ++ triangles v_indices))
    faces acc = Ok out ->
  length out =
    (length acc + 3 * count_sized 3 faces + 6 * count_sized 4 faces)%nat /\
  forall v, In v out ->
    In v acc \/
    exists face item,
      In face faces /\ (length face = 3%nat \/ length face = 4%nat) /\
      In item face /\ vertex_index item = Ok v.
Proof.
  unfold count_sized.
  induction faces as [|face faces IH]; intros acc out H; simpl in H.
  - injection H as <-. split; [simpl; lia|auto].
  - apply bind_ok in H as (acc' & Hstep & Hrest).
    apply bind_ok in Hstep as (vs & Hvs & Hstep). injection Hstep as <-.
    destruct (face_indices_loop face [] vs Hvs) as [Hlen Hfrom].
    simpl in Hlen.
    destruct (triangles_spec vs) as [Htl Htin].
    destruct (IH _ _ Hrest) as [Hl Hin]. split.
    + rewrite Hl, length_app, Htl, Hlen. simpl filter.
      destruct (Nat.eqb (length face) 3) eqn:E3.
      * apply Nat.eqb_eq in E3. rewrite E3. simpl. lia.
      * destruct (Nat.eqb (length face) 4) eqn:E4; simpl; lia.
    + intros v Hv. destruct (Hin v Hv) as [H|(f & it & H1 & H2 & H3 & H4)].
      * apply in_app_iff in H as [H|H]; [auto|].
        destruct (Htin v H) as [Hvin Hsz].
        destruct (Hfrom v Hvin) as [[]|(it & H1 & H2)].
        right. exists face, it. rewrite <- Hlen. simpl. auto.
      * right. exists f, it. simpl. auto.
Qed.

(** When the preview endpoint returns its index list, the list holds
    three indices for every kept face with three vertices and six for
    every kept face with four, in triples; a face is kept exactly when it
    stands at the position of a group that passes the filter; and every
    index is the vertex index of an item of a kept face with three or four
    vertices: faces with more vertices are dropped without notice. *)
Theorem preview_indices_spec
    (gender : Q) (groups : list string) (faces : list Face) (out : list Z) :
  preview_indices strip gender (Some groups) faces = Ok out ->
  exists valid_faces,
    filter_faces strip gender (Some groups) faces = Ok valid_faces /\
    (forall face,
       In face valid_faces <->
       exists i g, nth_error groups i = Some g /\
                   face_valid gender (strip g) = true /\
                   nth_error faces i = Some face) /\
    length out =
      (3 * (count_sized 3 valid_faces + 2 * count_sized 4 valid_faces))%nat /\
    forall v, In v out ->
      exists face item,
        In face valid_faces /\ (length face = 3%nat \/ length face = 4%nat) /\
        In item face /\ vertex_index item = Ok v.
Proof.
  intro H. unfold preview_indices in H.
  apply bind_ok in H as (valid & Hf & Ht). exists valid.
  split; [exact Hf|]. split; [|split].
  - intro face. unfold filter_faces in Hf.
    rewrite (filter_loop_spec _ _ _ _ _ Hf face). split.
    + intros [[]|([i g] & Hin & H1 & H2)].
      apply In_combine_seq in Hin as [_ Hin]. rewrite Nat.sub_0_r in Hin.
      exists i, g. auto.
    + intros (i & g & H1 & H2 & H3). right. exists (i, g).
      split; [|auto]. apply In_combine_seq. rewrite Nat.sub_0_r.
      split; [lia|exact H1].
  - destruct (tri_loop_spec _ _ _ Ht) as [Hl _]. rewrite Hl. simpl. lia.
  - intros v Hv. destruct (tri_loop_spec _ _ _ Ht) as [_ Hin].
    destruct (Hin v Hv) as [[]|H]. exact H.
Qed.

End FaceFacts.

Lemma preview_indices_spec_witness :
  Faces.preview_indices (fun s => s) 1 (Some Examples.mesh_groups) Examples.mesh_faces
    = Ok [0; 1; 2; 3; 4; 5; 3; 5; 6]%Z /\
  exists valid_faces,
    Faces.filter_faces (fun s => s) 1 (Some Examples.mesh_groups)
      Examples.mesh_faces = Ok valid_faces /\
    length [0; 1; 2; 3; 4; 5; 3; 5; 6]%Z =
      (3 * (Faces.count_sized 3 valid_faces
            + 2 * Faces.count_sized 4 valid_faces))%nat.
Proof.
  split; [reflexivity|].
  destruct (preview_indices_spec (fun s => s) 1 Examples.mesh_groups
              Examples.mesh_faces [0; 1; 2; 3; 4; 5; 3; 5; 6]%Z eq_refl)
    as (valid & H1 & _ & H3 & _).
  exists valid. split; [exact H1|exact H3].
Defined.
